(** * P4_Quiz: the command handlers of [cmds.js]

    A shallow embedding of the command handlers of the quiz REPL
    ([cmds.js]) and the proofs of the properties its specification states
    about them.

    Conventions of the embedding.
    - A JavaScript string is a [string]: a sequence of code units, each
      in the range U+0000..U+00FF (Latin-1).  [trim], [toLowerCase] and
      [parseInt] are the ECMAScript operations restricted to that range.
    - A JavaScript number that holds an integer is a [number]; the
      conversion of a parsed integer to a double is written out in
      [toNumber] (round to nearest, ties to even, overflow to Infinity).
      The negative zero is identified with zero.
    - A promise chain is a computation over an explicit [World]: the
      storage, the lines the user will type, the values [Math.random] will
      return, the faults the storage layer will raise, and the trace of
      everything the handler did to the terminal. *)

From Stdlib Require Import ZArith Lia Ascii.
From stdpp Require Import base list strings.

Local Open Scope Z_scope.

(** ** Strings *)

Module JsString.

(** The code unit of a character. *)
Definition code (c : ascii) : N := N_of_ascii c.

(** The character with a given code; used to write the accented letters
    of the messages of [cmds.js]. *)
Definition chr (n : N) : string := String (ascii_of_N n) EmptyString.

(** [WhiteSpace] and [LineTerminator] code units below U+0100: TAB, LF,
    VT, FF, CR, SP and NBSP. *)
Definition isWhiteSpace (c : ascii) : bool :=
  let n := code c in
  ((9 <=? n) && (n <=? 13) || (n =? 32) || (n =? 160))%N.

(** [String.prototype.trimStart]. *)
Fixpoint trimStart (s : string) : string :=
  match s with
  | EmptyString => EmptyString
  | String c s' => if isWhiteSpace c then trimStart s' else s
  end.

(** [String.prototype.trimEnd]. *)
Fixpoint trimEnd (s : string) : string :=
  match s with
  | EmptyString => EmptyString
  | String c s' =>
      match trimEnd s' with
      | EmptyString => if isWhiteSpace c then EmptyString else String c EmptyString
      | t => String c t
      end
  end.

(** [String.prototype.trim]. *)
Definition trim (s : string) : string := trimEnd (trimStart s).

(** The lower-case mapping of one code unit below U+0100: [A-Z], and the
    Latin-1 capitals U+00C0..U+00DE except the multiplication sign
    U+00D7, move up by 32; every other code unit is its own lower case. *)
Definition toLowerChar (c : ascii) : ascii :=
  let n := code c in
  if ((65 <=? n) && (n <=? 90) || (192 <=? n) && (n <=? 214)
      || (216 <=? n) && (n <=? 222))%N
  then ascii_of_N (n + 32) else c.

(** [String.prototype.toLowerCase]. *)
Fixpoint toLowerCase (s : string) : string :=
  match s with
  | EmptyString => EmptyString
  | String c s' => String (toLowerChar c) (toLowerCase s')
  end.

(** [===] on two strings. *)
Definition strictEq (s t : string) : bool := String.eqb s t.

(** The decimal numeral of a natural number, as a template literal
    [`${n}`] renders it. *)
Fixpoint digitsOf (fuel n : nat) (acc : string) : string :=
  match fuel with
  | O => acc
  | S fuel' =>
      let d := String (ascii_of_nat (48 + n mod 10)) acc in
      match (n / 10)%nat with
      | O => d
      | q => digitsOf fuel' q d
      end
  end.

Definition ofNat (n : nat) : string := digitsOf (S n) n EmptyString.

End JsString.

Import JsString.

(** ** Numbers *)

(** The values [parseInt] can return. *)
Inductive number : Type :=
  | NaN
  | Num (z : Z)
  | PosInfinity
  | NegInfinity.

Module JsNumber.

(** The non-negative integer [m] rounded to a double: exact below 2^53,
    otherwise rounded to 53 significant bits, ties to even; [None] when
    the rounded value does not fit (2^1024 or above). *)
Definition roundToDouble (m : Z) : option Z :=
  if m <? 2 ^ 53 then Some m
  else
    let e := Z.log2 m - 52 in
    let q := Z.shiftr m e in
    let r := m - Z.shiftl q e in
    let half := 2 ^ (e - 1) in
    let q' := if (half <? r) || ((r =? half) && Z.odd q) then q + 1 else q in
    let v := Z.shiftl q' e in
    if v <? 2 ^ 1024 then Some v else None.

(** The number value of [sign * m], for [m >= 0]. *)
Definition toNumber (negative : bool) (m : Z) : number :=
  match roundToDouble m with
  | Some v => Num (if negative then - v else v)
  | None => if negative then NegInfinity else PosInfinity
  end.

(** The value of a digit in a radix, if the code unit is one. *)
Definition digitValue (radix : Z) (c : ascii) : option Z :=
  let n := Z.of_N (code c) in
  let v := if (48 <=? n) && (n <=? 57) then n - 48
           else if (97 <=? n) && (n <=? 122) then n - 97 + 10
           else if (65 <=? n) && (n <=? 90) then n - 65 + 10
           else radix in
  if v <? radix then Some v else None.

(** The value of the longest prefix of [s] made of digits of [radix],
    with [acc] the value of the digits read so far. *)
Fixpoint parseDigits (radix : Z) (s : string) (acc : Z) : Z :=
  match s with
  | EmptyString => acc
  | String c s' =>
      match digitValue radix c with
      | Some d => parseDigits radix s' (acc * radix + d)
      | None => acc
      end
  end.

(** Whether [s] starts with a digit of [radix]. *)
Definition startsWithDigit (radix : Z) (s : string) : bool :=
  match s with
  | EmptyString => false
  | String c _ => match digitValue radix c with Some _ => true | None => false end
  end.

(** The sign of the numeral and the rest of the string. *)
Definition stripSign (s : string) : bool * string :=
  match s with
  | String "-" s' => (true, s')
  | String "+" s' => (false, s')
  | _ => (false, s)
  end.

(** The radix of the numeral and the rest of the string: 16 after a
    [0x] or [0X] prefix, 10 otherwise. *)
Definition stripPrefix (s : string) : Z * string :=
  match s with
  | String "0" (String "x" s') => (16, s')
  | String "0" (String "X" s') => (16, s')
  | _ => (10, s)
  end.

(** [parseInt(string)], called with no radix. *)
Definition parseInt (s : string) : number :=
  let (negative, s1) := stripSign (trimStart s) in
  let (radix, s2) := stripPrefix s1 in
  if startsWithDigit radix s2
  then toNumber negative (parseDigits radix s2 0)
  else NaN.

(** [Number.isNaN]. *)
Definition isNaN (n : number) : bool :=
  match n with NaN => true | _ => false end.

End JsNumber.

Import JsNumber.

(** ** Errors *)

(** An error value.  [Error name message] is an instance of [Error] or
    of a subclass other than the storage layer's validation error;
    [ValidationError message errors] is an instance of
    [Sequelize.ValidationError], with the messages of its items. *)
Inductive jserror : Type :=
  | Error (name message : string)
  | ValidationError (message : string) (errors : list string).

(** [new Error(message)]. *)
Definition new_Error (message : string) : jserror := Error "Error" message.

(** [error.message]. *)
Definition message (e : jserror) : string :=
  match e with
  | Error _ m => m
  | ValidationError m _ => m
  end.

(** [error.name]. *)
Definition name (e : jserror) : string :=
  match e with
  | Error n _ => n
  | ValidationError _ _ => "SequelizeValidationError"
  end.

(** [error instanceof Sequelize.ValidationError]. *)
Definition isValidationError (e : jserror) : bool :=
  match e with
  | Error _ _ => false
  | ValidationError _ _ => true
  end.

(** [error.errors.map(({message}) => message)]. *)
Definition errors (e : jserror) : list string :=
  match e with
  | Error _ _ => []
  | ValidationError _ l => l
  end.

(** [Error.prototype.toString], which [+] applies to an error. *)
Definition toString (e : jserror) : string :=
  match name e, message e with
  | EmptyString, m => m
  | n, EmptyString => n
  | n, m => n +:+ ": " +:+ m
  end.

(** The [TypeError] of reading a property of [undefined]. *)
Definition TypeError_undefined (property : string) : jserror :=
  Error "TypeError"
    ("Cannot read property '" +:+ property +:+ "' of undefined").

(** ** The quiz, the terminal and the world *)

(** A row of the quiz table; [models.quiz] instances and the plain
    objects of a raw query carry the same three fields. *)
Record quiz : Type := Quiz {
  quiz_id : Z;
  question : string;
  answer : string
}.

(** What a handler does to the terminal, in the order it does it. *)
Inductive event : Type :=
  | Log (msg : string)                  (* log(msg) *)
  | BigLog (msg color : string)         (* biglog(msg, color) *)
  | ErrorLog (msg : string)             (* errorlog(msg) *)
  | ConsoleLog (msg : string)           (* console.log(msg) *)
  | RlQuestion (query : string)         (* rl.question(query, ...) *)
  | RlWrite (text : string)             (* rl.write(text) *)
  | RlPrompt                            (* rl.prompt() *)
  | UnhandledRejection (e : jserror).   (* a rejected promise nobody awaits *)

(** The state a handler runs in. *)
Record World : Type := mkWorld {
  rows : list quiz;             (* the quiz table, in the order findAll returns it *)
  nextId : Z;                   (* the id the next created row receives *)
  faults : list (option jserror); (* per storage call: the error it fails with, if any *)
  input : list string;          (* the lines the user will submit *)
  random : nat -> N;            (* the k-th Math.random() is [random k / 2^53] *)
  draws : nat;                  (* how many values Math.random has returned *)
  isTTY : bool;                 (* process.stdout.isTTY *)
  timers : list string;         (* pending setTimeout(() => rl.write(text), 0) *)
  trace : list event            (* the events so far, oldest first *)
}.

Definition with_rows (w : World) (r : list quiz) : World :=
  mkWorld r (nextId w) (faults w) (input w) (random w) (draws w) (isTTY w)
    (timers w) (trace w).
Definition with_nextId (w : World) (n : Z) : World :=
  mkWorld (rows w) n (faults w) (input w) (random w) (draws w) (isTTY w)
    (timers w) (trace w).
Definition with_faults (w : World) (f : list (option jserror)) : World :=
  mkWorld (rows w) (nextId w) f (input w) (random w) (draws w) (isTTY w)
    (timers w) (trace w).
Definition with_input (w : World) (i : list string) : World :=
  mkWorld (rows w) (nextId w) (faults w) i (random w) (draws w) (isTTY w)
    (timers w) (trace w).
Definition with_draws (w : World) (d : nat) : World :=
  mkWorld (rows w) (nextId w) (faults w) (input w) (random w) d (isTTY w)
    (timers w) (trace w).
Definition with_timers (w : World) (t : list string) : World :=
  mkWorld (rows w) (nextId w) (faults w) (input w) (random w) (draws w)
    (isTTY w) t (trace w).
Definition with_trace (w : World) (t : list event) : World :=
  mkWorld (rows w) (nextId w) (faults w) (input w) (random w) (draws w)
    (isTTY w) (timers w) t.

(** ** Promises *)

(** How a promise settles: fulfilled, rejected, or never (the user
    submits no further line). *)
Inductive outcome (A : Type) : Type :=
  | Resolved (a : A)
  | Rejected (e : jserror)
  | Pending.
Arguments Resolved {A} a.
Arguments Rejected {A} e.
Arguments Pending {A}.

Definition Promise (A : Type) : Type := World -> outcome A * World.

Definition resolve {A} (a : A) : Promise A := fun w => (Resolved a, w).

(** [reject(e)], and [throw e] inside a handler. *)
Definition reject {A} (e : jserror) : Promise A := fun w => (Rejected e, w).

(** [p.then(f)]. *)
Definition then_ {A B} (p : Promise A) (f : A -> Promise B) : Promise B :=
  fun w =>
    match p w with
    | (Resolved a, w') => f a w'
    | (Rejected e, w') => (Rejected e, w')
    | (Pending, w') => (Pending, w')
    end.

(** [p.catch(h)]. *)
Definition catch {A} (p : Promise A) (h : jserror -> Promise A) : Promise A :=
  fun w =>
    match p w with
    | (Rejected e, w') => h e w'
    | r => r
    end.

(** [p.catch(Class, h)]: the filtered catch of Bluebird promises. *)
Definition catchIf {A} (p : Promise A) (class : jserror -> bool)
    (h : jserror -> Promise A) : Promise A :=
  catch p (fun e => if class e then h e else reject e).

Notation "'let*' x ':=' p 'in' k" := (then_ p (fun x => k))
  (at level 10, x name, p at level 100, k at level 200).
Notation "p ;; k" := (then_ p (fun _ => k))
  (at level 100, k at level 200, right associativity).

(** [list.forEach(f)]. *)
Fixpoint forEach {A} (l : list A) (f : A -> Promise unit) : Promise unit :=
  match l with
  | [] => resolve tt
  | x :: l' => f x ;; forEach l' f
  end.

(** [promise.each(iterator)] of Bluebird promises: the iterator runs on
    each element of the array in order, and the promise is fulfilled with
    the array. *)
Definition each {A} (p : Promise (list A)) (f : A -> Promise unit)
    : Promise (list A) :=
  let* l := p in
  forEach l f ;;
  resolve l.

(** ** The terminal: [./out], [console] and the readline object *)

Definition emit (e : event) : Promise unit :=
  fun w => (Resolved tt, with_trace w (trace w ++ [e])).

Definition log (msg : string) : Promise unit := emit (Log msg).
Definition biglog (msg color : string) : Promise unit := emit (BigLog msg color).
Definition errorlog (msg : string) : Promise unit := emit (ErrorLog msg).
Definition console_log (msg : string) : Promise unit := emit (ConsoleLog msg).
Definition rl_prompt : Promise unit := emit RlPrompt.

(** [process.stdout.isTTY && setTimeout(() => {rl.write(text)}, 0)]. *)
Definition setTimeout_write (text : string) : Promise unit :=
  fun w =>
    if isTTY w then (Resolved tt, with_timers w (timers w ++ [text]))
    else (Resolved tt, w).

(** The pending timers run when the handler waits for the outside
    world. *)
Definition runTimers (w : World) : World :=
  with_timers (with_trace w (trace w ++ map RlWrite (timers w))) [].

(** [rl.question(query, callback)] as a promise of the line: the query
    is shown at once; the promise is fulfilled with the next line the
    user submits, and stays pending when there is none. *)
Definition rl_question (query : string) : Promise string :=
  fun w =>
    let w1 := runTimers (with_trace w (trace w ++ [RlQuestion query])) in
    match input w1 with
    | [] => (Pending, w1)
    | line :: rest => (Resolved line, with_input w1 rest)
    end.

(** [Math.random()]: the numerator of the next value over 2^53. *)
Definition Math_random (w : World) : N * World :=
  (random w (draws w), with_draws w (S (draws w))).

(** [Math.floor(r * n)] for [r] the numerator over 2^53 of a value of
    [Math.random()] and [n] the length of an array.  The product of the
    two doubles is rounded to a double, ties to even, before the floor
    is taken: the rounding of [r * n / 2^53] is the rounding of [r * n]
    scaled by 2^53.  A product too large for a double is [Infinity],
    which is the index of no element (no array is that long). *)
Definition Math_floor_times (r : N) (n : nat) : nat :=
  match JsNumber.roundToDouble (Z.of_N r * Z.of_nat n) with
  | Some v => Z.to_nat (v / 2 ^ 53)
  | None => n
  end.

(** The decimal numeral of an integer. *)
Definition ofZ (z : Z) : string :=
  if z <? 0 then "-" +:+ ofNat (Z.abs_nat z) else ofNat (Z.abs_nat z).

(** [`${id}`] for the raw argument of a command. *)
Definition template (id : option string) : string :=
  match id with
  | Some s => s
  | None => "undefined"
  end.

(** The three errors the handlers raise themselves; the specification
    calls them MissingParameterError, InvalidParameterError and
    NotFoundError. *)
Definition MissingParameterError : jserror :=
  new_Error "Falta el parametro <id>.".

Definition InvalidParameterError : jserror :=
  new_Error ("El valor del par" +:+ chr 225 +:+ "metro <id> no es un n"
             +:+ chr 250 +:+ "mero.").

Definition NotFoundError (id : option string) : jserror :=
  new_Error ("No existe un quiz asociado al id=" +:+ template id +:+ ".").

(** ** Identifier validation *)

(** [validateId]: [None] is the argument [undefined]. *)
Definition validateId (id : option string) : Promise number :=
  match id with
  | None => reject MissingParameterError
  | Some s =>
      let id := parseInt s in
      if isNaN id then reject InvalidParameterError
      else resolve id
  end.

(** ** Sample worlds *)

(** A terminal without colours. *)
Definition plain (msg color : string) : string := msg.

(** One stored quiz; the user is about to submit two lines. *)
Definition arithmetic : World :=
  mkWorld [Quiz 7 "2+2?" "4"] 8 [] ["3+3?"; "6"] (fun _ => 0%N) 0 true [] [].

(** The same, with white space around the two lines. *)
Definition padded : World :=
  mkWorld [Quiz 7 "2+2?" "4"] 8 [] [" 3+3? "; " 6 "] (fun _ => 0%N) 0 true
    [] [].

(** Two stored quizzes; [Math.random] returns one half, so the second
    one is asked first. *)
Definition capitals : World :=
  mkWorld [Quiz 1 "Capital of Spain" "Madrid";
           Quiz 2 "Capital of France" "Paris"]
    3 [] [" paris "; "MADRID"] (fun _ => (2 ^ 52)%N) 0 false [] [].

(** Three stored quizzes; [Math.random] returns 6004799503160661 / 2^53,
    just below two thirds: three times it is 2 - 2^-53, which is no
    double and rounds to 2, so the third quiz is asked first. *)
Definition thirds : World :=
  mkWorld [Quiz 1 "Capital of Spain" "Madrid";
           Quiz 2 "Capital of France" "Paris";
           Quiz 3 "Capital of Italy" "Rome"]
    4 [] ["rome"; " PARIS"; "Lisbon"] (fun _ => 6004799503160661%N) 0 false
    [] [].

(** No stored quiz. *)
Definition blank : World :=
  mkWorld [] 1 [] [] (fun _ => 0%N) 0 false [] [].

(** A storage that refuses the next call. *)
Definition unreachable : World :=
  with_faults capitals
    [Some (Error "SequelizeConnectionError" "connect ECONNREFUSED")].

Section Cmds.

(** [colorize(msg, color)] of [./out]: the text with the terminal's
    colour codes around it. *)
Variable colorize : string -> string -> string.

(** The messages of the two non-empty validations of the quiz model. *)
Variable emptyQuestionMsg emptyAnswerMsg : string.

(** ** The storage collaborator [models.quiz] *)

(** Modelled from the spec: every storage operation is asynchronous and
    may fail with a generic error or a validation error (section 6); the
    next entry of [faults] says whether this call does. *)
Definition storageCall : Promise unit :=
  fun w =>
    let w1 := runTimers w in
    match faults w1 with
    | Some e :: rest => (Rejected e, with_faults w1 rest)
    | None :: rest => (Resolved tt, with_faults w1 rest)
    | [] => (Resolved tt, w1)
    end.

(** Modelled from the spec: the model file is not part of the sources;
    question and answer must both be non-empty (section 3), and a failed
    validation carries one message per failing field (section 6). *)
Definition validate (q a : string) : list string :=
  (if strictEq q "" then [emptyQuestionMsg] else [])
  ++ (if strictEq a "" then [emptyAnswerMsg] else []).

(** The validation error Sequelize builds from the failed validations:
    its message joins [Validation error: msg] for each of them. *)
Fixpoint joinErrors (l : list string) : string :=
  match l with
  | [] => ""
  | [m] => "Validation error: " +:+ m
  | m :: l' => "Validation error: " +:+ m +:+ "," +:+ chr 10 +:+ joinErrors l'
  end.

Definition validationError (l : list string) : jserror :=
  ValidationError (joinErrors l) l.

(** Modelled from the spec: [create({question, answer}) -> Quiz]; the id
    is assigned by the storage (section 3). *)
Definition create (q a : string) : Promise quiz :=
  match validate q a with
  | [] =>
      storageCall ;;
      (fun w =>
         let row := Quiz (nextId w) q a in
         (Resolved row, with_nextId (with_rows w (rows w ++ [row])) (nextId w + 1)))
  | l => reject (validationError l)
  end.

(** Modelled from the spec: [findAll() -> sequence of Quiz]. *)
Definition findAll : Promise (list quiz) :=
  storageCall ;; (fun w => (Resolved (rows w), w)).

(** Modelled from the spec: [findById(id) -> Quiz | absent]. *)
Definition findById (id : number) : Promise (option quiz) :=
  storageCall ;;
  (fun w =>
     (Resolved match id with
               | Num z => List.find (fun r => quiz_id r =? z) (rows w)
               | _ => None
               end, w)).

(** Modelled from the spec: [destroy({where: {id}}) -> count]. *)
Definition destroy (id : number) : Promise nat :=
  storageCall ;;
  (fun w =>
     let keep := match id with
                 | Num z => List.filter (fun r => negb (quiz_id r =? z)) (rows w)
                 | _ => rows w
                 end in
     (Resolved (length (rows w) - length keep)%nat, with_rows w keep)).

(** Modelled from the spec: [quiz.save() -> Quiz] persists the in-place
    mutation of the instance, after the validations of the model. *)
Definition save (q : quiz) : Promise quiz :=
  match validate (question q) (answer q) with
  | [] =>
      storageCall ;;
      (fun w =>
         (Resolved q,
          with_rows w
            (map (fun r => if quiz_id r =? quiz_id q then q else r) (rows w))))
  | l => reject (validationError l)
  end.

(** ** The handlers *)

(** [makeQuestion(rl, text)]. *)
Definition makeQuestion (text : string) : Promise string :=
  let* answer := rl_question (colorize text "red") in
  resolve (trim answer).

(** The two catch clauses and the final prompt that [addCmd], [testCmd]
    and [editCmd] end with. *)
Definition reportAndPrompt (p : Promise unit) : Promise unit :=
  catch
    (catchIf p isValidationError
       (fun error =>
          errorlog "El quiz es erroneo:" ;;
          forEach (errors error) errorlog))
    (fun error => errorlog (message error)) ;;
  rl_prompt.

(** The promise [addCmd] reports on: the two questions, the creation
    and the confirmation. *)
Definition addChain : Promise unit :=
  let* quiz :=
    (let* qa :=
       (let* q := makeQuestion "Introduzca una pregunta: " in
        let* a := makeQuestion "Introduzca la respuesta " in
        resolve (q, a)) in
     create (fst qa) (snd qa)) in
  log (" " +:+ colorize ("Se ha a" +:+ chr 241 +:+ "adido") "magenta" +:+ ": "
       +:+ question quiz +:+ " " +:+ colorize "=>" "magenta" +:+ " "
       +:+ answer quiz).

(** [exports.addCmd]. *)
Definition addCmd : Promise unit := reportAndPrompt addChain.

(** The promise [listCmd] reports on. *)
Definition listChain : Promise (list quiz) :=
  each findAll
    (fun quiz =>
       log ("[" +:+ colorize (ofZ (quiz_id quiz)) "magenta" +:+ "]: "
            +:+ question quiz +:+ " ")).

(** [exports.listCmd]. *)
Definition listCmd : Promise unit :=
  catch (listChain ;; resolve tt)
    (fun error => errorlog (message error)) ;;
  rl_prompt.

(** The promise [showCmd] reports on. *)
Definition showChain (id : option string) : Promise unit :=
  let* quiz := (let* id' := validateId id in findById id') in
  match quiz with
  | None => reject (NotFoundError id)
  | Some quiz =>
      log ("[" +:+ colorize (ofZ (quiz_id quiz)) "magenta" +:+ "]: "
           +:+ question quiz +:+ " " +:+ colorize "=>" "magenta" +:+ " "
           +:+ answer quiz)
  end.

(** [exports.showCmd]. *)
Definition showCmd (id : option string) : Promise unit :=
  catch (showChain id) (fun error => errorlog (message error)) ;;
  rl_prompt.

(** The promise [testCmd] reports on. *)
Definition testChain (id : option string) : Promise unit :=
  let* quiz := (let* id' := validateId id in findById id') in
  match quiz with
  | None => reject (NotFoundError id)
  | Some quiz =>
      let* a := makeQuestion (question quiz +:+ "? ") in
      if strictEq (toLowerCase (trim a)) (toLowerCase (trim (answer quiz)))
      then log "Su respuesta es correcta." ;; biglog "Correcta" "green"
      else log "Su respuesta es incorrecta." ;; biglog "Incorrecta" "red"
  end.

(** [exports.testCmd]. *)
Definition testCmd (id : option string) : Promise unit :=
  reportAndPrompt (testChain id).

(** The promise [editCmd] reports on. *)
Definition editChain (id : option string) : Promise unit :=
  let* quiz :=
    (let* quiz :=
       (let* quiz := (let* id' := validateId id in findById id') in
        match quiz with
        | None => reject (NotFoundError id)
        | Some quiz =>
            setTimeout_write (question quiz) ;;
            let* q := makeQuestion "Introduzca la pregunta: " in
            setTimeout_write (answer quiz) ;;
            let* a := makeQuestion "Introduzca la respuesta " in
            let quiz := Quiz (quiz_id quiz) q (answer quiz) in
            let quiz := Quiz (quiz_id quiz) (question quiz) q in
            resolve quiz
        end) in
     save quiz) in
  log (" Se ha cambiado el quiz " +:+ colorize (ofZ (quiz_id quiz)) "magenta"
       +:+ " por: " +:+ question quiz +:+ " " +:+ colorize "=>" "magenta"
       +:+ " " +:+ answer quiz).

(** [exports.editCmd]. *)
Definition editCmd (id : option string) : Promise unit :=
  reportAndPrompt (editChain id).

(** The promise [deleteCmd] reports on. *)
Definition deleteChain (id : option string) : Promise nat :=
  let* id' := validateId id in destroy id'.

(** [exports.deleteCmd]. *)
Definition deleteCmd (id : option string) : Promise unit :=
  catch (deleteChain id ;; resolve tt)
    (fun error => errorlog (message error)) ;;
  rl_prompt.

(** ** The play session *)

(** The two variables [playCmd] closes over. *)
Record Session : Type := mkSession {
  score : nat;
  toBeResolved : list quiz
}.

(** The end of a session: the final score, its banner and the prompt. *)
Definition endOfGame (score : nat) : Promise unit :=
  log ("Fin del juego. Aciertos: " +:+ ofNat score) ;;
  biglog (ofNat score) "magenta" ;;
  rl_prompt.

(** [playOne], with everything its promise starts run to the end: how
    the last promise settled, the variables of the session, and the
    world.  [fuel] bounds the number of questions; the result is [None]
    when it is used up with quizzes left ([playOne_total]: it never is
    from the length of [toBeResolved] on). *)
Fixpoint playOne (fuel : nat) (s : Session) (w : World)
    : option (outcome unit * Session * World) :=
  match toBeResolved s with
  | [] =>
      let (r, w1) :=
        (log ("No hay nada m" +:+ chr 225 +:+ "s que preguntar. ") ;;
         endOfGame (score s)) w in
      Some (r, s, w1)
  | _ :: _ =>
      match fuel with
      | O => None
      | S fuel' =>
          let (r, w1) := Math_random w in
          let id := Math_floor_times r (length (toBeResolved s)) in
          let quiz := toBeResolved s !! id in
          let s1 := mkSession (score s) (delete id (toBeResolved s)) in
          match quiz with
          | None => Some (Rejected (TypeError_undefined "question"), s1, w1)
          | Some quiz =>
              match makeQuestion (question quiz +:+ ": ") w1 with
              | (Resolved answer', w2) =>
                  if strictEq (toLowerCase (trim answer'))
                              (toLowerCase (trim (answer quiz)))
                  then
                    let s2 := mkSession (S (score s1)) (toBeResolved s1) in
                    let (_, w3) :=
                      log ("CORRECTO - Lleva " +:+ ofNat (score s2)
                           +:+ " aciertos") w2 in
                    playOne fuel' s2 w3
                  else
                    let (r', w3) :=
                      (log "INCORRECTO" ;; endOfGame (score s1)) w2 in
                    Some (r', s1, w3)
              | (Rejected e, w2) => Some (Rejected e, s1, w2)
              | (Pending, w2) => Some (Pending, s1, w2)
              end
          end
      end
  end.

(** [playOne()] called without its promise being returned: the chain
    that calls it goes on at once, and a rejection stays unhandled. *)
Definition detached (r : option (outcome unit * Session * World)) (w : World)
    : outcome unit * World :=
  match r with
  | Some (Rejected e, _, w') => emit (UnhandledRejection e) w'
  | Some (_, _, w') => (Resolved tt, w')
  | None => (Pending, w)
  end.

(** [exports.playCmd]. *)
Definition playCmd : Promise unit :=
  catch
    (let* quizzes := findAll in
     fun w =>
       let s := mkSession 0 quizzes in
       detached (playOne (length (toBeResolved s)) s w) w)
    (fun e => console_log ("Error: " +:+ toString e)).

(** ** The words of the specification *)

(** A string made of white space only. *)
Fixpoint allWhiteSpace (s : string) : bool :=
  match s with
  | EmptyString => true
  | String c s' => isWhiteSpace c && allWhiteSpace s'
  end.

(** Two texts agree up to surrounding white space and letter case: each
    is a core with white space around it, and the two cores differ in
    the case of their letters at most. *)
Definition agree (s t : string) : Prop :=
  exists a1 s' a2 b1 t' b2,
    s = a1 +:+ s' +:+ a2 /\ t = b1 +:+ t' +:+ b2 /\
    allWhiteSpace a1 = true /\ allWhiteSpace a2 = true /\
    allWhiteSpace b1 = true /\ allWhiteSpace b2 = true /\
    toLowerCase s' = toLowerCase t'.

(** A decimal digit, a string of decimal digits, and the value of one. *)
Definition isDecimalDigit (c : ascii) : bool :=
  ((48 <=? code c) && (code c <=? 57))%N.

Fixpoint allDigits (s : string) : bool :=
  match s with
  | EmptyString => true
  | String c s' => isDecimalDigit c && allDigits s'
  end.

Fixpoint decimalValue (s : string) (acc : Z) : Z :=
  match s with
  | EmptyString => acc
  | String c s' => decimalValue s' (acc * 10 + (Z.of_N (code c) - 48))
  end.

(** The string does not go on with [x] or [X]. *)
Definition noHexMark (s : string) : bool :=
  match s with
  | String "x" _ => false
  | String "X" _ => false
  | _ => true
  end.

(** The error the next storage call fails with, if it fails. *)
Definition nextFault (w : World) : option jserror :=
  match faults w with
  | Some e :: _ => Some e
  | _ => None
  end.

(** The world after a storage call that did not fail and changed no
    row: the pending timers have run and one entry of the fault schedule
    is used up. *)
Definition afterStorageCall (w : World) : World :=
  with_faults (runTimers w) (tail (faults w)).

(** No stored record has the id [n]. *)
Definition noRecord (n : number) (w : World) : Prop :=
  forall r, In r (rows w) -> Num (quiz_id r) <> n.

(** The record with the id [z] is [q]. *)
Definition recordOf (z : Z) (w : World) : option quiz :=
  List.find (fun r => quiz_id r =? z) (rows w).

(** The events after [before] in the trace of [after]. *)
Definition emitted (before after : World) (l : list event) : Prop :=
  trace after = trace before ++ l.

(** The number of re-prompts among some events. *)
Definition prompts (l : list event) : nat :=
  length (List.filter (fun e => match e with RlPrompt => true | _ => false end) l).

(** The events of a question of the play session. *)
Definition asks (q : quiz) : event :=
  RlQuestion (colorize (question q +:+ ": ") "red").

(** The line of the running score. *)
Definition correctLine (n : nat) : event :=
  Log ("CORRECTO - Lleva " +:+ ofNat n +:+ " aciertos").

(** The events of a run of correct answers, from the score [n] on. *)
Fixpoint rounds (n : nat) (l : list quiz) : list event :=
  match l with
  | [] => []
  | q :: l' => asks q :: correctLine (S n) :: rounds (S n) l'
  end.

(** The events of the test of a quiz, by whether the answer matched. *)
Definition tested (q : quiz) (correct : bool) : list event :=
  RlQuestion (colorize (question q +:+ "? ") "red")
  :: (if correct
      then [Log "Su respuesta es correcta."; BigLog "Correcta" "green"]
      else [Log "Su respuesta es incorrecta."; BigLog "Incorrecta" "red"])
  ++ [RlPrompt].

(** The events that end a session with the score [n]. *)
Definition gameOver (n : nat) : list event :=
  [Log ("Fin del juego. Aciertos: " +:+ ofNat n); BigLog (ofNat n) "magenta";
   RlPrompt].

Definition nothingLeft : event :=
  Log ("No hay nada m" +:+ chr 225 +:+ "s que preguntar. ").

(** The world after a command reported that the quiz does not exist. *)
Definition notFoundReported (id : option string) (w : World) : World :=
  let w1 := afterStorageCall w in
  with_trace w1 (trace w1 ++ [ErrorLog (message (NotFoundError id)); RlPrompt]).

(** The world after [makeQuestion(rl, text)] received a line: the query
    is on the terminal, the pending timers have run, and the line is
    used up. *)
Definition answered (text : string) (w : World) : World :=
  with_input
    (runTimers (with_trace w (trace w ++ [RlQuestion (colorize text "red")])))
    (tail (input w)).

(** The world after a call of [setTimeout_write]. *)
Definition scheduled (text : string) (w : World) : World :=
  if isTTY w then with_timers w (timers w ++ [text]) else w.

(** The rows after the row with the id of [q] was replaced by [q]. *)
Definition replaced (q : quiz) (l : list quiz) : list quiz :=
  map (fun r => if quiz_id r =? quiz_id q then q else r) l.

(** The world in which [editCmd] calls [save]: the quiz was fetched and
    the two questions were answered. *)
Definition edited (q0 : quiz) (w : World) : World :=
  answered "Introduzca la respuesta "
    (scheduled (answer q0)
       (answered "Introduzca la pregunta: "
          (scheduled (question q0) (afterStorageCall w)))).

(** What the two catch clauses of [addCmd], [testCmd] and [editCmd] log
    for an error. *)
Definition reported (e : jserror) : list event :=
  match e with
  | Error _ m => [ErrorLog m]
  | ValidationError _ l => ErrorLog "El quiz es erroneo:" :: map ErrorLog l
  end.

(** The world in which [addCmd] calls [create]: the two questions were
    answered. *)
Definition prompted (w : World) : World :=
  answered "Introduzca la respuesta " (answered "Introduzca una pregunta: " w).

(** The events of the two questions of [addCmd]. *)
Definition addQuestions (w : World) : list event :=
  RlQuestion (colorize "Introduzca una pregunta: " "red")
  :: map RlWrite (timers w)
  ++ [RlQuestion (colorize "Introduzca la respuesta " "red")].

(** The index the play session picks next, the world after that draw,
    and the session after the removal of the picked quiz. *)
Definition picked (s : Session) (w : World) : nat :=
  Math_floor_times (random w (draws w)) (length (toBeResolved s)).

Definition drawn (w : World) : World := with_draws w (S (draws w)).

Definition dropped (s : Session) (w : World) : Session :=
  mkSession (score s) (delete (picked s w) (toBeResolved s)).

(** The world after the play session asked [q] and got a line. *)
Definition heard (q : quiz) (w : World) : World :=
  answered (question q +:+ ": ") (drawn w).

(** The world [w] with more events. *)
Definition saying (w : World) (l : list event) : World :=
  with_trace w (trace w ++ l).

(** [Math.random] returns values below 1. *)
Definition randomBelowOne (w : World) : Prop :=
  forall k, (random w k < 2 ^ 53)%N.

(** An array holds fewer than 2^32 elements. *)
Definition isArrayLength (n : nat) : Prop := Z.of_nat n < 2 ^ 32.

(** The lines a play session read, by how its last promise settled:
    one for each quiz answered correctly, in turn, each agreeing with
    the answer of its quiz; then, unless the session waits for a line,
    one for the quiz asked last, not agreeing with its answer. *)
Definition linesRead (r : outcome unit) (right last : list quiz)
    (lines : list string) : Prop :=
  exists good bad,
    lines = good ++ bad
    /\ Forall2 (fun line q => agree line (answer q)) good right
    /\ match r with
       | Pending => bad = []
       | _ => Forall2 (fun line q => ~ agree line (answer q)) bad last
       end.

(** The ways a play session ends: the outcome of its last promise, the
    quiz it asked last without a correct answer (if any), the quizzes
    left, and the last events. *)
Inductive ending (n : nat)
    : outcome unit -> list quiz -> list quiz -> list event -> Prop :=
  | NothingLeft :
      ending n (Resolved tt) [] [] (nothingLeft :: gameOver n)
  | Incorrect (q : quiz) (left : list quiz) :
      ending n (Resolved tt) [q] left
        (asks q :: Log "INCORRECTO" :: gameOver n)
  | NoAnswer (q : quiz) (left : list quiz) :
      ending n Pending [q] left [asks q].

(** ** What a promise leaves alone *)

(** The promise [p] takes every world to one related to it by [R]. *)
Definition keeps {A} (R : World -> World -> Prop) (p : Promise A) : Prop :=
  forall w, R w (snd (p w)).

(** The stored records and the next id are the same. *)
Definition sameRecords (w w' : World) : Prop :=
  rows w' = rows w /\ nextId w' = nextId w.

(** No line of the user was read. *)
Definition sameInput (w w' : World) : Prop := input w' = input w.

(** The storage was not called. *)
Definition sameSchedule (w w' : World) : Prop := faults w' = faults w.

(** No re-prompt was issued. *)
Definition noPrompt (w w' : World) : Prop :=
  exists l, emitted w w' l /\ prompts l = 0%nat.

(** The promise [p] is never left pending. *)
Definition settles {A} (p : Promise A) : Prop :=
  forall w, fst (p w) <> Pending.

(** The promise [p] is never rejected. *)
Definition neverRejected {A} (p : Promise A) : Prop :=
  forall w e, fst (p w) <> Rejected e.

(** A command did its work and re-prompted: its promise is fulfilled and
    its last event, the only re-prompt, is [RlPrompt]. *)
Definition prompted_once (w : World) (r : outcome unit * World) : Prop :=
  fst r = Resolved tt
  /\ exists l, emitted w (snd r) (l ++ [RlPrompt]) /\ prompts l = 0%nat.

(** A command is waiting for a line that does not come: its promise is
    pending and it has not re-prompted. *)
Definition waiting (w : World) (r : outcome unit * World) : Prop :=
  fst r = Pending /\ noPrompt w (snd r).

(** The line [listCmd] prints for a quiz. *)
Definition listed (q : quiz) : event :=
  Log ("[" +:+ colorize (ofZ (quiz_id q)) "magenta" +:+ "]: "
       +:+ question q +:+ " ").

(** The line [showCmd] prints for a quiz. *)
Definition shown (q : quiz) : event :=
  Log ("[" +:+ colorize (ofZ (quiz_id q)) "magenta" +:+ "]: "
       +:+ question q +:+ " " +:+ colorize "=>" "magenta" +:+ " "
       +:+ answer q).

(** The ids of the stored records are pairwise distinct and below the
    next id the storage hands out. *)
Definition uniqueIds (w : World) : Prop :=
  NoDup (map quiz_id (rows w))
  /\ Forall (fun r => quiz_id r < nextId w) (rows w).

(** A relation between the world before and the world after that holds
    when nothing happens and composes. *)
Class Frame (R : World -> World -> Prop) : Prop := {
  frame_refl : forall w, R w w;
  frame_trans : forall a b c, R a b -> R b c -> R a c
}.

(** The two catch clauses of [addCmd], [testCmd] and [editCmd]. *)
Definition handled (p : Promise unit) : Promise unit :=
  catch
    (catchIf p isValidationError
       (fun error =>
          errorlog "El quiz es erroneo:" ;;
          forEach (errors error) errorlog))
    (fun error => errorlog (message error)).

(** The promise [p] reads at most [n] lines, and is not left pending
    when the user submits that many. *)
Definition asksAtMost {A} (n : nat) (p : Promise A) : Prop :=
  forall w,
    (length (input w) <= length (input (snd (p w))) + n)%nat
    /\ ((n <= length (input w))%nat -> fst (p w) <> Pending).

(** The rows without those of the id [z]. *)
Definition without (z : Z) (l : list quiz) : list quiz :=
  List.filter (fun r => negb (quiz_id r =? z)) l.

(** Unique ids stay unique. *)
Definition staysUnique (w w' : World) : Prop := uniqueIds w -> uniqueIds w'.

(** The events of a successful edit of [q0] into the question [q], on a
    terminal that is a TTY or not. *)
Definition editEvents (tty : bool) (q0 : quiz) (q : string) : list event :=
  RlQuestion (colorize "Introduzca la pregunta: " "red")
  :: (if tty then [RlWrite (question q0)] else [])
  ++ RlQuestion (colorize "Introduzca la respuesta " "red")
  :: (if tty then [RlWrite (answer q0)] else [])
  ++ [Log (" Se ha cambiado el quiz " +:+ colorize (ofZ (quiz_id q0)) "magenta"
           +:+ " por: " +:+ q +:+ " " +:+ colorize "=>" "magenta"
           +:+ " " +:+ q);
      RlPrompt].

(** The ids of the records, in their order, and the next id are the
    same. *)
Definition sameIds (w w' : World) : Prop :=
  map quiz_id (rows w') = map quiz_id (rows w) /\ nextId w' = nextId w.

(** ** Sample evaluations *)

Example parseInt_3abc : parseInt "3abc" = Num 3.
Proof. reflexivity. Qed.

Example parseInt_neg : parseInt "  -42px" = Num (-42).
Proof. reflexivity. Qed.

Example parseInt_hex : parseInt "0x1f" = Num 31.
Proof. reflexivity. Qed.

Example parseInt_0x : parseInt "0x" = NaN.
Proof. reflexivity. Qed.

Example parseInt_empty : parseInt "" = NaN.
Proof. reflexivity. Qed.

Example parseInt_big : parseInt "9007199254740993" = Num 9007199254740992.
Proof. reflexivity. Qed.

Example trim_madrid : toLowerCase (trim "  MaDrid ") = "madrid".
Proof. reflexivity. Qed.

Example ofNat_120 : ofNat 120 = "120".
Proof. reflexivity. Qed.

(** ** Strings: trimming and lower-casing *)

Lemma isWhiteSpace_toLowerChar (c : ascii) :
  isWhiteSpace (toLowerChar c) = isWhiteSpace c.
Proof. destruct c as [[] [] [] [] [] [] [] []]; reflexivity. Qed.

Lemma toLowerCase_empty (s : string) :
  toLowerCase s = EmptyString -> s = EmptyString.
Proof. destruct s; simpl; [reflexivity | discriminate]. Qed.

Lemma trimStart_toLowerCase (s : string) :
  trimStart (toLowerCase s) = toLowerCase (trimStart s).
Proof.
  induction s as [|c s IH]; simpl; [reflexivity|].
  rewrite isWhiteSpace_toLowerChar.
  destruct (isWhiteSpace c); [exact IH | reflexivity].
Qed.

Lemma trimEnd_toLowerCase (s : string) :
  trimEnd (toLowerCase s) = toLowerCase (trimEnd s).
Proof.
  induction s as [|c s IH]; simpl; [reflexivity|].
  rewrite IH, isWhiteSpace_toLowerChar.
  destruct (trimEnd s) as [|d t]; simpl.
  - destruct (isWhiteSpace c); reflexivity.
  - reflexivity.
Qed.

Lemma trim_toLowerCase (s : string) :
  trim (toLowerCase s) = toLowerCase (trim s).
Proof.
  unfold trim. rewrite trimStart_toLowerCase. apply trimEnd_toLowerCase.
Qed.

Lemma trimStart_white (a : string) :
  allWhiteSpace a = true -> trimStart a = EmptyString.
Proof.
  induction a as [|c a IH]; simpl; [reflexivity|].
  intros H. apply andb_true_iff in H as [Hc Ha].
  rewrite Hc. auto.
Qed.

Lemma trimStart_app_white (a s : string) :
  allWhiteSpace a = true -> trimStart (a +:+ s) = trimStart s.
Proof.
  induction a as [|c a IH]; simpl; [reflexivity|].
  intros H. apply andb_true_iff in H as [Hc Ha].
  rewrite Hc. auto.
Qed.

Lemma trimEnd_white (a : string) :
  allWhiteSpace a = true -> trimEnd a = EmptyString.
Proof.
  induction a as [|c a IH]; simpl; [reflexivity|].
  intros H. apply andb_true_iff in H as [Hc Ha].
  rewrite (IH Ha), Hc. reflexivity.
Qed.

Lemma trimEnd_app_white (s a : string) :
  allWhiteSpace a = true -> trimEnd (s +:+ a) = trimEnd s.
Proof.
  intros Ha. induction s as [|c s IH]; simpl.
  - apply trimEnd_white, Ha.
  - rewrite IH. reflexivity.
Qed.

Lemma trim_app_white_r (s a : string) :
  allWhiteSpace a = true -> trim (s +:+ a) = trim s.
Proof.
  intros Ha. induction s as [|c s IH].
  - change (EmptyString +:+ a) with a. unfold trim.
    rewrite (trimStart_white a Ha). reflexivity.
  - unfold trim in *. change (String c s +:+ a) with (String c (s +:+ a)).
    cbn [trimStart]. destruct (isWhiteSpace c) eqn:Hc.
    + exact IH.
    + change (String c (s +:+ a)) with (String c s +:+ a).
      apply trimEnd_app_white, Ha.
Qed.

Lemma trim_core (a1 s a2 : string) :
  allWhiteSpace a1 = true -> allWhiteSpace a2 = true ->
  trim (a1 +:+ s +:+ a2) = trim s.
Proof.
  intros H1 H2. unfold trim at 1. rewrite trimStart_app_white by exact H1.
  apply (trim_app_white_r s a2 H2).
Qed.

Lemma trimStart_split (s : string) :
  exists a, allWhiteSpace a = true /\ s = a +:+ trimStart s.
Proof.
  induction s as [|c s [a [Ha Hs]]]; simpl.
  - exists EmptyString. split; reflexivity.
  - destruct (isWhiteSpace c) eqn:Hc.
    + exists (String c a). simpl. rewrite Hc, Ha. split; [reflexivity|].
      change (String c s = String c (a +:+ trimStart s)). f_equal. exact Hs.
    + exists EmptyString. split; reflexivity.
Qed.

Lemma trimEnd_split (s : string) :
  exists b, allWhiteSpace b = true /\ s = trimEnd s +:+ b.
Proof.
  induction s as [|c s [b [Hb Hs]]]; simpl.
  - exists EmptyString. split; reflexivity.
  - destruct (trimEnd s) as [|d t] eqn:Ht.
    + destruct (isWhiteSpace c) eqn:Hc.
      * exists (String c b). simpl. rewrite Hc, Hb. split; [reflexivity|].
        change (String c s = String c (EmptyString +:+ b)). f_equal. exact Hs.
      * exists b. split; [exact Hb|].
        change (String c s = String c (EmptyString +:+ b)). f_equal. exact Hs.
    + exists b. split; [exact Hb|].
      change (String c s = String c (String d t +:+ b)). f_equal. exact Hs.
Qed.

Lemma trim_split (s : string) :
  exists a b, allWhiteSpace a = true /\ allWhiteSpace b = true /\
              s = a +:+ trim s +:+ b.
Proof.
  destruct (trimStart_split s) as [a [Ha Hs]].
  destruct (trimEnd_split (trimStart s)) as [b [Hb Ht]].
  exists a, b. repeat split; try assumption.
  unfold trim. rewrite <- Ht. exact Hs.
Qed.

Lemma trim_trim (s : string) : trim (trim s) = trim s.
Proof.
  destruct (trim_split s) as [a [b [Ha [Hb Hs]]]].
  rewrite Hs at 2. symmetry. apply trim_core; assumption.
Qed.

(** The comparison of the handlers decides [agree]. *)
Lemma compare_agree (s t : string) :
  strictEq (toLowerCase (trim s)) (toLowerCase (trim t)) = true <-> agree s t.
Proof.
  unfold strictEq. rewrite String.eqb_eq. split.
  - intros H.
    destruct (trim_split s) as [a1 [a2 [Ha1 [Ha2 Hs]]]].
    destruct (trim_split t) as [b1 [b2 [Hb1 [Hb2 Ht]]]].
    exists a1, (trim s), a2, b1, (trim t), b2. repeat split; assumption.
  - intros (a1 & s' & a2 & b1 & t' & b2 & -> & -> & Ha1 & Ha2 & Hb1 & Hb2 & H).
    rewrite !trim_core by assumption.
    rewrite <- !trim_toLowerCase. rewrite H. reflexivity.
Qed.

Lemma compare_agree_false (s t : string) :
  strictEq (toLowerCase (trim s)) (toLowerCase (trim t)) = false <-> ~ agree s t.
Proof.
  rewrite <- compare_agree. destruct (strictEq _ _); split; congruence.
Qed.

(** ** Identifier validation *)

Lemma digitValue_decimal (c : ascii) :
  isDecimalDigit c = true -> digitValue 10 c = Some (Z.of_N (code c) - 48).
Proof.
  destruct c as [[] [] [] [] [] [] [] []]; intros H;
    first [discriminate H | reflexivity].
Qed.

Lemma isWhiteSpace_decimal (c : ascii) :
  isDecimalDigit c = true -> isWhiteSpace c = false.
Proof.
  destruct c as [[] [] [] [] [] [] [] []]; intros H;
    first [discriminate H | reflexivity].
Qed.

Lemma parseDigits_decimal (ds rest : string) (acc : Z) :
  allDigits ds = true -> startsWithDigit 10 rest = false ->
  parseDigits 10 (ds +:+ rest) acc = decimalValue ds acc.
Proof.
  intros Hds Hrest. revert acc.
  induction ds as [|c ds IH]; intros acc.
  - change (EmptyString +:+ rest) with rest.
    destruct rest as [|c r]; simpl in *; [reflexivity|].
    destruct (digitValue 10 c); [discriminate | reflexivity].
  - simpl in Hds. apply andb_true_iff in Hds as [Hc Hds].
    change (String c ds +:+ rest) with (String c (ds +:+ rest)).
    cbn [parseDigits decimalValue]. rewrite (digitValue_decimal c Hc).
    apply IH, Hds.
Qed.

Lemma decimalValue_bounds (ds : string) (acc : Z) :
  allDigits ds = true -> 0 <= acc -> 0 <= decimalValue ds acc.
Proof.
  revert acc. induction ds as [|c ds IH]; intros acc Hds Hacc; simpl; [lia|].
  simpl in Hds. apply andb_true_iff in Hds as [Hc Hds].
  apply IH; [exact Hds|].
  unfold isDecimalDigit in Hc. apply andb_true_iff in Hc as [Hc _].
  apply N.leb_le in Hc. lia.
Qed.

Lemma toNumber_exact (negative : bool) (m : Z) :
  m < 2 ^ 53 -> toNumber negative m = Num (if negative then - m else m).
Proof.
  intros H. unfold toNumber, roundToDouble.
  apply Z.ltb_lt in H. rewrite H. reflexivity.
Qed.

Lemma stripPrefix_other (d : ascii) (t : string) :
  d <> "0"%char -> stripPrefix (String d t) = (10, String d t).
Proof.
  destruct d as [[] [] [] [] [] [] [] []]; intros H;
    first [reflexivity | exfalso; apply H; reflexivity].
Qed.

Lemma stripPrefix_zero (t : string) :
  noHexMark t = true -> stripPrefix (String "0" t) = (10, String "0" t).
Proof.
  destruct t as [|c r]; [reflexivity|].
  destruct c as [[] [] [] [] [] [] [] []]; intros H;
    first [discriminate H | reflexivity].
Qed.

(** [parseInt] on a decimal numeral with white space before it and
    anything but a digit after it. *)
Lemma parseInt_decimal (ws sign ds rest : string) :
  allWhiteSpace ws = true ->
  sign = "" \/ sign = "+" \/ sign = "-" ->
  ds <> "" -> allDigits ds = true ->
  startsWithDigit 10 rest = false ->
  ds <> "0" \/ noHexMark rest = true ->
  parseInt (ws +:+ sign +:+ ds +:+ rest)
  = toNumber (strictEq sign "-") (decimalValue ds 0).
Proof.
  intros Hws Hsign Hne Hds Hrest Hhex.
  destruct ds as [|d ds]; [congruence|]. clear Hne.
  pose proof Hds as Hds'. simpl in Hds'.
  apply andb_true_iff in Hds' as [Hd Hds'].
  assert (Hpre : stripPrefix (String d ds +:+ rest) = (10, String d ds +:+ rest)).
  { change (String d ds +:+ rest) with (String d (ds +:+ rest)).
    destruct (ascii_dec d "0") as [-> | Hd0]; [|apply stripPrefix_other, Hd0].
    destruct ds as [|d' ds].
    - change (EmptyString +:+ rest) with rest.
      destruct Hhex as [Hhex | Hhex]; [congruence|].
      apply stripPrefix_zero. destruct rest as [|c r]; [reflexivity | exact Hhex].
    - change (String d' ds +:+ rest) with (String d' (ds +:+ rest)).
      simpl in Hds'. apply andb_true_iff in Hds' as [Hd' _].
      apply stripPrefix_zero.
      destruct d' as [[] [] [] [] [] [] [] []];
        first [discriminate Hd' | reflexivity]. }
  assert (Hstart : startsWithDigit 10 (String d ds +:+ rest) = true).
  { change (String d ds +:+ rest) with (String d (ds +:+ rest)).
    simpl. rewrite (digitValue_decimal d Hd). reflexivity. }
  assert (Hbody : forall negative,
             (let (radix, s2) := stripPrefix (String d ds +:+ rest) in
              if startsWithDigit radix s2
              then toNumber negative (parseDigits radix s2 0) else NaN)
             = toNumber negative (decimalValue (String d ds) 0)).
  { intros negative. rewrite Hpre, Hstart.
    rewrite (parseDigits_decimal _ _ 0 Hds Hrest). reflexivity. }
  unfold parseInt. rewrite trimStart_app_white by exact Hws.
  destruct Hsign as [-> | [-> | ->]].
  - change (EmptyString +:+ String d ds +:+ rest) with (String d (ds +:+ rest)).
    cbn [trimStart]. rewrite (isWhiteSpace_decimal d Hd).
    replace (stripSign (String d (ds +:+ rest)))
      with (false, String d ds +:+ rest).
    + apply Hbody.
    + change (String d ds +:+ rest) with (String d (ds +:+ rest)).
      destruct d as [[] [] [] [] [] [] [] []];
        first [discriminate Hd | reflexivity].
  - change (trimStart ("+" +:+ String d ds +:+ rest))
      with ("+" +:+ String d ds +:+ rest).
    change (stripSign ("+" +:+ String d ds +:+ rest))
      with (false, String d ds +:+ rest).
    apply Hbody.
  - change (trimStart ("-" +:+ String d ds +:+ rest))
      with ("-" +:+ String d ds +:+ rest).
    change (stripSign ("-" +:+ String d ds +:+ rest))
      with (true, String d ds +:+ rest).
    apply Hbody.
Qed.

Lemma Missing_not_Invalid : MissingParameterError <> InvalidParameterError.
Proof. discriminate. Qed.

(** C2 (as amended).  The identifier validation, for every raw argument:
    the argument [undefined] fails with MissingParameterError; a present
    argument, the empty string included, in which [parseInt] finds no
    leading integer fails with InvalidParameterError; any other argument
    succeeds with the integer [parseInt] finds.  That integer is the
    value of the leading decimal numeral, whatever follows it: white
    space and a sign may come before the digits, and the value is exact
    below 2^53. *)
Theorem validateId_outcome (w : World) :
  validateId None w = (Rejected MissingParameterError, w)
  /\ (forall s, parseInt s = NaN ->
        validateId (Some s) w = (Rejected InvalidParameterError, w))
  /\ (forall s, parseInt s <> NaN ->
        validateId (Some s) w = (Resolved (parseInt s), w))
  /\ (forall ws sign ds rest,
        allWhiteSpace ws = true ->
        sign = "" \/ sign = "+" \/ sign = "-" ->
        ds <> "" -> allDigits ds = true ->
        startsWithDigit 10 rest = false ->
        ds <> "0" \/ noHexMark rest = true ->
        decimalValue ds 0 < 2 ^ 53 ->
        validateId (Some (ws +:+ sign +:+ ds +:+ rest)) w
        = (Resolved (Num (if strictEq sign "-" then - decimalValue ds 0
                          else decimalValue ds 0)), w))
  /\ MissingParameterError <> InvalidParameterError.
Proof.
  split; [reflexivity|]. split; [|split; [|split]].
  - intros s H. unfold validateId. rewrite H. reflexivity.
  - intros s H. unfold validateId.
    destruct (parseInt s); [congruence | reflexivity..].
  - intros ws sign ds rest Hws Hsign Hne Hds Hrest Hhex Hval.
    unfold validateId.
    rewrite (parseInt_decimal ws sign ds rest Hws Hsign Hne Hds Hrest Hhex).
    rewrite (toNumber_exact _ _ Hval). reflexivity.
  - exact Missing_not_Invalid.
Qed.

(** ** Promise chains *)

Lemma then_resolved {A B} (p : Promise A) (f : A -> Promise B) w a w' :
  p w = (Resolved a, w') -> then_ p f w = f a w'.
Proof. unfold then_. intros ->. reflexivity. Qed.

Lemma then_rejected {A B} (p : Promise A) (f : A -> Promise B) w e w' :
  p w = (Rejected e, w') -> then_ p f w = (Rejected e, w').
Proof. unfold then_. intros ->. reflexivity. Qed.

Lemma then_pending {A B} (p : Promise A) (f : A -> Promise B) w w' :
  p w = (Pending, w') -> then_ p f w = (Pending, w').
Proof. unfold then_. intros ->. reflexivity. Qed.

Lemma catch_resolved {A} (p : Promise A) h w a w' :
  p w = (Resolved a, w') -> catch p h w = (Resolved a, w').
Proof. unfold catch. intros ->. reflexivity. Qed.

Lemma catch_rejected {A} (p : Promise A) h w e w' :
  p w = (Rejected e, w') -> catch p h w = h e w'.
Proof. unfold catch. intros ->. reflexivity. Qed.

Lemma catch_pending {A} (p : Promise A) h w w' :
  p w = (Pending, w') -> catch p h w = (Pending, w').
Proof. unfold catch. intros ->. reflexivity. Qed.

(** Unfolds the operations of the terminal. *)
Ltac terminal :=
  unfold rl_prompt, errorlog, log, biglog, console_log, emit, resolve, reject;
  simpl.

Lemma world_eq (a b : World) :
  rows a = rows b -> nextId a = nextId b -> faults a = faults b ->
  input a = input b -> random a = random b -> draws a = draws b ->
  isTTY a = isTTY b -> timers a = timers b -> trace a = trace b ->
  a = b.
Proof. destruct a, b; simpl; intros; subst; reflexivity. Qed.

(** Closes an equation between two traces that differ in the bracketing
    of their events only. *)
Ltac traces :=
  unfold emitted, addQuestions, notFoundReported, saying, heard, prompted,
    answered, drawn, afterStorageCall, runTimers;
  simpl; rewrite <- ?app_assoc; simpl; reflexivity.

(** Closes an equation between two outcomes whose worlds differ in the
    bracketing of their traces only. *)
Ltac worlds :=
  unfold then_, rl_prompt, errorlog, log, biglog, console_log, emit, resolve;
  cbn beta iota;
  first [ reflexivity
        | apply pair_equal_spec; split; [reflexivity|];
          apply world_eq; first [reflexivity | traces] ].

(** What [reportAndPrompt] does with each way its promise settles. *)
Lemma reportAndPrompt_resolved (p : Promise unit) w w' :
  p w = (Resolved tt, w') ->
  reportAndPrompt p w = (Resolved tt, with_trace w' (trace w' ++ [RlPrompt])).
Proof.
  intros H. unfold reportAndPrompt, catchIf, then_, catch. rewrite H.
  reflexivity.
Qed.

Lemma reportAndPrompt_error (p : Promise unit) w w' name msg :
  p w = (Rejected (Error name msg), w') ->
  reportAndPrompt p w
  = (Resolved tt, with_trace w' (trace w' ++ [ErrorLog msg; RlPrompt])).
Proof.
  intros H. unfold reportAndPrompt, catchIf, then_, catch. rewrite H.
  terminal. rewrite <- app_assoc. reflexivity.
Qed.

Lemma forEach_errorlog (l : list string) w :
  forEach l errorlog w
  = (Resolved tt, with_trace w (trace w ++ map ErrorLog l)).
Proof.
  revert w. induction l as [|m l IH]; intros w.
  - simpl. unfold resolve. rewrite app_nil_r. destruct w; reflexivity.
  - simpl. unfold then_ at 1. terminal. rewrite IH. simpl.
    rewrite <- app_assoc. reflexivity.
Qed.

Lemma reportAndPrompt_validation (p : Promise unit) w w' msg l :
  p w = (Rejected (ValidationError msg l), w') ->
  reportAndPrompt p w
  = (Resolved tt,
     with_trace w'
       (trace w' ++ ErrorLog "El quiz es erroneo:" :: map ErrorLog l
        ++ [RlPrompt])).
Proof.
  intros H. unfold reportAndPrompt, catchIf, then_, catch. rewrite H.
  terminal. rewrite forEach_errorlog. simpl.
  rewrite <- !app_assoc. reflexivity.
Qed.

Lemma reportAndPrompt_pending (p : Promise unit) w w' :
  p w = (Pending, w') -> reportAndPrompt p w = (Pending, w').
Proof.
  intros H. unfold reportAndPrompt, catchIf, then_, catch. rewrite H.
  reflexivity.
Qed.

(** ** The storage *)

Lemma storageCall_ok w :
  nextFault w = None -> storageCall w = (Resolved tt, afterStorageCall w).
Proof.
  unfold nextFault, storageCall, afterStorageCall. simpl.
  destruct w as [r n f i rnd d tty tm tr]; simpl.
  destruct f as [|[e|] f]; intros H; first [discriminate H | reflexivity].
Qed.

Lemma storageCall_fault w e :
  nextFault w = Some e -> storageCall w = (Rejected e, afterStorageCall w).
Proof.
  unfold nextFault, storageCall, afterStorageCall. simpl.
  destruct w as [r n f i rnd d tty tm tr]; simpl.
  destruct f as [|[e'|] f]; intros H; inversion H; subst; reflexivity.
Qed.

Lemma find_noRecord (z : Z) (w : World) :
  noRecord (Num z) w -> recordOf z w = None.
Proof.
  unfold noRecord, recordOf. induction (rows w) as [|r l IH]; intros H.
  - reflexivity.
  - simpl. destruct (quiz_id r =? z) eqn:E.
    + apply Z.eqb_eq in E. exfalso. apply (H r); [left; reflexivity|].
      congruence.
    + apply IH. intros r' Hr'. apply H. right. exact Hr'.
Qed.

Lemma filter_noRecord (z : Z) (w : World) :
  noRecord (Num z) w ->
  List.filter (fun r => negb (quiz_id r =? z)) (rows w) = rows w.
Proof.
  unfold noRecord. induction (rows w) as [|r l IH]; intros H.
  - reflexivity.
  - simpl. destruct (quiz_id r =? z) eqn:E.
    + apply Z.eqb_eq in E. exfalso. apply (H r); [left; reflexivity|].
      congruence.
    + simpl. f_equal. apply IH. intros r' Hr'. apply H. right. exact Hr'.
Qed.

Lemma findById_absent (n : number) (w : World) :
  nextFault w = None -> noRecord n w ->
  findById n w = (Resolved None, afterStorageCall w).
Proof.
  intros Hf Hn. unfold findById.
  rewrite (then_resolved _ _ _ _ _ (storageCall_ok w Hf)).
  destruct n as [|z| |]; try reflexivity.
  change (rows (afterStorageCall w)) with (rows w).
  change (List.find _ (rows w)) with (recordOf z w).
  rewrite (find_noRecord z w Hn). reflexivity.
Qed.

Lemma findById_present (z : Z) (q : quiz) (w : World) :
  nextFault w = None -> recordOf z w = Some q ->
  findById (Num z) w = (Resolved (Some q), afterStorageCall w).
Proof.
  intros Hf Hq. unfold findById.
  rewrite (then_resolved _ _ _ _ _ (storageCall_ok w Hf)).
  change (rows (afterStorageCall w)) with (rows w).
  change (List.find _ (rows w)) with (recordOf z w).
  rewrite Hq. reflexivity.
Qed.

Lemma validateId_world (id : option string) (n : number) (w w' : World) :
  validateId id w = (Resolved n, w') ->
  forall v, validateId id v = (Resolved n, v).
Proof.
  unfold validateId. destruct id as [s|]; [|discriminate].
  destruct (isNaN (parseInt s)); [discriminate|].
  unfold resolve. intros H v. congruence.
Qed.

(** The chains of the commands that first fetch the quiz, when there is
    none. *)
Lemma fetch_absent (id : option string) (n : number) (w : World) :
  validateId id w = (Resolved n, w) -> noRecord n w -> nextFault w = None ->
  (let* id' := validateId id in findById id') w
  = (Resolved None, afterStorageCall w).
Proof.
  intros Hv Hn Hf. rewrite (then_resolved _ _ _ _ _ Hv).
  apply findById_absent; assumption.
Qed.

Lemma deleteChain_absent (id : option string) (n : number) (w : World) :
  validateId id w = (Resolved n, w) -> noRecord n w -> nextFault w = None ->
  deleteChain id w = (Resolved 0%nat, afterStorageCall w).
Proof.
  intros Hv Hn Hf. unfold deleteChain. rewrite (then_resolved _ _ _ _ _ Hv).
  unfold destroy. rewrite (then_resolved _ _ _ _ _ (storageCall_ok w Hf)).
  destruct n as [|z| |].
  - simpl. rewrite Nat.sub_diag. reflexivity.
  - change (rows (afterStorageCall w)) with (rows w).
    rewrite (filter_noRecord z w Hn). rewrite Nat.sub_diag. reflexivity.
  - simpl. rewrite Nat.sub_diag. reflexivity.
  - simpl. rewrite Nat.sub_diag. reflexivity.
Qed.

(** ** Commands on an id with no record *)

Lemma showChain_absent (id : option string) (n : number) (w : World) :
  validateId id w = (Resolved n, w) -> noRecord n w -> nextFault w = None ->
  showChain id w = (Rejected (NotFoundError id), afterStorageCall w).
Proof.
  intros Hv Hn Hf. unfold showChain.
  rewrite (then_resolved _ _ _ _ _ (fetch_absent id n w Hv Hn Hf)).
  reflexivity.
Qed.

Lemma testChain_absent (id : option string) (n : number) (w : World) :
  validateId id w = (Resolved n, w) -> noRecord n w -> nextFault w = None ->
  testChain id w = (Rejected (NotFoundError id), afterStorageCall w).
Proof.
  intros Hv Hn Hf. unfold testChain.
  rewrite (then_resolved _ _ _ _ _ (fetch_absent id n w Hv Hn Hf)).
  reflexivity.
Qed.

Lemma editChain_absent (id : option string) (n : number) (w : World) :
  validateId id w = (Resolved n, w) -> noRecord n w -> nextFault w = None ->
  editChain id w = (Rejected (NotFoundError id), afterStorageCall w).
Proof.
  intros Hv Hn Hf. unfold editChain.
  apply then_rejected, then_rejected.
  rewrite (then_resolved _ _ _ _ _ (fetch_absent id n w Hv Hn Hf)).
  reflexivity.
Qed.

(** C3 (as amended).  For every id that validates but matches no stored
    record, on a storage that answers the read: show, test and edit fail
    with NotFoundError, which they report through the error logger before
    the one re-prompt; delete does not fail, its destroy affects zero
    rows; and none of the four changes the stored records. *)
Theorem absent_id_commands (id : option string) (n : number) (w : World) :
  validateId id w = (Resolved n, w) -> noRecord n w -> nextFault w = None ->
  (showChain id w = (Rejected (NotFoundError id), afterStorageCall w)
   /\ showCmd id w = (Resolved tt, notFoundReported id w))
  /\ (testChain id w = (Rejected (NotFoundError id), afterStorageCall w)
      /\ testCmd id w = (Resolved tt, notFoundReported id w))
  /\ (editChain id w = (Rejected (NotFoundError id), afterStorageCall w)
      /\ editCmd id w = (Resolved tt, notFoundReported id w))
  /\ deleteChain id w = (Resolved 0%nat, afterStorageCall w)
  /\ rows (notFoundReported id w) = rows w
  /\ nextId (notFoundReported id w) = nextId w
  /\ rows (afterStorageCall w) = rows w
  /\ nextId (afterStorageCall w) = nextId w.
Proof.
  intros Hv Hn Hf.
  pose proof (showChain_absent id n w Hv Hn Hf) as Hs.
  pose proof (testChain_absent id n w Hv Hn Hf) as Ht.
  pose proof (editChain_absent id n w Hv Hn Hf) as He.
  repeat split; try assumption; try reflexivity.
  - unfold showCmd.
    rewrite (then_resolved _ _ _ tt
               (with_trace (afterStorageCall w)
                  (trace (afterStorageCall w)
                   ++ [ErrorLog (message (NotFoundError id))]))).
    + terminal. worlds.
    + rewrite (catch_rejected _ _ _ _ _ Hs). reflexivity.
  - unfold testCmd. rewrite (reportAndPrompt_error _ _ _ _ _ Ht). reflexivity.
  - unfold editCmd. rewrite (reportAndPrompt_error _ _ _ _ _ He). reflexivity.
  - apply (deleteChain_absent id n w Hv Hn Hf).
Qed.

(** C4.  For every valid id with no matching stored record, on a storage
    that answers: the destroy resolves with zero rows affected, no error
    is raised or logged, the records are unchanged, and the command
    issues exactly one re-prompt, as its last action. *)
Theorem delete_absent_id (id : option string) (n : number) (w : World) :
  validateId id w = (Resolved n, w) -> noRecord n w -> nextFault w = None ->
  deleteChain id w = (Resolved 0%nat, afterStorageCall w)
  /\ exists w',
       deleteCmd id w = (Resolved tt, w')
       /\ emitted w w' (map RlWrite (timers w) ++ [RlPrompt])
       /\ prompts (map RlWrite (timers w) ++ [RlPrompt]) = 1%nat
       /\ rows w' = rows w /\ nextId w' = nextId w.
Proof.
  intros Hv Hn Hf.
  pose proof (deleteChain_absent id n w Hv Hn Hf) as Hd.
  split; [exact Hd|].
  exists (with_trace (afterStorageCall w)
            (trace (afterStorageCall w) ++ [RlPrompt])).
  repeat split.
  - unfold deleteCmd.
    rewrite (then_resolved _ _ _ tt (afterStorageCall w)); [reflexivity|].
    apply catch_resolved.
    rewrite (then_resolved _ _ _ _ _ Hd). reflexivity.
  - unfold emitted. simpl. rewrite <- app_assoc. reflexivity.
  - unfold prompts. rewrite List.filter_app. simpl.
    induction (timers w) as [|t l IH]; [reflexivity | exact IH].
Qed.

(** ** The play session: loading the quizzes *)

(** C8.  When the storage read that loads the quizzes of a play session
    fails, the handler catches the error (its promise is fulfilled), logs
    it with [console.log] and not with the error logger, and issues no
    re-prompt: the one event it adds is that line. *)
Theorem play_load_failure (w : World) (e : jserror) :
  nextFault w = Some e ->
  exists w',
    playCmd w = (Resolved tt, w')
    /\ emitted w w' (map RlWrite (timers w)
                     ++ [ConsoleLog ("Error: " +:+ toString e)])
    /\ prompts (map RlWrite (timers w)
                ++ [ConsoleLog ("Error: " +:+ toString e)]) = 0%nat
    /\ rows w' = rows w /\ input w' = input w.
Proof.
  intros Hf.
  exists (with_trace (afterStorageCall w)
            (trace (afterStorageCall w)
             ++ [ConsoleLog ("Error: " +:+ toString e)])).
  repeat split.
  - unfold playCmd.
    rewrite (catch_rejected _ _ _ e (afterStorageCall w)); [reflexivity|].
    apply then_rejected. unfold findAll.
    apply then_rejected, storageCall_fault, Hf.
  - unfold emitted. simpl. rewrite <- app_assoc. reflexivity.
  - unfold prompts. rewrite List.filter_app. simpl.
    induction (timers w) as [|t l IH]; [reflexivity | exact IH].
Qed.

Lemma findAll_ok (w : World) :
  nextFault w = None -> findAll w = (Resolved (rows w), afterStorageCall w).
Proof.
  intros Hf. unfold findAll.
  rewrite (then_resolved _ _ _ _ _ (storageCall_ok w Hf)). reflexivity.
Qed.

(** C9.  A play session started with no stored quiz, on a storage that
    answers the read, ends at once: it prints the nothing-left message,
    the final score 0 and its banner, asks no question (no line of the
    user is read), and re-prompts once. *)
Theorem play_no_quizzes (w : World) :
  rows w = [] -> nextFault w = None ->
  exists w',
    playCmd w = (Resolved tt, w')
    /\ emitted w w' (map RlWrite (timers w) ++ nothingLeft :: gameOver 0)
    /\ prompts (map RlWrite (timers w) ++ nothingLeft :: gameOver 0) = 1%nat
    /\ input w' = input w /\ rows w' = rows w.
Proof.
  intros Hr Hf.
  exists (with_trace (afterStorageCall w)
            (trace (afterStorageCall w) ++ nothingLeft :: gameOver 0)).
  repeat split.
  - unfold playCmd. apply catch_resolved.
    rewrite (then_resolved _ _ _ _ _ (findAll_ok w Hf)). rewrite Hr.
    simpl. rewrite <- !app_assoc. reflexivity.
  - unfold emitted. simpl. rewrite <- !app_assoc. reflexivity.
  - unfold prompts. rewrite List.filter_app. simpl.
    induction (timers w) as [|t l IH]; [reflexivity | exact IH].
Qed.

(** ** Questions *)

Lemma makeQuestion_line (text : string) (w : World) line rest :
  input w = line :: rest ->
  makeQuestion text w = (Resolved (trim line), answered text w).
Proof.
  intros H. unfold makeQuestion, then_, rl_question, answered. simpl.
  rewrite H. reflexivity.
Qed.

Lemma makeQuestion_silent (text : string) (w : World) :
  input w = [] ->
  makeQuestion text w
  = (Pending,
     runTimers (with_trace w (trace w ++ [RlQuestion (colorize text "red")]))).
Proof.
  intros H. unfold makeQuestion, then_, rl_question. simpl.
  rewrite H. reflexivity.
Qed.

Lemma setTimeout_write_scheduled (text : string) (w : World) :
  setTimeout_write text w = (Resolved tt, scheduled text w).
Proof. unfold setTimeout_write, scheduled. destruct (isTTY w); reflexivity. Qed.

(** What asking and scheduling leave alone. *)
Lemma input_scheduled text w : input (scheduled text w) = input w.
Proof. unfold scheduled. destruct (isTTY w); reflexivity. Qed.

Lemma rows_scheduled text w : rows (scheduled text w) = rows w.
Proof. unfold scheduled. destruct (isTTY w); reflexivity. Qed.

Lemma nextId_scheduled text w : nextId (scheduled text w) = nextId w.
Proof. unfold scheduled. destruct (isTTY w); reflexivity. Qed.

Lemma faults_scheduled text w : faults (scheduled text w) = faults w.
Proof. unfold scheduled. destruct (isTTY w); reflexivity. Qed.

Lemma input_answered text w : input (answered text w) = tail (input w).
Proof. reflexivity. Qed.

Lemma rows_answered text w : rows (answered text w) = rows w.
Proof. reflexivity. Qed.

Lemma nextId_answered text w : nextId (answered text w) = nextId w.
Proof. reflexivity. Qed.

Lemma faults_answered text w : faults (answered text w) = faults w.
Proof. reflexivity. Qed.

Lemma input_afterStorageCall w : input (afterStorageCall w) = input w.
Proof. reflexivity. Qed.

Lemma rows_afterStorageCall w : rows (afterStorageCall w) = rows w.
Proof. reflexivity. Qed.

Lemma nextId_afterStorageCall w : nextId (afterStorageCall w) = nextId w.
Proof. reflexivity. Qed.

Lemma faults_afterStorageCall w :
  faults (afterStorageCall w) = tail (faults w).
Proof. reflexivity. Qed.

Create Rewrite HintDb world.

Hint Rewrite input_scheduled rows_scheduled nextId_scheduled faults_scheduled
  input_answered rows_answered nextId_answered faults_answered
  input_afterStorageCall rows_afterStorageCall nextId_afterStorageCall
  faults_afterStorageCall : world.

Lemma validate_nil (q a : string) :
  validate q a = [] <-> q <> "" /\ a <> "".
Proof.
  unfold validate, strictEq.
  destruct (String.eqb_spec q ""), (String.eqb_spec a ""); simpl;
    split; try discriminate; try tauto; intros [? ?]; congruence.
Qed.

(** ** Edit *)

Lemma recordOf_id (z : Z) (w : World) (q : quiz) :
  recordOf z w = Some q -> quiz_id q = z.
Proof.
  unfold recordOf. intros H. apply List.find_some in H as [_ H].
  apply Z.eqb_eq in H. exact H.
Qed.

Lemma find_replaced (q : quiz) (l : list quiz) (q0 : quiz) :
  List.find (fun r => quiz_id r =? quiz_id q) l = Some q0 ->
  List.find (fun r => quiz_id r =? quiz_id q) (replaced q l) = Some q.
Proof.
  induction l as [|r l IH]; simpl; [discriminate|].
  destruct (quiz_id r =? quiz_id q) eqn:E.
  - intros _. simpl. rewrite Z.eqb_refl. reflexivity.
  - intros H. simpl. rewrite E. apply IH, H.
Qed.

Lemma editChain_asks (s : string) (z : Z) (q0 : quiz) (w : World)
    (l1 l2 : string) (rest : list string) :
  validateId (Some s) w = (Resolved (Num z), w) ->
  recordOf z w = Some q0 -> nextFault w = None ->
  input w = l1 :: l2 :: rest ->
  editChain (Some s) w
  = (let* quiz := save (Quiz z (trim l1) (trim l1)) in
     log (" Se ha cambiado el quiz " +:+ colorize (ofZ (quiz_id quiz)) "magenta"
          +:+ " por: " +:+ question quiz +:+ " " +:+ colorize "=>" "magenta"
          +:+ " " +:+ answer quiz)) (edited q0 w).
Proof.
  intros Hv Hq Hf Hi. unfold editChain.
  unfold then_ at 1. unfold then_ at 1. unfold then_ at 1.
  unfold then_ at 1.
  rewrite Hv, (findById_present z q0 w Hf Hq).
  rewrite (then_resolved _ _ _ _ _ (setTimeout_write_scheduled _ _)).
  assert (Hi1 : input (scheduled (question q0) (afterStorageCall w))
                = l1 :: l2 :: rest).
  { autorewrite with world. exact Hi. }
  rewrite (then_resolved _ _ _ _ _ (makeQuestion_line _ _ _ _ Hi1)).
  rewrite (then_resolved _ _ _ _ _ (setTimeout_write_scheduled _ _)).
  assert (Hi2 : input (scheduled (answer q0)
                         (answered "Introduzca la pregunta: "
                            (scheduled (question q0) (afterStorageCall w))))
                = l2 :: rest).
  { autorewrite with world. rewrite Hi. reflexivity. }
  rewrite (then_resolved _ _ _ _ _ (makeQuestion_line _ _ _ _ Hi2)).
  rewrite (recordOf_id z w q0 Hq). reflexivity.
Qed.

Lemma findById_fault (n : number) (w : World) (e : jserror) :
  nextFault w = Some e -> findById n w = (Rejected e, afterStorageCall w).
Proof.
  intros Hf. unfold findById.
  apply then_rejected, storageCall_fault, Hf.
Qed.

Lemma save_outcome (q : quiz) (w : World) :
  save q w
  = match validate (question q) (answer q) with
    | [] =>
        match nextFault w with
        | None =>
            (Resolved q, with_rows (afterStorageCall w) (replaced q (rows w)))
        | Some e => (Rejected e, afterStorageCall w)
        end
    | l => (Rejected (validationError l), w)
    end.
Proof.
  unfold save. destruct (validate (question q) (answer q)); [|reflexivity].
  destruct (nextFault w) as [e|] eqn:Hf.
  - apply then_rejected, storageCall_fault, Hf.
  - rewrite (then_resolved _ _ _ _ _ (storageCall_ok w Hf)). reflexivity.
Qed.

Lemma nextFault_edited (q0 : quiz) (w : World) :
  nextFault (edited q0 w) = nextFault (afterStorageCall w).
Proof.
  unfold nextFault, edited. autorewrite with world. reflexivity.
Qed.

Lemma rows_edited (q0 : quiz) (w : World) : rows (edited q0 w) = rows w.
Proof. unfold edited. autorewrite with world. reflexivity. Qed.

(** C1 (as amended).  After a successful edit of an existing quiz in
    which the user submits the lines [l1] and [l2] as the new question
    and the new answer, the persisted quiz has its question field equal
    to [l1] without its surrounding white space, and its answer field
    equal to that same text, not to [l2]; no other record changes.  The
    edit succeeds whenever that text is not empty and the storage does
    not fail. *)
Theorem edit_persists (s : string) (z : Z) (q0 : quiz) (w : World)
    (l1 l2 : string) (rest : list string) :
  validateId (Some s) w = (Resolved (Num z), w) ->
  recordOf z w = Some q0 ->
  input w = l1 :: l2 :: rest ->
  (forall w', editChain (Some s) w = (Resolved tt, w') ->
     recordOf z w' = Some (Quiz z (trim l1) (trim l1))
     /\ rows w' = replaced (Quiz z (trim l1) (trim l1)) (rows w))
  /\ (trim l1 <> "" -> faults w = [] ->
      exists w', editChain (Some s) w = (Resolved tt, w')
                 /\ editCmd (Some s) w
                    = (Resolved tt, with_trace w' (trace w' ++ [RlPrompt]))).
Proof.
  intros Hv Hq Hi.
  assert (Hrep : recordOf z (with_rows (afterStorageCall (edited q0 w))
                     (replaced (Quiz z (trim l1) (trim l1)) (rows w)))
                 = Some (Quiz z (trim l1) (trim l1))).
  { unfold recordOf. simpl.
    apply (find_replaced (Quiz z (trim l1) (trim l1)) (rows w) q0), Hq. }
  split.
  - intros w' H. destruct (nextFault w) as [e|] eqn:Hf.
    + exfalso. unfold editChain in H.
      rewrite (then_rejected _ _ w e (afterStorageCall w)) in H;
        [discriminate H|].
      apply then_rejected, then_rejected.
      rewrite (then_resolved _ _ _ _ _ Hv). apply findById_fault, Hf.
    + rewrite (editChain_asks s z q0 w l1 l2 rest Hv Hq Hf Hi) in H.
      unfold then_ in H. rewrite save_outcome in H. cbn [question answer] in H.
      destruct (validate (trim l1) (trim l1)); [|discriminate H].
      destruct (nextFault (edited q0 w)); [discriminate H|].
      rewrite rows_edited in H. unfold log, emit in H.
      apply pair_equal_spec in H as [_ <-].
      split; [exact Hrep | reflexivity].
  - intros Hne Hfaults.
    assert (Hf : nextFault w = None) by (unfold nextFault; rewrite Hfaults; reflexivity).
    assert (Hf' : nextFault (edited q0 w) = None).
    { rewrite nextFault_edited. unfold nextFault. autorewrite with world.
      rewrite Hfaults. reflexivity. }
    assert (Hc : editChain (Some s) w
                 = (Resolved tt,
                    snd (log (" Se ha cambiado el quiz "
                              +:+ colorize (ofZ z) "magenta" +:+ " por: "
                              +:+ trim l1 +:+ " " +:+ colorize "=>" "magenta"
                              +:+ " " +:+ trim l1)
                           (with_rows (afterStorageCall (edited q0 w))
                              (replaced (Quiz z (trim l1) (trim l1))
                                 (rows (edited q0 w))))))).
    { rewrite (editChain_asks s z q0 w l1 l2 rest Hv Hq Hf Hi).
      unfold then_. rewrite save_outcome. cbn [question answer].
      rewrite (proj2 (validate_nil (trim l1) (trim l1)) (conj Hne Hne)).
      rewrite Hf'. reflexivity. }
    eexists. split; [exact Hc|].
    unfold editCmd. apply reportAndPrompt_resolved, Hc.
Qed.

(** ** Add *)

Lemma prompts_app (l1 l2 : list event) :
  prompts (l1 ++ l2) = (prompts l1 + prompts l2)%nat.
Proof. unfold prompts. rewrite List.filter_app, length_app. reflexivity. Qed.

Lemma prompts_writes (l : list string) : prompts (map RlWrite l) = 0%nat.
Proof. induction l as [|t l IH]; [reflexivity | exact IH]. Qed.

Lemma prompts_errors (l : list string) : prompts (map ErrorLog l) = 0%nat.
Proof. induction l as [|t l IH]; [reflexivity | exact IH]. Qed.

Lemma prompts_reported (e : jserror) : prompts (reported e) = 0%nat.
Proof. destruct e as [n m|m l]; [reflexivity|]. apply (prompts_errors l). Qed.

Lemma prompts_addQuestions (w : World) : prompts (addQuestions w) = 0%nat.
Proof.
  unfold addQuestions.
  change (prompts (map RlWrite (timers w) ++ [RlQuestion (colorize "Introduzca la respuesta " "red")]) = 0%nat).
  rewrite prompts_app, prompts_writes. reflexivity.
Qed.

Lemma reportAndPrompt_rejected (p : Promise unit) w w' e :
  p w = (Rejected e, w') ->
  reportAndPrompt p w
  = (Resolved tt, with_trace w' (trace w' ++ reported e ++ [RlPrompt])).
Proof.
  intros H. destruct e as [n m|m l].
  - apply (reportAndPrompt_error p w w' n m H).
  - apply (reportAndPrompt_validation p w w' m l H).
Qed.

Lemma create_outcome (q a : string) (w : World) :
  create q a w
  = match validate q a with
    | [] =>
        match nextFault w with
        | None =>
            (Resolved (Quiz (nextId w) q a),
             with_nextId
               (with_rows (afterStorageCall w)
                  (rows w ++ [Quiz (nextId w) q a]))
               (nextId w + 1))
        | Some e => (Rejected e, afterStorageCall w)
        end
    | l => (Rejected (validationError l), w)
    end.
Proof.
  unfold create. destruct (validate q a); [|reflexivity].
  destruct (nextFault w) as [e|] eqn:Hf.
  - apply then_rejected, storageCall_fault, Hf.
  - rewrite (then_resolved _ _ _ _ _ (storageCall_ok w Hf)). reflexivity.
Qed.

Lemma addChain_asks (w : World) (l1 l2 : string) (rest : list string) :
  input w = l1 :: l2 :: rest ->
  addChain w
  = (let* quiz := create (trim l1) (trim l2) in
     log (" " +:+ colorize ("Se ha a" +:+ chr 241 +:+ "adido") "magenta"
          +:+ ": " +:+ question quiz +:+ " " +:+ colorize "=>" "magenta"
          +:+ " " +:+ answer quiz)) (prompted w).
Proof.
  intros Hi. unfold addChain.
  unfold then_ at 1. unfold then_ at 1.
  rewrite (then_resolved _ _ _ _ _ (makeQuestion_line _ _ _ _ Hi)).
  assert (Hi2 : input (answered "Introduzca una pregunta: " w) = l2 :: rest).
  { autorewrite with world. rewrite Hi. reflexivity. }
  rewrite (then_resolved _ _ _ _ _ (makeQuestion_line _ _ _ _ Hi2)).
  reflexivity.
Qed.

Lemma trace_prompted (w : World) :
  trace (prompted w) = trace w ++ addQuestions w.
Proof.
  unfold prompted, answered, addQuestions. simpl.
  rewrite <- !app_assoc. reflexivity.
Qed.

Lemma nextFault_prompted (w : World) : nextFault (prompted w) = nextFault w.
Proof. reflexivity. Qed.

(** C7 (as amended).  Every invocation of add in which the user answers
    the two prompts with the lines [l1] and [l2]: if it reaches a
    successful create, it persists exactly one new record, whose question
    and answer are [l1] and [l2] without their surrounding white space,
    and changes no other record; it does reach one when both texts are
    non-empty and the storage does not fail; and whether the create
    succeeds, fails the validation or fails otherwise, the invocation
    ends with exactly one re-prompt, its last action, and without the
    create no record changes. *)
Theorem add_outcome (w : World) (l1 l2 : string) (rest : list string) :
  input w = l1 :: l2 :: rest ->
  (forall w', addChain w = (Resolved tt, w') ->
     rows w' = rows w ++ [Quiz (nextId w) (trim l1) (trim l2)])
  /\ (trim l1 <> "" -> trim l2 <> "" -> nextFault w = None ->
      exists w', addChain w = (Resolved tt, w'))
  /\ (exists w' l,
        addCmd w = (Resolved tt, w')
        /\ emitted w w' (l ++ [RlPrompt]) /\ prompts l = 0%nat
        /\ (rows w' = rows w
            \/ rows w' = rows w ++ [Quiz (nextId w) (trim l1) (trim l2)])
        /\ (forall e w1, addChain w = (Rejected e, w1) -> rows w' = rows w)).
Proof.
  intros Hi. pose proof (addChain_asks w l1 l2 rest Hi) as Hc.
  unfold then_ in Hc. rewrite create_outcome in Hc.
  rewrite nextFault_prompted in Hc.
  destruct (validate (trim l1) (trim l2)) as [|m ms] eqn:Hval.
  - destruct (nextFault w) as [e|] eqn:Hf.
    + (* the storage fails *)
      split; [intros w' H; rewrite Hc in H; discriminate H|].
      split; [intros _ _ H; discriminate H|].
      exists (with_trace (afterStorageCall (prompted w))
                (trace (afterStorageCall (prompted w)) ++ reported e
                 ++ [RlPrompt])),
             (addQuestions w ++ reported e).
      split; [apply reportAndPrompt_rejected, Hc|].
      split.
      { unfold log, emit. traces. }
      split; [rewrite prompts_app, prompts_addQuestions, prompts_reported; reflexivity|].
      split; [left; reflexivity | intros; reflexivity].
    + (* the record is created *)
      split.
      { intros w' H. rewrite Hc in H. unfold log, emit in H.
        apply pair_equal_spec in H as [_ <-]. reflexivity. }
      split; [intros; eexists; exact Hc|].
      eexists. eexists (addQuestions w ++ [_]).
      split; [apply reportAndPrompt_resolved, Hc|].
      split.
      { unfold log, emit. traces. }
      split; [rewrite prompts_app, prompts_addQuestions; reflexivity|].
      split; [right; reflexivity|].
      intros e w1 H. rewrite Hc in H. discriminate H.
  - (* the validation fails *)
    split; [intros w' H; rewrite Hc in H; discriminate H|].
    split.
    { intros H1 H2 _. exfalso.
      pose proof (proj2 (validate_nil (trim l1) (trim l2)) (conj H1 H2)).
      congruence. }
    exists (with_trace (prompted w)
              (trace (prompted w) ++ reported (validationError (m :: ms))
               ++ [RlPrompt])),
           (addQuestions w ++ reported (validationError (m :: ms))).
    split; [apply reportAndPrompt_rejected, Hc|].
    split.
    { unfold log, emit. traces. }
    split; [rewrite prompts_app, prompts_addQuestions, prompts_reported; reflexivity|].
    split; [left; reflexivity | intros; reflexivity].
Qed.

(** ** The play session: one question *)

(** The product of a value below 1 and a length, rounded to a double,
    stays below the length: the doubles next to [n * 2^53] are further
    than [n] from it only when [n] is a power of two, and then the
    product is a double itself. *)
Lemma roundToDouble_product (r n : Z) :
  0 <= r < 2 ^ 53 -> 0 < n < 2 ^ 32 ->
  exists v, JsNumber.roundToDouble (r * n) = Some v /\ 0 <= v < n * 2 ^ 53.
Proof.
  intros Hr Hn. unfold JsNumber.roundToDouble.
  set (m := r * n).
  assert (Hm : 0 <= m <= n * 2 ^ 53 - n).
  { unfold m. split; [apply Z.mul_nonneg_nonneg; lia|].
    replace (n * 2 ^ 53 - n) with ((2 ^ 53 - 1) * n) by ring.
    apply Z.mul_le_mono_nonneg_r; lia. }
  destruct (m <? 2 ^ 53) eqn:Hsmall.
  { exists m. split; [reflexivity|]. apply Z.ltb_lt in Hsmall.
    assert (1 * 2 ^ 53 <= n * 2 ^ 53) by (apply Z.mul_le_mono_nonneg_r; lia).
    lia. }
  apply Z.ltb_ge in Hsmall.
  assert (Hpos : 0 < m) by lia.
  pose proof (Z.log2_spec m Hpos) as [Hlo Hhi].
  set (L := Z.log2 m) in *.
  assert (HL53 : 53 <= L).
  { apply Z.log2_le_pow2; [exact Hpos | exact Hsmall]. }
  assert (HL85 : L < 85).
  { apply Z.log2_lt_pow2; [exact Hpos|].
    assert (n * 2 ^ 53 <= 2 ^ 32 * 2 ^ 53)
      by (apply Z.mul_le_mono_nonneg_r; lia).
    change (2 ^ 85) with (2 ^ 32 * 2 ^ 53). lia. }
  set (e := L - 52).
  assert (He : 1 <= e <= 32) by (unfold e; lia).
  rewrite Z.shiftr_div_pow2 by lia.
  rewrite !Z.shiftl_mul_pow2 by lia.
  set (P := 2 ^ e).
  set (half := 2 ^ (e - 1)).
  set (K := 2 ^ (53 - e)).
  assert (HP : P = 2 * half).
  { unfold P, half. replace e with (1 + (e - 1)) at 1 by lia.
    rewrite Z.pow_add_r by lia. reflexivity. }
  assert (Hhalf : 0 < half) by (unfold half; apply Z.pow_pos_nonneg; lia).
  assert (HK : K * P = 2 ^ 53).
  { unfold K, P. rewrite <- Z.pow_add_r by lia. f_equal. lia. }
  assert (HLP : 2 ^ L = 2 ^ 52 * P).
  { unfold P, e. rewrite <- Z.pow_add_r by lia. f_equal. lia. }
  assert (HLP' : 2 ^ Z.succ L = 2 ^ 53 * P).
  { unfold P, e. rewrite <- Z.pow_add_r by lia. f_equal. lia. }
  assert (HP32 : P <= 2 ^ 32).
  { unfold P. apply Z.pow_le_mono_r; lia. }
  pose proof (Z.div_mod m P ltac:(lia)) as Hdm.
  pose proof (Z.mod_pos_bound m P ltac:(lia)) as Hrem.
  set (q := m / P) in *.
  replace (m - q * P) with (m mod P) by lia.
  set (rem := m mod P) in *.
  assert (Hq : q < 2 ^ 53).
  { apply (Z.mul_lt_mono_pos_r P); lia. }
  assert (Hq0 : 0 <= q) by (apply Z.div_pos; lia).
  assert (HmK : m < n * K * P) by (rewrite <- Z.mul_assoc, HK; lia).
  assert (HqN : q < n * K).
  { apply (Z.mul_lt_mono_pos_r P); lia. }
  set (q' := if (half <? rem) || ((rem =? half) && Z.odd q)
             then q + 1 else q).
  assert (Hq' : (q <= q' <= q + 1) /\ (q' = q + 1 -> half <= rem)).
  { unfold q'. destruct (half <? rem) eqn:E1; simpl.
    - apply Z.ltb_lt in E1. lia.
    - destruct (rem =? half) eqn:E2; simpl.
      + apply Z.eqb_eq in E2. destruct (Z.odd q); lia.
      + lia. }
  clearbody q'.
  assert (Hv : q' * P < n * 2 ^ 53).
  { rewrite <- HK, Z.mul_assoc.
    apply Z.mul_lt_mono_pos_r; [lia|].
    destruct (Z.eq_dec q' (q + 1)) as [E|E]; [|lia].
    destruct Hq' as [_ Hh]. specialize (Hh E).
    destruct (Z.eq_dec (q + 1) (n * K)) as [E'|E']; [|lia].
    exfalso.
    assert (HqP : (q + 1) * P = n * 2 ^ 53)
      by (rewrite E', <- Z.mul_assoc, HK; reflexivity).
    lia. }
  assert (Hbig : (q' * P <? 2 ^ 1024) = true).
  { apply Z.ltb_lt.
    assert (q' * P <= 2 ^ 53 * 2 ^ 32) by (apply Z.mul_le_mono_nonneg; lia).
    assert (2 ^ 53 * 2 ^ 32 < 2 ^ 1024) by (vm_compute; reflexivity). lia. }
  rewrite Hbig. exists (q' * P). split; [reflexivity|].
  split; [apply Z.mul_nonneg_nonneg; lia | exact Hv].
Qed.

Lemma Math_floor_times_lt (r : N) (n : nat) :
  (r < 2 ^ 53)%N -> (0 < n)%nat -> isArrayLength n ->
  (Math_floor_times r n < n)%nat.
Proof.
  intros Hr Hn Hlen. unfold isArrayLength in Hlen. unfold Math_floor_times.
  destruct (roundToDouble_product (Z.of_N r) (Z.of_nat n))
    as (v & -> & Hv); [lia | lia |].
  assert (Hlt : v / 2 ^ 53 < Z.of_nat n)
    by (apply Z.div_lt_upper_bound; lia).
  assert (H0 : 0 <= v / 2 ^ 53) by (apply Z.div_pos; lia).
  lia.
Qed.

(** The floor is taken on the rounded product: for these values the
    exact product lies below the next integer and its double is that
    integer. *)
Example Math_floor_times_rounded :
  Math_floor_times 6004799503160661 3 = 2%nat
  /\ Math_floor_times 5146971002709138 7 = 4%nat
  /\ Math_floor_times 6004799503160660 3 = 1%nat.
Proof. repeat split; vm_compute; reflexivity. Qed.

Lemma isArrayLength_le (n m : nat) :
  (n <= m)%nat -> isArrayLength m -> isArrayLength n.
Proof. unfold isArrayLength. lia. Qed.

Lemma playOne_empty (fuel : nat) (s : Session) (w : World) :
  toBeResolved s = [] ->
  playOne fuel s w
  = Some (Resolved tt, s, saying w (nothingLeft :: gameOver (score s))).
Proof.
  intros H. destruct fuel; simpl; rewrite H; unfold saying; simpl;
    rewrite <- !app_assoc; reflexivity.
Qed.

Lemma playOne_out_of_range (fuel : nat) (s : Session) (w : World) :
  toBeResolved s <> [] -> toBeResolved s !! picked s w = None ->
  playOne (S fuel) s w
  = Some (Rejected (TypeError_undefined "question"), dropped s w, drawn w).
Proof.
  intros Hne H. simpl. destruct (toBeResolved s) as [|q0 l] eqn:E; [congruence|].
  unfold picked in H. rewrite E in H. cbn [Math_random fst snd].
  rewrite H. unfold dropped, picked. rewrite E. reflexivity.
Qed.

Lemma playOne_step (fuel : nat) (s : Session) (w : World) (q : quiz) :
  toBeResolved s !! picked s w = Some q ->
  playOne (S fuel) s w
  = match input w with
    | [] =>
        Some (Pending, dropped s w,
              runTimers (saying (drawn w) [asks q]))
    | line :: _ =>
        if strictEq (toLowerCase (trim (trim line)))
                    (toLowerCase (trim (answer q)))
        then playOne fuel
               (mkSession (S (score s)) (toBeResolved (dropped s w)))
               (saying (heard q w) [correctLine (S (score s))])
        else Some (Resolved tt, dropped s w,
                   saying (heard q w)
                     (Log "INCORRECTO" :: gameOver (score s)))
    end.
Proof.
  intros H. simpl. destruct (toBeResolved s) as [|q0 l] eqn:E.
  - unfold picked in H. rewrite E in H. discriminate H.
  - unfold picked in H. rewrite E in H. cbn [Math_random fst snd].
    rewrite H. destruct (input w) as [|line rest] eqn:Hi.
    + rewrite makeQuestion_silent by exact Hi.
      unfold dropped, picked. rewrite E. reflexivity.
    + rewrite (makeQuestion_line _ _ line rest) by exact Hi.
      destruct (strictEq _ _).
      * unfold dropped, picked. rewrite E. reflexivity.
      * unfold dropped, picked, saying, heard. rewrite E. simpl.
        rewrite <- !app_assoc. reflexivity.
Qed.

Lemma compare_trimmed (line stored : string) :
  strictEq (toLowerCase (trim (trim line))) (toLowerCase (trim stored))
  = strictEq (toLowerCase (trim line)) (toLowerCase (trim stored)).
Proof. rewrite trim_trim. reflexivity. Qed.

Lemma testChain_asks (s : string) (z : Z) (q : quiz) (w : World)
    (line : string) (rest : list string) :
  validateId (Some s) w = (Resolved (Num z), w) ->
  recordOf z w = Some q -> nextFault w = None ->
  input w = line :: rest ->
  testCmd (Some s) w
  = (Resolved tt,
     saying (with_input (afterStorageCall w) rest)
       (tested q (strictEq (toLowerCase (trim line))
                           (toLowerCase (trim (answer q)))))).
Proof.
  intros Hv Hq Hf Hi. unfold testCmd.
  rewrite (reportAndPrompt_resolved _ w
             (saying (with_input (afterStorageCall w) rest)
                (removelast
                   (tested q (strictEq (toLowerCase (trim line))
                                       (toLowerCase (trim (answer q)))))))).
  - unfold saying, tested. destruct (strictEq _ _); simpl;
      rewrite <- !app_assoc; reflexivity.
  - unfold testChain. unfold then_ at 1. unfold then_ at 1.
    rewrite Hv, (findById_present z q w Hf Hq).
    assert (Hi' : input (afterStorageCall w) = line :: rest) by exact Hi.
    rewrite (then_resolved _ _ _ _ _ (makeQuestion_line _ _ _ _ Hi')).
    rewrite compare_trimmed.
    destruct (strictEq _ _); unfold then_, log, biglog, emit; cbn beta iota;
      (apply pair_equal_spec; split; [reflexivity|]);
      apply world_eq; try reflexivity;
      first [simpl; rewrite Hi; reflexivity | unfold tested; traces].
Qed.

(** The comparison of the play session, by whether the line agrees with
    the stored answer. *)
Lemma playOne_compared (fuel : nat) (s : Session) (w : World) (q : quiz)
    (line : string) (rest : list string) :
  toBeResolved s !! picked s w = Some q ->
  input w = line :: rest ->
  (agree line (answer q) ->
   playOne (S fuel) s w
   = playOne fuel
       (mkSession (S (score s)) (toBeResolved (dropped s w)))
       (saying (heard q w) [correctLine (S (score s))]))
  /\ (~ agree line (answer q) ->
      playOne (S fuel) s w
      = Some (Resolved tt, dropped s w,
              saying (heard q w) (Log "INCORRECTO" :: gameOver (score s)))).
Proof.
  intros Hq Hi.
  pose proof (playOne_step fuel s w q Hq) as H.
  rewrite Hi, compare_trimmed in H.
  split; intros Ha.
  - apply compare_agree in Ha. rewrite Ha in H. exact H.
  - apply compare_agree_false in Ha. rewrite Ha in H. exact H.
Qed.

(** C6.  In the test command and in the play session alike, the line the
    user submits is compared to the stored answer after trimming and
    lower-casing both: when the two agree up to surrounding white space
    and letter case the comparison reports a match (test prints the
    correct feedback; play raises the score by one, prints the running
    score and goes on), and when they do not it reports none (test
    prints the incorrect feedback; play ends with the score it had). *)
Theorem answers_compared :
  (forall (s : string) (z : Z) (q : quiz) (w : World) (line : string)
          (rest : list string),
     validateId (Some s) w = (Resolved (Num z), w) ->
     recordOf z w = Some q -> nextFault w = None ->
     input w = line :: rest ->
     (agree line (answer q) ->
      testCmd (Some s) w
      = (Resolved tt,
         saying (with_input (afterStorageCall w) rest) (tested q true)))
     /\ (~ agree line (answer q) ->
         testCmd (Some s) w
         = (Resolved tt,
            saying (with_input (afterStorageCall w) rest) (tested q false))))
  /\ (forall (fuel : nat) (s : Session) (w : World) (q : quiz)
             (line : string) (rest : list string),
        toBeResolved s !! picked s w = Some q ->
        input w = line :: rest ->
        (agree line (answer q) ->
         playOne (S fuel) s w
         = playOne fuel
             (mkSession (S (score s)) (toBeResolved (dropped s w)))
             (saying (heard q w) [correctLine (S (score s))]))
        /\ (~ agree line (answer q) ->
            playOne (S fuel) s w
            = Some (Resolved tt, dropped s w,
                    saying (heard q w)
                      (Log "INCORRECTO" :: gameOver (score s))))).
Proof.
  split.
  - intros s z q w line rest Hv Hq Hf Hi.
    pose proof (testChain_asks s z q w line rest Hv Hq Hf Hi) as H.
    split; intros Ha.
    + apply compare_agree in Ha. rewrite Ha in H. exact H.
    + apply compare_agree_false in Ha. rewrite Ha in H. exact H.
  - intros fuel s w q line rest Hq Hi.
    apply (playOne_compared fuel s w q line rest Hq Hi).
Qed.

(** ** The play session: the whole run *)

Lemma picked_in_range (s : Session) (w : World) :
  randomBelowOne w -> isArrayLength (length (toBeResolved s)) ->
  toBeResolved s <> [] ->
  (picked s w < length (toBeResolved s))%nat.
Proof.
  intros Hr Hlen Hne. apply Math_floor_times_lt; [apply Hr | | exact Hlen].
  destruct (toBeResolved s); [congruence | simpl; lia].
Qed.

Lemma picked_some (s : Session) (w : World) :
  randomBelowOne w -> isArrayLength (length (toBeResolved s)) ->
  toBeResolved s <> [] ->
  exists q, toBeResolved s !! picked s w = Some q.
Proof.
  intros Hr Hlen Hne.
  apply lookup_lt_is_Some_2, picked_in_range; assumption.
Qed.

Lemma dropped_length (s : Session) (w : World) (q : quiz) :
  toBeResolved s !! picked s w = Some q ->
  length (toBeResolved s) = S (length (toBeResolved (dropped s w))).
Proof.
  intros Hq. cbn [dropped toBeResolved].
  pose proof (lookup_lt_Some _ _ _ Hq) as Hlt.
  rewrite length_delete by (eexists; exact Hq). lia.
Qed.

Lemma input_heard (q : quiz) (w : World) (l : list event) :
  input (saying (heard q w) l) = tail (input w).
Proof. reflexivity. Qed.


Lemma emitted_saying (w : World) (l : list event) : emitted w (saying w l) l.
Proof. reflexivity. Qed.

Lemma emitted_trans (w1 w2 w3 : World) (l1 l2 : list event) :
  emitted w1 w2 l1 -> emitted w2 w3 l2 -> emitted w1 w3 (l1 ++ l2).
Proof.
  unfold emitted. intros H1 H2. rewrite H2, H1, app_assoc. reflexivity.
Qed.

Lemma emitted_heard (q : quiz) (w : World) :
  timers w = [] -> emitted w (heard q w) [asks q].
Proof.
  intros Ht. unfold emitted, heard, answered, asks. simpl. rewrite Ht.
  simpl. rewrite app_nil_r. reflexivity.
Qed.

Lemma play_session_empty (fuel : nat) (s : Session) (w : World) :
  toBeResolved s = [] ->
  exists r s' w' right last tail lines,
    playOne fuel s w = Some (r, s', w')
    /\ ending (score s') r last (toBeResolved s') tail
    /\ emitted w w' (rounds (score s) right ++ tail)
    /\ Permutation (right ++ last ++ toBeResolved s') (toBeResolved s)
    /\ input w = lines ++ input w'
    /\ linesRead r right last lines
    /\ (r = Pending -> input w' = [])
    /\ score s' = (score s + length right)%nat
    /\ (score s' <= score s + length (toBeResolved s))%nat.
Proof.
  intros He.
  exists (Resolved tt), s, (saying w (nothingLeft :: gameOver (score s))),
         [], [], (nothingLeft :: gameOver (score s)), [].
  split; [apply playOne_empty, He|].
  split; [rewrite He; constructor|].
  split; [reflexivity|].
  split; [reflexivity|].
  split; [reflexivity|].
  split; [exists [], []; repeat split; constructor|].
  split; [discriminate|].
  split; simpl; lia.
Qed.

(** C10.  A play session, from any score and remaining set, with
    [Math.random] below 1 and the remaining set of the length of an
    array.

    One question: when the remaining set is not empty, the index
    [playOne] draws lies within it; the quiz [q] there is removed
    before its question is asked, the other quizzes staying; without a
    line the session waits for the answer; with a line that agrees with
    the answer of [q], [playOne] goes on from the score raised by one
    and the set without [q]; with a line that does not, the session
    ends with the score it had.

    The whole session (it ends, with the fuel of the size of the
    remaining set): no promise is rejected, so the remaining set is
    never indexed out of bounds; the quizzes presented ([right],
    answered correctly, then [last]) and the ones left make up the
    initial remaining set, so each was presented at most once; the
    events are the questions of these quizzes in turn, with consecutive
    running scores; a line was read for each quiz answered, each line
    for a quiz of [right] agreeing with its answer, the line for [last]
    not; the score grew by the number of the correct answers, and the
    final score is at most the initial score plus the initial number of
    quizzes. *)
Theorem play_session (fuel : nat) (s : Session) (w : World) :
  randomBelowOne w -> isArrayLength (length (toBeResolved s)) ->
  timers w = [] -> (length (toBeResolved s) <= fuel)%nat ->
  (toBeResolved s <> [] ->
   exists q,
     (picked s w < length (toBeResolved s))%nat
     /\ toBeResolved s !! picked s w = Some q
     /\ Permutation (q :: toBeResolved (dropped s w)) (toBeResolved s)
     /\ (input w = [] ->
         playOne fuel s w
         = Some (Pending, dropped s w,
                 runTimers (saying (drawn w) [asks q])))
     /\ (forall line rest,
           input w = line :: rest ->
           (agree line (answer q) ->
            playOne fuel s w
            = playOne (pred fuel)
                (mkSession (S (score s)) (toBeResolved (dropped s w)))
                (saying (heard q w) [correctLine (S (score s))]))
           /\ (~ agree line (answer q) ->
               playOne fuel s w
               = Some (Resolved tt, dropped s w,
                       saying (heard q w)
                         (Log "INCORRECTO" :: gameOver (score s))))))
  /\ exists r s' w' right last tail lines,
       playOne fuel s w = Some (r, s', w')
       /\ ending (score s') r last (toBeResolved s') tail
       /\ emitted w w' (rounds (score s) right ++ tail)
       /\ Permutation (right ++ last ++ toBeResolved s') (toBeResolved s)
       /\ input w = lines ++ input w'
       /\ linesRead r right last lines
       /\ (r = Pending -> input w' = [])
       /\ score s' = (score s + length right)%nat
       /\ (score s' <= score s + length (toBeResolved s))%nat.
Proof.
  intros Hr Hlen Ht Hfuel. split.
  - (* one question *)
    intros Hne.
    destruct (picked_some s w Hr Hlen Hne) as [q Hq]. exists q.
    split; [apply picked_in_range; assumption|].
    split; [exact Hq|].
    split; [symmetry; apply delete_Permutation, Hq|].
    destruct fuel as [|fuel].
    { destruct (toBeResolved s); [congruence | simpl in Hfuel; lia]. }
    split.
    + intros Hi. rewrite (playOne_step fuel s w q Hq), Hi. reflexivity.
    + intros line rest Hi.
      apply (playOne_compared fuel s w q line rest Hq Hi).
  - (* the whole session *)
    revert s w Hr Hlen Ht Hfuel.
    induction fuel as [|fuel IH]; intros s w Hr Hlen Ht Hfuel.
    { apply play_session_empty.
      destruct (toBeResolved s); [reflexivity | simpl in Hfuel; lia]. }
    assert (Hcase : toBeResolved s = [] \/ toBeResolved s <> []).
    { destruct (toBeResolved s); [left; reflexivity | right; discriminate]. }
    destruct Hcase as [He | Hne]; [apply play_session_empty, He|].
    destruct (picked_some s w Hr Hlen Hne) as [q Hq].
    pose proof (playOne_step fuel s w q Hq) as Hstep.
    assert (Hperm : Permutation (q :: toBeResolved (dropped s w))
                      (toBeResolved s)).
    { symmetry. apply delete_Permutation, Hq. }
    pose proof (dropped_length s w q Hq) as Hdrop.
    assert (Hfuel' : (length (toBeResolved (dropped s w)) <= fuel)%nat) by lia.
    assert (Hlen' : isArrayLength (length (toBeResolved (dropped s w)))).
    { apply (isArrayLength_le _ (length (toBeResolved s))); [lia | exact Hlen]. }
    destruct (input w) as [|line rest] eqn:Hi.
    + (* no line: the question stays unanswered *)
      exists Pending, (dropped s w),
             (runTimers (saying (drawn w) [asks q])), [], [q], [asks q], [].
      split; [exact Hstep|].
      split; [constructor|].
      split.
      { unfold emitted. simpl. rewrite Ht. simpl.
        rewrite app_nil_r. reflexivity. }
      split; [exact Hperm|].
      split; [simpl; rewrite Hi; reflexivity|].
      split; [exists [], []; repeat split; constructor|].
      split; [intros _; simpl; exact Hi|].
      split; simpl; lia.
    + rewrite compare_trimmed in Hstep.
      destruct (strictEq (toLowerCase (trim line))
                         (toLowerCase (trim (answer q)))) eqn:Hcmp.
      * (* a correct answer: the session goes on *)
        apply compare_agree in Hcmp.
        destruct (IH (mkSession (S (score s)) (toBeResolved (dropped s w)))
                     (saying (heard q w) [correctLine (S (score s))]))
          as (r & s' & w' & right & last & tail & lines
              & Hplay & Hend & Hem & Hp & Hin & Hread & Hwait & Hs & Hle).
        { exact Hr. }
        { exact Hlen'. }
        { reflexivity. }
        { exact Hfuel'. }
        cbn [score toBeResolved] in Hem, Hp, Hs, Hle.
        rewrite input_heard, Hi in Hin. simpl in Hin.
        exists r, s', w', (q :: right), last, tail, (line :: lines).
        split; [rewrite Hstep; exact Hplay|].
        split; [exact Hend|].
        split.
        { apply (emitted_trans w
                   (saying (heard q w) [correctLine (S (score s))]) w'
                   [asks q; correctLine (S (score s))]
                   (rounds (S (score s)) right ++ tail)); [|exact Hem].
          apply (emitted_trans w (heard q w) _ [asks q]
                   [correctLine (S (score s))]).
          - apply emitted_heard, Ht.
          - apply emitted_saying. }
        split.
        { simpl. rewrite <- Hperm. constructor. exact Hp. }
        split; [rewrite Hin; reflexivity|].
        split.
        { destruct Hread as (good & bad & -> & Hgood & Hbad).
          exists (line :: good), bad.
          split; [reflexivity|].
          split; [constructor; assumption | exact Hbad]. }
        split; [exact Hwait|].
        split; [simpl; lia | lia].
      * (* an incorrect answer: the session ends *)
        apply compare_agree_false in Hcmp.
        exists (Resolved tt), (dropped s w),
               (saying (heard q w) (Log "INCORRECTO" :: gameOver (score s))),
               [], [q], (asks q :: Log "INCORRECTO" :: gameOver (score s)),
               [line].
        split; [exact Hstep|].
        split; [constructor|].
        split.
        { apply (emitted_trans w (heard q w) _ [asks q]
                   (Log "INCORRECTO" :: gameOver (score s))).
          - apply emitted_heard, Ht.
          - apply emitted_saying. }
        split; [exact Hperm|].
        split; [rewrite input_heard, Hi; reflexivity|].
        split.
        { exists [], [line]. split; [reflexivity|].
          split; constructor; [exact Hcmp | constructor]. }
        split; [discriminate|].
        split; simpl; lia.
Qed.

(** [playOne] gives a result once the fuel covers the remaining set,
    whatever [Math.random] returns and whatever the user does. *)
Lemma playOne_total (fuel : nat) (s : Session) (w : World) :
  (length (toBeResolved s) <= fuel)%nat -> is_Some (playOne fuel s w).
Proof.
  revert s w. induction fuel as [|fuel IH]; intros s w Hfuel.
  - rewrite playOne_empty; [eexists; reflexivity|].
    destruct (toBeResolved s); [reflexivity | simpl in Hfuel; lia].
  - assert (Hcase : toBeResolved s = [] \/ toBeResolved s <> []).
    { destruct (toBeResolved s); [left; reflexivity | right; discriminate]. }
    destruct Hcase as [He | Hne].
    { rewrite playOne_empty by exact He. eexists; reflexivity. }
    destruct (toBeResolved s !! picked s w) as [q|] eqn:Hq.
    + rewrite (playOne_step fuel s w q Hq).
      destruct (input w); [eexists; reflexivity|].
      destruct (strictEq _ _); [|eexists; reflexivity].
      apply IH. cbn [toBeResolved dropped].
      pose proof (lookup_lt_Some _ _ _ Hq) as Hlt.
      rewrite length_delete by (eexists; exact Hq). lia.
    + rewrite playOne_out_of_range; [eexists; reflexivity | exact Hne | exact Hq].
Qed.

(** ** The play session over two quizzes *)

Lemma picked_single (s : Session) (w : World) (q : quiz) :
  randomBelowOne w -> toBeResolved s = [q] ->
  toBeResolved s !! picked s w = Some q
  /\ toBeResolved (dropped s w) = [].
Proof.
  intros Hr He.
  assert (H : (picked s w < 1)%nat).
  { pose proof (picked_in_range s w Hr) as H. rewrite He in H.
    apply H; [unfold isArrayLength; simpl; lia | discriminate]. }
  unfold dropped. cbn [toBeResolved]. rewrite He.
  destruct (picked s w) as [|n]; [split; reflexivity | lia].
Qed.

(** C5.  A play session over exactly two stored quizzes, on a storage
    that answers the read, with [first] the quiz the session presents
    first and [second] the other one.  If the user answers both
    presented questions correctly, the session ends with the final score
    2 and the nothing-left message.  If the user answers the first
    presented question incorrectly, the session ends at once with the
    final score 0 and the incorrect message; the second question is
    never presented and no further line is read. *)
Theorem play_two_quizzes (w : World) (qa qb first second : quiz) :
  rows w = [qa; qb] -> nextFault w = None -> randomBelowOne w ->
  [qa; qb] !! Math_floor_times (random w (draws w)) 2 = Some first ->
  delete (Math_floor_times (random w (draws w)) 2) [qa; qb] = [second] ->
  (forall l1 l2 rest,
     input w = l1 :: l2 :: rest ->
     agree l1 (answer first) -> agree l2 (answer second) ->
     exists w',
       playOne 2 (mkSession 0 [qa; qb]) (afterStorageCall w)
       = Some (Resolved tt, mkSession 2 [], w')
       /\ playCmd w = (Resolved tt, w')
       /\ emitted w w' (map RlWrite (timers w) ++ rounds 0 [first; second]
                        ++ nothingLeft :: gameOver 2)
       /\ input w' = rest)
  /\ (forall l1 rest,
        input w = l1 :: rest ->
        ~ agree l1 (answer first) ->
        exists w',
          playOne 2 (mkSession 0 [qa; qb]) (afterStorageCall w)
          = Some (Resolved tt, mkSession 0 [second], w')
          /\ playCmd w = (Resolved tt, w')
          /\ emitted w w' (map RlWrite (timers w)
                           ++ asks first :: Log "INCORRECTO" :: gameOver 0)
          /\ input w' = rest).
Proof.
  intros Hrows Hf Hr Hfirst Hsecond.
  set (s0 := mkSession 0 [qa; qb]).
  set (w0 := afterStorageCall w).
  assert (Hq : toBeResolved s0 !! picked s0 w0 = Some first) by exact Hfirst.
  assert (Hd : dropped s0 w0 = mkSession 0 [second]).
  { unfold dropped. f_equal. exact Hsecond. }
  assert (Hcmd : forall s' w',
             playOne 2 s0 w0 = Some (Resolved tt, s', w') ->
             playCmd w = (Resolved tt, w')).
  { intros s' w' H. unfold playCmd. apply catch_resolved.
    rewrite (then_resolved _ _ _ _ _ (findAll_ok w Hf)). rewrite Hrows.
    cbn [toBeResolved length]. fold s0 w0. rewrite H. reflexivity. }
  assert (Ht0 : emitted w w0 (map RlWrite (timers w))) by reflexivity.
  assert (Ht1 : emitted w0 (heard first w0) [asks first])
    by (apply emitted_heard; reflexivity).
  split.
  - intros l1 l2 rest Hi Ha1 Ha2.
    set (w1 := saying (heard first w0) [correctLine 1]).
    set (w2 := saying (heard second w1) [correctLine 2]).
    assert (H1 : playOne 2 s0 w0 = playOne 1 (mkSession 1 [second]) w1).
    { rewrite (proj1 (playOne_compared 1%nat s0 w0 first l1 (l2 :: rest)
                        Hq Hi) Ha1).
      rewrite Hd. reflexivity. }
    assert (Hi1 : input w1 = l2 :: rest).
    { unfold w1, saying, heard. cbn [input with_trace].
      autorewrite with world. cbn [input drawn with_draws].
      fold w0. change (input w0) with (input w). rewrite Hi. reflexivity. }
    destruct (picked_single (mkSession 1 [second]) w1 second Hr eq_refl)
      as [Hq1 Hd1].
    assert (H2 : playOne 1 (mkSession 1 [second]) w1
                 = playOne 0 (mkSession 2 []) w2).
    { rewrite (proj1 (playOne_compared 0%nat _ w1 second l2 rest
                        Hq1 Hi1) Ha2).
      rewrite Hd1. reflexivity. }
    assert (H3 : playOne 2 s0 w0
                 = Some (Resolved tt, mkSession 2 [],
                         saying w2 (nothingLeft :: gameOver 2))).
    { rewrite H1, H2. apply playOne_empty. reflexivity. }
    exists (saying w2 (nothingLeft :: gameOver 2)).
    split; [exact H3|]. split; [exact (Hcmd _ _ H3)|]. split.
    + apply (emitted_trans w w0 _ _ _ Ht0).
      change (rounds 0 [first; second] ++ nothingLeft :: gameOver 2)
        with ([asks first] ++ [correctLine 1] ++ [asks second]
              ++ [correctLine 2] ++ nothingLeft :: gameOver 2).
      apply (emitted_trans w0 (heard first w0) _ _ _ Ht1).
      apply (emitted_trans (heard first w0) w1 _ _ _ (emitted_saying _ _)).
      apply (emitted_trans w1 (heard second w1)).
      { apply emitted_heard. reflexivity. }
      apply (emitted_trans (heard second w1) w2 _ _ _ (emitted_saying _ _)).
      apply emitted_saying.
    + unfold saying, w2, saying, heard. cbn [input with_trace].
      autorewrite with world. cbn [input drawn with_draws].
      rewrite Hi1. reflexivity.
  - intros l1 rest Hi Hn.
    assert (H1 : playOne 2 s0 w0
                 = Some (Resolved tt, mkSession 0 [second],
                         saying (heard first w0)
                           (Log "INCORRECTO" :: gameOver 0))).
    { rewrite (proj2 (playOne_compared 1%nat s0 w0 first l1 rest
                        Hq Hi) Hn).
      rewrite Hd. reflexivity. }
    exists (saying (heard first w0) (Log "INCORRECTO" :: gameOver 0)).
    split; [exact H1|]. split; [exact (Hcmd _ _ H1)|]. split.
    + apply (emitted_trans w w0 _ _ _ Ht0).
      change (asks first :: Log "INCORRECTO" :: gameOver 0)
        with ([asks first] ++ Log "INCORRECTO" :: gameOver 0).
      apply (emitted_trans w0 (heard first w0) _ _ _ Ht1).
      apply emitted_saying.
    + unfold saying, heard. cbn [input with_trace].
      autorewrite with world. cbn [input drawn with_draws].
      fold w0. change (input w0) with (input w). rewrite Hi. reflexivity.
Qed.

(** ** What the promises leave alone *)

Instance sameRecords_frame : Frame sameRecords.
Proof.
  split.
  - intros w. split; reflexivity.
  - intros a b c [H1 H2] [H3 H4]. split; congruence.
Qed.

Instance sameInput_frame : Frame sameInput.
Proof.
  split.
  - intros w. reflexivity.
  - unfold sameInput. intros a b c H1 H2. congruence.
Qed.

Instance sameSchedule_frame : Frame sameSchedule.
Proof.
  split.
  - intros w. reflexivity.
  - unfold sameSchedule. intros a b c H1 H2. congruence.
Qed.

Instance noPrompt_frame : Frame noPrompt.
Proof.
  split.
  - intros w. exists []. split; [|reflexivity].
    unfold emitted. rewrite app_nil_r. reflexivity.
  - intros a b c [l1 [H1 P1]] [l2 [H2 P2]]. exists (l1 ++ l2). split.
    + apply (emitted_trans a b c l1 l2 H1 H2).
    + rewrite prompts_app, P1, P2. reflexivity.
Qed.

Section Frames.

Context (R : World -> World -> Prop) `{!Frame R}.

Lemma keeps_resolve {A} (a : A) : keeps R (resolve a).
Proof. intros w. apply frame_refl. Qed.

Lemma keeps_reject {A} (e : jserror) : keeps R (@reject A e).
Proof. intros w. apply frame_refl. Qed.

Lemma keeps_then {A B} (p : Promise A) (f : A -> Promise B) :
  keeps R p -> (forall a, keeps R (f a)) -> keeps R (then_ p f).
Proof.
  intros Hp Hf w. specialize (Hp w). unfold then_.
  destruct (p w) as [[a|e|] w1]; simpl in *; try exact Hp.
  apply (frame_trans _ _ _ Hp), Hf.
Qed.

Lemma keeps_catch {A} (p : Promise A) (h : jserror -> Promise A) :
  keeps R p -> (forall e, keeps R (h e)) -> keeps R (catch p h).
Proof.
  intros Hp Hh w. specialize (Hp w). unfold catch.
  destruct (p w) as [[a|e|] w1]; simpl in *; try exact Hp.
  apply (frame_trans _ _ _ Hp), Hh.
Qed.

Lemma keeps_catchIf {A} (p : Promise A) class (h : jserror -> Promise A) :
  keeps R p -> (forall e, keeps R (h e)) -> keeps R (catchIf p class h).
Proof.
  intros Hp Hh. apply keeps_catch; [exact Hp|].
  intros e. destruct (class e); [apply Hh | apply keeps_reject].
Qed.

Lemma keeps_forEach {A} (l : list A) (f : A -> Promise unit) :
  (forall x, keeps R (f x)) -> keeps R (forEach l f).
Proof.
  intros Hf. induction l as [|x l IH]; simpl.
  - apply keeps_resolve.
  - apply keeps_then; [apply Hf | intros _; exact IH].
Qed.

Lemma keeps_each {A} (p : Promise (list A)) (f : A -> Promise unit) :
  keeps R p -> (forall x, keeps R (f x)) -> keeps R (each p f).
Proof.
  intros Hp Hf. unfold each. apply keeps_then; [exact Hp|].
  intros l. apply keeps_then; [apply keeps_forEach, Hf|].
  intros _. apply keeps_resolve.
Qed.

Lemma keeps_validateId (id : option string) : keeps R (validateId id).
Proof.
  unfold validateId. destruct id as [s|]; [|apply keeps_reject].
  destruct (isNaN (parseInt s)); [apply keeps_reject | apply keeps_resolve].
Qed.

End Frames.

(** The terminal. *)
Lemma emit_sameRecords e : keeps sameRecords (emit e).
Proof. intros w. split; reflexivity. Qed.

Lemma emit_sameInput e : keeps sameInput (emit e).
Proof. intros w. reflexivity. Qed.

Lemma emit_sameSchedule e : keeps sameSchedule (emit e).
Proof. intros w. reflexivity. Qed.

Lemma emit_noPrompt e : e <> RlPrompt -> keeps noPrompt (emit e).
Proof.
  intros He w. exists [e]. split; [reflexivity|].
  destruct e; try reflexivity. congruence.
Qed.

Lemma setTimeout_write_keeps R `{!Frame R} text :
  (forall w t, R w (with_timers w t)) -> keeps R (setTimeout_write text).
Proof.
  intros H w. unfold setTimeout_write.
  destruct (isTTY w); simpl; [apply H | apply frame_refl].
Qed.

Lemma rl_question_sameRecords query : keeps sameRecords (rl_question query).
Proof.
  intros w. unfold rl_question. simpl.
  destruct (input w); split; reflexivity.
Qed.

Lemma rl_question_sameSchedule query : keeps sameSchedule (rl_question query).
Proof.
  intros w. unfold rl_question. simpl. destruct (input w); reflexivity.
Qed.

Lemma rl_question_noPrompt query : keeps noPrompt (rl_question query).
Proof.
  intros w. exists (RlQuestion query :: map RlWrite (timers w)). split.
  - unfold emitted, rl_question. simpl.
    destruct (input w); simpl; rewrite <- app_assoc; reflexivity.
  - apply (prompts_writes (timers w)).
Qed.

(** The storage. *)
Lemma storageCall_sameRecords : keeps sameRecords storageCall.
Proof.
  intros w. unfold storageCall. simpl.
  destruct (faults w) as [|[e|] f]; split; reflexivity.
Qed.

Lemma storageCall_sameInput : keeps sameInput storageCall.
Proof.
  intros w. unfold storageCall. simpl.
  destruct (faults w) as [|[e|] f]; reflexivity.
Qed.

Lemma storageCall_noPrompt : keeps noPrompt storageCall.
Proof.
  intros w. exists (map RlWrite (timers w)). split.
  - unfold emitted, storageCall. simpl.
    destruct (faults w) as [|[e|] f]; reflexivity.
  - apply prompts_writes.
Qed.

Lemma findAll_keeps R `{!Frame R} : keeps R storageCall -> keeps R findAll.
Proof.
  intros H. unfold findAll. apply keeps_then; [exact _ | exact H|].
  intros _ w. apply frame_refl.
Qed.

Lemma findById_keeps R `{!Frame R} id :
  keeps R storageCall -> keeps R (findById id).
Proof.
  intros H. unfold findById. apply keeps_then; [exact _ | exact H|].
  intros _ w. apply frame_refl.
Qed.

Lemma create_keeps R `{!Frame R} q a :
  keeps R storageCall ->
  (forall w r n, R w (with_nextId (with_rows w r) n)) ->
  keeps R (create q a).
Proof.
  intros H Hw. unfold create.
  destruct (validate q a); [|apply keeps_reject; exact _].
  apply keeps_then; [exact _ | exact H|].
  intros _ w. apply Hw.
Qed.

Lemma save_keeps R `{!Frame R} q :
  keeps R storageCall -> (forall w r, R w (with_rows w r)) ->
  keeps R (save q).
Proof.
  intros H Hw. unfold save.
  destruct (validate (question q) (answer q)); [|apply keeps_reject; exact _].
  apply keeps_then; [exact _ | exact H|].
  intros _ w. apply Hw.
Qed.

Lemma destroy_keeps R `{!Frame R} id :
  keeps R storageCall -> (forall w r, R w (with_rows w r)) ->
  keeps R (destroy id).
Proof.
  intros H Hw. unfold destroy.
  apply keeps_then; [exact _ | exact H|].
  intros _ w. apply Hw.
Qed.

(** ** How the promises settle *)

Lemma settles_resolve {A} (a : A) : settles (resolve a).
Proof. intros w. discriminate. Qed.

Lemma settles_reject {A} (e : jserror) : settles (@reject A e).
Proof. intros w. discriminate. Qed.

Lemma settles_emit (e : event) : settles (emit e).
Proof. intros w. discriminate. Qed.

Lemma settles_then {A B} (p : Promise A) (f : A -> Promise B) :
  settles p -> (forall a, settles (f a)) -> settles (then_ p f).
Proof.
  intros Hp Hf w. specialize (Hp w). unfold then_.
  destruct (p w) as [[a|e|] w1]; simpl in *;
    [apply Hf | discriminate | congruence].
Qed.

Lemma settles_catch {A} (p : Promise A) (h : jserror -> Promise A) :
  settles p -> (forall e, settles (h e)) -> settles (catch p h).
Proof.
  intros Hp Hh w. specialize (Hp w). unfold catch.
  destruct (p w) as [[a|e|] w1]; simpl in *;
    [discriminate | apply Hh | congruence].
Qed.

Lemma settles_forEach {A} (l : list A) (f : A -> Promise unit) :
  (forall x, settles (f x)) -> settles (forEach l f).
Proof.
  intros Hf. induction l as [|x l IH]; simpl.
  - apply settles_resolve.
  - apply settles_then; [apply Hf | intros _; exact IH].
Qed.

Lemma settles_validateId (id : option string) : settles (validateId id).
Proof.
  unfold validateId. destruct id as [s|]; [|apply settles_reject].
  destruct (isNaN (parseInt s)); [apply settles_reject | apply settles_resolve].
Qed.

Lemma settles_storageCall : settles storageCall.
Proof.
  intros w. unfold storageCall. simpl.
  destruct (faults w) as [|[e|] f]; discriminate.
Qed.

Lemma settles_findAll : settles findAll.
Proof.
  unfold findAll. apply settles_then; [apply settles_storageCall|].
  intros _ w. discriminate.
Qed.

Lemma settles_findById (id : number) : settles (findById id).
Proof.
  unfold findById. apply settles_then; [apply settles_storageCall|].
  intros _ w. discriminate.
Qed.

Lemma settles_destroy (id : number) : settles (destroy id).
Proof.
  unfold destroy. apply settles_then; [apply settles_storageCall|].
  intros _ w. discriminate.
Qed.

Lemma settles_create (q a : string) : settles (create q a).
Proof.
  unfold create. destruct (validate q a); [|apply settles_reject].
  apply settles_then; [apply settles_storageCall|].
  intros _ w. discriminate.
Qed.

Lemma settles_save (q : quiz) : settles (save q).
Proof.
  unfold save. destruct (validate _ _); [|apply settles_reject].
  apply settles_then; [apply settles_storageCall|].
  intros _ w. discriminate.
Qed.

Lemma neverRejected_emit (e : event) : neverRejected (emit e).
Proof. intros w e'. discriminate. Qed.

Lemma neverRejected_resolve {A} (a : A) : neverRejected (resolve a).
Proof. intros w e'. discriminate. Qed.

Lemma neverRejected_then {A B} (p : Promise A) (f : A -> Promise B) :
  neverRejected p -> (forall a, neverRejected (f a)) ->
  neverRejected (then_ p f).
Proof.
  intros Hp Hf w e. specialize (Hp w). unfold then_.
  destruct (p w) as [[a|e'|] w1]; simpl in *;
    [apply Hf | exfalso; apply (Hp e'); reflexivity | discriminate].
Qed.

Lemma neverRejected_catch {A} (p : Promise A) (h : jserror -> Promise A) :
  (forall e, neverRejected (h e)) -> neverRejected (catch p h).
Proof.
  intros Hh w e. unfold catch.
  destruct (p w) as [[a|e'|] w1]; simpl; [discriminate | apply Hh | discriminate].
Qed.

Lemma neverRejected_forEach {A} (l : list A) (f : A -> Promise unit) :
  (forall x, neverRejected (f x)) -> neverRejected (forEach l f).
Proof.
  intros Hf. induction l as [|x l IH]; simpl.
  - apply neverRejected_resolve.
  - apply neverRejected_then; [apply Hf | intros _; exact IH].
Qed.

(** A catch clause that settles leaves its promise pending only when
    the promise it guards is. *)
Lemma catch_pending_inv {A} (p : Promise A) (h : jserror -> Promise A) w :
  (forall e, settles (h e)) ->
  fst (catch p h w) = Pending -> fst (p w) = Pending.
Proof.
  intros Hh. unfold catch.
  destruct (p w) as [[a|e|] w1]; simpl; try discriminate; [|reflexivity].
  intros H. exfalso. apply (Hh e w1), H.
Qed.

Lemma catch_pending_fst {A} (p : Promise A) (h : jserror -> Promise A) w :
  fst (p w) = Pending -> fst (catch p h w) = Pending.
Proof.
  unfold catch. destruct (p w) as [[a|e|] w1]; simpl; try discriminate.
  reflexivity.
Qed.

(** The end of every command but play: the promise that did the work
    and handled its errors, then [rl.prompt()]. *)
Lemma then_prompt (c : Promise unit) (w : World) :
  keeps noPrompt c -> neverRejected c ->
  (fst (c w) <> Pending -> prompted_once w ((c ;; rl_prompt) w))
  /\ (fst (c w) = Pending -> waiting w ((c ;; rl_prompt) w)).
Proof.
  intros Hk Hn. specialize (Hk w). specialize (Hn w). unfold then_.
  destruct (c w) as [[[]|e|] w1]; simpl in *.
  - split; [intros _ | discriminate].
    destruct Hk as [l [Hl Pl]]. split; [reflexivity|].
    exists l. split; [|exact Pl].
    unfold emitted in *. simpl. rewrite Hl, app_assoc. reflexivity.
  - exfalso. apply (Hn e). reflexivity.
  - split; [congruence | intros _]. split; [reflexivity | exact Hk].
Qed.

Lemma reportAndPrompt_handled (p : Promise unit) :
  reportAndPrompt p = (handled p ;; rl_prompt).
Proof. reflexivity. Qed.

Lemma ErrorLog_not_prompt (m : string) : ErrorLog m <> RlPrompt.
Proof. discriminate. Qed.

Lemma Log_not_prompt (m : string) : Log m <> RlPrompt.
Proof. discriminate. Qed.

Lemma BigLog_not_prompt (m c : string) : BigLog m c <> RlPrompt.
Proof. discriminate. Qed.

Lemma handled_noPrompt (p : Promise unit) :
  keeps noPrompt p -> keeps noPrompt (handled p).
Proof.
  intros Hp. unfold handled, errorlog.
  apply keeps_catch; [exact _ | apply keeps_catchIf; [exact _ | exact Hp |]|].
  - intros e. apply keeps_then; [exact _ | apply emit_noPrompt, ErrorLog_not_prompt|].
    intros _. apply keeps_forEach; [exact _|].
    intros m. apply emit_noPrompt, ErrorLog_not_prompt.
  - intros e. apply emit_noPrompt, ErrorLog_not_prompt.
Qed.

Lemma handled_neverRejected (p : Promise unit) : neverRejected (handled p).
Proof.
  unfold handled. apply neverRejected_catch.
  intros e. apply neverRejected_emit.
Qed.

Lemma handled_pending (p : Promise unit) (w : World) :
  fst (handled p w) = Pending <-> fst (p w) = Pending.
Proof.
  unfold handled. split.
  - intros H. apply catch_pending_inv in H; [|intros e; apply settles_emit].
    unfold catchIf in H. apply catch_pending_inv in H; [exact H|].
    intros e. destruct (isValidationError e); [|apply settles_reject].
    apply settles_then; [apply settles_emit|].
    intros _. apply settles_forEach. intros m. apply settles_emit.
  - intros H. apply catch_pending_fst. unfold catchIf.
    apply catch_pending_fst. exact H.
Qed.

(** ** The commands as a whole *)

Lemma with_timers_sameRecords w t : sameRecords w (with_timers w t).
Proof. split; reflexivity. Qed.

Lemma with_timers_sameInput w t : sameInput w (with_timers w t).
Proof. reflexivity. Qed.

Lemma with_timers_sameSchedule w t : sameSchedule w (with_timers w t).
Proof. reflexivity. Qed.

Lemma with_timers_noPrompt w t : noPrompt w (with_timers w t).
Proof.
  exists []. split; [|reflexivity].
  unfold emitted. simpl. rewrite app_nil_r. reflexivity.
Qed.

Lemma with_rows_sameInput w r : sameInput w (with_rows w r).
Proof. reflexivity. Qed.

Lemma with_rows_noPrompt w r : noPrompt w (with_rows w r).
Proof.
  exists []. split; [|reflexivity].
  unfold emitted. simpl. rewrite app_nil_r. reflexivity.
Qed.

Lemma created_sameInput w r n : sameInput w (with_nextId (with_rows w r) n).
Proof. reflexivity. Qed.

Lemma created_noPrompt w r n : noPrompt w (with_nextId (with_rows w r) n).
Proof.
  exists []. split; [|reflexivity].
  unfold emitted. simpl. rewrite app_nil_r. reflexivity.
Qed.

(** Splits a goal [keeps R p] along the structure of [p]. *)
Ltac frame :=
  unfold log, biglog, errorlog, console_log, rl_prompt;
  repeat first
    [ exact _
    | apply emit_sameRecords | apply emit_sameInput | apply emit_sameSchedule
    | apply emit_noPrompt; discriminate
    | apply storageCall_sameRecords | apply storageCall_sameInput
    | apply storageCall_noPrompt
    | apply rl_question_sameRecords | apply rl_question_sameSchedule
    | apply rl_question_noPrompt
    | apply with_timers_sameRecords | apply with_timers_sameInput
    | apply with_timers_sameSchedule | apply with_timers_noPrompt
    | apply with_rows_sameInput | apply with_rows_noPrompt
    | apply created_sameInput | apply created_noPrompt
    | apply keeps_resolve | apply keeps_reject | apply keeps_validateId
    | apply findAll_keeps | apply findById_keeps | apply create_keeps
    | apply save_keeps | apply destroy_keeps | apply setTimeout_write_keeps
    | apply keeps_each | apply keeps_forEach | apply keeps_catchIf
    | apply keeps_catch | apply keeps_then
    | match goal with
      | |- keeps _ (match ?x with _ => _ end) => destruct x
      | |- keeps _ (if ?x then _ else _) => destruct x
      | |- forall _, _ => intro
      end ].

Lemma makeQuestion_sameRecords text : keeps sameRecords (makeQuestion text).
Proof. unfold makeQuestion. frame. Qed.

Lemma makeQuestion_sameSchedule text : keeps sameSchedule (makeQuestion text).
Proof. unfold makeQuestion. frame. Qed.

Lemma makeQuestion_noPrompt text : keeps noPrompt (makeQuestion text).
Proof. unfold makeQuestion. frame. Qed.

Lemma showChain_noPrompt id : keeps noPrompt (showChain id).
Proof. unfold showChain. frame. Qed.

Lemma listChain_noPrompt : keeps noPrompt listChain.
Proof. unfold listChain. frame. Qed.

Lemma deleteChain_noPrompt id : keeps noPrompt (deleteChain id).
Proof. unfold deleteChain. frame. Qed.

Lemma addChain_noPrompt : keeps noPrompt addChain.
Proof.
  unfold addChain. frame; first [apply makeQuestion_noPrompt | idtac].
  all: frame.
Qed.

Lemma testChain_noPrompt id : keeps noPrompt (testChain id).
Proof.
  unfold testChain. frame; first [apply makeQuestion_noPrompt | idtac].
  all: frame.
Qed.

Lemma editChain_noPrompt id : keeps noPrompt (editChain id).
Proof.
  unfold editChain. frame; first [apply makeQuestion_noPrompt | idtac].
  all: frame; first [apply makeQuestion_noPrompt | idtac].
  all: frame.
Qed.

(** ** The lines a promise reads *)

Lemma asksAtMost_weaken {A} (n m : nat) (p : Promise A) :
  (n <= m)%nat -> asksAtMost n p -> asksAtMost m p.
Proof.
  intros Hnm Hp w. destruct (Hp w) as [H1 H2]. split; [lia|].
  intros H. apply H2. lia.
Qed.

Lemma asksAtMost_quiet {A} (p : Promise A) :
  keeps sameInput p -> settles p -> asksAtMost 0 p.
Proof.
  intros Hk Hs w. split; [rewrite (Hk w); lia | intros _; apply Hs].
Qed.

Lemma asksAtMost_then {A B} (n m : nat) (p : Promise A) (f : A -> Promise B) :
  asksAtMost n p -> (forall a, asksAtMost m (f a)) ->
  asksAtMost (n + m) (then_ p f).
Proof.
  intros Hp Hf w. destruct (Hp w) as [H1 H2]. unfold then_.
  destruct (p w) as [[a|e|] w1] eqn:E; simpl in *.
  - destruct (Hf a w1) as [H3 H4]. split; [lia|].
    intros H. apply H4. lia.
  - split; [lia | discriminate].
  - split; [lia|]. intros H. exfalso. apply H2; [lia | reflexivity].
Qed.

Lemma asksAtMost_catch {A} (n m : nat) (p : Promise A)
    (h : jserror -> Promise A) :
  asksAtMost n p -> (forall e, asksAtMost m (h e)) ->
  asksAtMost (n + m) (catch p h).
Proof.
  intros Hp Hh w. destruct (Hp w) as [H1 H2]. unfold catch.
  destruct (p w) as [[a|e|] w1] eqn:E; simpl in *.
  - split; [lia | discriminate].
  - destruct (Hh e w1) as [H3 H4]. split; [lia|].
    intros H. apply H4. lia.
  - split; [lia|]. intros H. exfalso. apply H2; [lia | reflexivity].
Qed.

Lemma asksAtMost_rl_question (query : string) :
  asksAtMost 1 (rl_question query).
Proof.
  intros w. unfold rl_question. simpl.
  destruct (input w) as [|line rest]; simpl; split;
    first [lia | discriminate].
Qed.

Lemma asksAtMost_makeQuestion (text : string) :
  asksAtMost 1 (makeQuestion text).
Proof.
  unfold makeQuestion.
  apply (asksAtMost_then 1 0); [apply asksAtMost_rl_question|].
  intros a. apply asksAtMost_quiet; [apply keeps_resolve; exact _|].
  apply settles_resolve.
Qed.

(** Closes a goal [asksAtMost 0 p] for a promise that asks nothing. *)
Ltac silent :=
  apply asksAtMost_quiet;
  [ frame
  | unfold log, biglog, errorlog, console_log, rl_prompt;
    repeat first
      [ apply settles_resolve | apply settles_reject | apply settles_emit
      | apply settles_validateId | apply settles_findAll
      | apply settles_findById | apply settles_destroy
      | apply settles_create | apply settles_save | apply settles_forEach
      | apply settles_catch | apply settles_then
      | match goal with
        | |- settles (match ?x with _ => _ end) => destruct x
        | |- settles (if ?x then _ else _) => destruct x
        | |- settles (setTimeout_write _) =>
            let w := fresh in
            intros w; unfold setTimeout_write; destruct (isTTY w); discriminate
        | |- forall _, _ => intro
        end ] ].

Lemma asksAtMost_fetch (id : option string) :
  asksAtMost 0 (let* id' := validateId id in findById id').
Proof. silent. Qed.

Lemma asksAtMost_showChain (id : option string) : asksAtMost 0 (showChain id).
Proof. unfold showChain. silent. Qed.

Lemma asksAtMost_listChain : asksAtMost 0 listChain.
Proof. unfold listChain, each. silent. Qed.

Lemma asksAtMost_deleteChain (id : option string) :
  asksAtMost 0 (deleteChain id).
Proof. unfold deleteChain. silent. Qed.

Lemma asksAtMost_addChain : asksAtMost 2 addChain.
Proof.
  unfold addChain. apply (asksAtMost_then 2 0).
  - apply (asksAtMost_then 2 0).
    + apply (asksAtMost_then 1 1); [apply asksAtMost_makeQuestion|].
      intros q. apply (asksAtMost_then 1 0); [apply asksAtMost_makeQuestion|].
      intros a. silent.
    + intros qa. silent.
  - intros quiz. silent.
Qed.

Lemma asksAtMost_testChain (id : option string) : asksAtMost 1 (testChain id).
Proof.
  unfold testChain. apply (asksAtMost_then 0 1); [apply asksAtMost_fetch|].
  intros [quiz|]; [|apply (asksAtMost_weaken 0 1); [lia | silent]].
  apply (asksAtMost_then 1 0); [apply asksAtMost_makeQuestion|].
  intros a. silent.
Qed.

Lemma asksAtMost_editChain (id : option string) : asksAtMost 2 (editChain id).
Proof.
  unfold editChain. apply (asksAtMost_then 2 0).
  - apply (asksAtMost_then 2 0).
    + apply (asksAtMost_then 0 2); [apply asksAtMost_fetch|].
      intros [quiz|]; [|apply (asksAtMost_weaken 0 2); [lia | silent]].
      apply (asksAtMost_then 0 2); [silent|]. intros _.
      apply (asksAtMost_then 1 1); [apply asksAtMost_makeQuestion|].
      intros q. apply (asksAtMost_then 0 1); [silent|]. intros _.
      apply (asksAtMost_then 1 0); [apply asksAtMost_makeQuestion|].
      intros a. silent.
    + intros quiz. silent.
  - intros quiz. silent.
Qed.

(** ** Every command ends with one re-prompt *)

Lemma ends_with_prompt (n : nat) (c : Promise unit) (w : World) :
  keeps noPrompt c -> neverRejected c -> asksAtMost n c ->
  prompted_once w ((c ;; rl_prompt) w)
  \/ waiting w ((c ;; rl_prompt) w) /\ (length (input w) < n)%nat.
Proof.
  intros Hk Hn Ha. destruct (then_prompt c w Hk Hn) as [H1 H2].
  destruct (fst (c w)) as [a|e|] eqn:E.
  - left. apply H1. discriminate.
  - left. apply H1. discriminate.
  - right. split; [apply H2; reflexivity|].
    destruct (Ha w) as [_ H]. destruct (le_lt_dec n (length (input w))); [|lia].
    exfalso. apply H; assumption.
Qed.

Lemma asksAtMost_handled (n : nat) (p : Promise unit) :
  asksAtMost n p -> asksAtMost n (handled p).
Proof.
  intros Hp. unfold handled, catchIf.
  replace n with (n + 0 + 0)%nat by lia.
  apply asksAtMost_catch; [apply asksAtMost_catch; [exact Hp|]|].
  - intros e. silent.
  - intros e. silent.
Qed.

Lemma asksAtMost_caught (n : nat) (p : Promise unit) :
  asksAtMost n p ->
  asksAtMost n (catch p (fun error => errorlog (message error))).
Proof.
  intros Hp. replace n with (n + 0)%nat by lia.
  apply asksAtMost_catch; [exact Hp|]. intros e. silent.
Qed.

Lemma caught_noPrompt (p : Promise unit) :
  keeps noPrompt p ->
  keeps noPrompt (catch p (fun error => errorlog (message error))).
Proof. intros Hp. frame. exact Hp. Qed.

Lemma caught_neverRejected (p : Promise unit) :
  neverRejected (catch p (fun error => errorlog (message error))).
Proof. apply neverRejected_catch. intros e. apply neverRejected_emit. Qed.

(** X1.  The commands that ask nothing: whatever the argument, the records,
    the faults of the storage and the pending lines, show, list and
    delete fulfil their promise (no error escapes them), re-prompt
    exactly once, as their last action, and read no line. *)
Theorem show_list_delete_settle (id : option string) (w : World) :
  (prompted_once w (showCmd id w) /\ input (snd (showCmd id w)) = input w)
  /\ (prompted_once w (listCmd w) /\ input (snd (listCmd w)) = input w)
  /\ (prompted_once w (deleteCmd id w)
      /\ input (snd (deleteCmd id w)) = input w).
Proof.
  split; [|split]; split.
  - destruct (ends_with_prompt 0 _ w
                (caught_noPrompt _ (showChain_noPrompt id))
                (caught_neverRejected _)
                (asksAtMost_caught 0 _ (asksAtMost_showChain id)))
      as [H | [H1 H2]]; [exact H | lia].
  - assert (H : keeps sameInput (showCmd id))
      by (unfold showCmd, showChain; frame).
    apply H.
  - assert (Hq : keeps noPrompt (listChain;; resolve tt)).
    { apply keeps_then; [exact _ | apply listChain_noPrompt|]. frame. }
    assert (Ha : asksAtMost 0 (listChain;; resolve tt)).
    { apply (asksAtMost_then 0 0); [apply asksAtMost_listChain|].
      intros l. silent. }
    destruct (ends_with_prompt 0 _ w (caught_noPrompt _ Hq)
                (caught_neverRejected _) (asksAtMost_caught 0 _ Ha))
      as [H | [H1 H2]]; [exact H | lia].
  - assert (H : keeps sameInput listCmd)
      by (unfold listCmd, listChain; frame).
    apply H.
  - assert (Hq : keeps noPrompt (deleteChain id;; resolve tt)).
    { apply keeps_then; [exact _ | apply deleteChain_noPrompt|]. frame. }
    assert (Ha : asksAtMost 0 (deleteChain id;; resolve tt)).
    { apply (asksAtMost_then 0 0); [apply asksAtMost_deleteChain|].
      intros l. silent. }
    destruct (ends_with_prompt 0 _ w (caught_noPrompt _ Hq)
                (caught_neverRejected _) (asksAtMost_caught 0 _ Ha))
      as [H | [H1 H2]]; [exact H | lia].
  - assert (H : keeps sameInput (deleteCmd id))
      by (unfold deleteCmd, deleteChain; frame).
    apply H.
Qed.

(** X2.  The commands that ask: whatever the argument and the world, add,
    test and edit either fulfil their promise and re-prompt exactly once,
    as their last action, or wait for a line with no re-prompt issued;
    they wait only when the user submits fewer lines than they ask for
    (two for add and edit, one for test).  No error escapes them. *)
Theorem add_test_edit_settle (id : option string) (w : World) :
  (prompted_once w (addCmd w)
   \/ waiting w (addCmd w) /\ (length (input w) < 2)%nat)
  /\ (prompted_once w (testCmd id w)
      \/ waiting w (testCmd id w) /\ (length (input w) < 1)%nat)
  /\ (prompted_once w (editCmd id w)
      \/ waiting w (editCmd id w) /\ (length (input w) < 2)%nat).
Proof.
  split; [|split].
  - apply (ends_with_prompt 2 (handled addChain) w).
    + apply handled_noPrompt, addChain_noPrompt.
    + apply handled_neverRejected.
    + apply asksAtMost_handled, asksAtMost_addChain.
  - apply (ends_with_prompt 1 (handled (testChain id)) w).
    + apply handled_noPrompt, testChain_noPrompt.
    + apply handled_neverRejected.
    + apply asksAtMost_handled, asksAtMost_testChain.
  - apply (ends_with_prompt 2 (handled (editChain id)) w).
    + apply handled_noPrompt, editChain_noPrompt.
    + apply handled_neverRejected.
    + apply asksAtMost_handled, asksAtMost_editChain.
Qed.

(** ** Ids that do not validate, reads that fail *)

Lemma saying_saying (w : World) (l1 l2 : list event) :
  saying (saying w l1) l2 = saying w (l1 ++ l2).
Proof. unfold saying. simpl. rewrite <- app_assoc. reflexivity. Qed.

Lemma saying_emit (w : World) (l : list event) (e : event) :
  emit e (saying w l) = (Resolved tt, saying w (l ++ [e])).
Proof. unfold emit. fold (saying (saying w l) [e]). rewrite saying_saying. reflexivity. Qed.

Lemma validateId_rejected (id : option string) (w w' : World) (e : jserror) :
  validateId id w = (Rejected e, w') ->
  w' = w /\ (e = MissingParameterError \/ e = InvalidParameterError).
Proof.
  unfold validateId. destruct id as [s|].
  - destruct (isNaN (parseInt s)); [|discriminate].
    unfold reject. intros H. apply pair_equal_spec in H as [H1 H2].
    split; [congruence | right; congruence].
  - unfold reject. intros H. apply pair_equal_spec in H as [H1 H2].
    split; [congruence | left; congruence].
Qed.

Lemma caught_rejected (p : Promise unit) (w w' : World) (e : jserror) :
  p w = (Rejected e, w') ->
  (catch p (fun error => errorlog (message error)) ;; rl_prompt) w
  = (Resolved tt, saying w' [ErrorLog (message e); RlPrompt]).
Proof.
  intros H. unfold then_. rewrite (catch_rejected _ _ _ _ _ H).
  unfold errorlog, rl_prompt, emit, saying. simpl.
  rewrite <- app_assoc. reflexivity.
Qed.

Lemma caught_resolved (p : Promise unit) (w w' : World) :
  p w = (Resolved tt, w') ->
  (catch p (fun error => errorlog (message error)) ;; rl_prompt) w
  = (Resolved tt, saying w' [RlPrompt]).
Proof.
  intros H. unfold then_. rewrite (catch_resolved _ _ _ _ _ H). reflexivity.
Qed.

Lemma handled_rejected (p : Promise unit) (w w' : World) (e : jserror) :
  p w = (Rejected e, w') ->
  reportAndPrompt p w = (Resolved tt, saying w' (reported e ++ [RlPrompt])).
Proof. apply reportAndPrompt_rejected. Qed.

(** X3.  An id that does not validate: show, test, edit and delete report the
    error of the validation through the error logger and re-prompt, and
    do nothing else; the storage is not called, no timer runs and no
    line is read.  The error is one of the two of [validateId]. *)
Theorem invalid_id_reported (id : option string) (w : World) (e : jserror) :
  validateId id w = (Rejected e, w) ->
  (e = MissingParameterError \/ e = InvalidParameterError)
  /\ showCmd id w = (Resolved tt, saying w [ErrorLog (message e); RlPrompt])
  /\ testCmd id w = (Resolved tt, saying w [ErrorLog (message e); RlPrompt])
  /\ editCmd id w = (Resolved tt, saying w [ErrorLog (message e); RlPrompt])
  /\ deleteCmd id w
     = (Resolved tt, saying w [ErrorLog (message e); RlPrompt]).
Proof.
  intros Hv. destruct (validateId_rejected id w w e Hv) as [_ He].
  assert (Hr : reported e = [ErrorLog (message e)])
    by (destruct He as [-> | ->]; reflexivity).
  split; [exact He|]. split; [|split; [|split]].
  - unfold showCmd. apply caught_rejected. unfold showChain.
    apply then_rejected, then_rejected, Hv.
  - unfold testCmd. rewrite (handled_rejected _ w w e), Hr; [reflexivity|].
    unfold testChain. apply then_rejected, then_rejected, Hv.
  - unfold editCmd. rewrite (handled_rejected _ w w e), Hr; [reflexivity|].
    unfold editChain. do 4 apply then_rejected. exact Hv.
  - unfold deleteCmd. apply caught_rejected.
    apply then_rejected. unfold deleteChain. apply then_rejected, Hv.
Qed.

Lemma fetch_fault (id : option string) (n : number) (w : World) (e : jserror) :
  validateId id w = (Resolved n, w) -> nextFault w = Some e ->
  (let* id' := validateId id in findById id') w
  = (Rejected e, afterStorageCall w).
Proof.
  intros Hv Hf. rewrite (then_resolved _ _ _ _ _ Hv).
  apply findById_fault, Hf.
Qed.

Lemma findAll_fault (w : World) (e : jserror) :
  nextFault w = Some e -> findAll w = (Rejected e, afterStorageCall w).
Proof.
  intros Hf. unfold findAll. apply then_rejected, storageCall_fault, Hf.
Qed.

(** X4.  A storage call that fails, on an id that validates: show, delete and
    list log the message of the error, test and edit log a validation
    error item by item and any other error by its message; each then
    re-prompts, and the records are as they were. *)
Theorem storage_failure_reported (id : option string) (n : number)
    (w : World) (e : jserror) :
  validateId id w = (Resolved n, w) -> nextFault w = Some e ->
  showCmd id w
  = (Resolved tt, saying (afterStorageCall w) [ErrorLog (message e); RlPrompt])
  /\ deleteCmd id w
     = (Resolved tt,
        saying (afterStorageCall w) [ErrorLog (message e); RlPrompt])
  /\ listCmd w
     = (Resolved tt,
        saying (afterStorageCall w) [ErrorLog (message e); RlPrompt])
  /\ testCmd id w
     = (Resolved tt, saying (afterStorageCall w) (reported e ++ [RlPrompt]))
  /\ editCmd id w
     = (Resolved tt, saying (afterStorageCall w) (reported e ++ [RlPrompt]))
  /\ rows (afterStorageCall w) = rows w.
Proof.
  intros Hv Hf. pose proof (fetch_fault id n w e Hv Hf) as Hfetch.
  split; [|split; [|split; [|split; [|split]]]].
  - unfold showCmd. apply caught_rejected. unfold showChain.
    apply then_rejected, Hfetch.
  - unfold deleteCmd. apply caught_rejected. apply then_rejected.
    unfold deleteChain. rewrite (then_resolved _ _ _ _ _ Hv).
    unfold destroy. apply then_rejected, storageCall_fault, Hf.
  - unfold listCmd. apply caught_rejected. apply then_rejected.
    unfold listChain, each. apply then_rejected, findAll_fault, Hf.
  - unfold testCmd. apply handled_rejected. unfold testChain.
    apply then_rejected, Hfetch.
  - unfold editCmd. apply handled_rejected. unfold editChain.
    do 3 apply then_rejected. exact Hfetch.
  - reflexivity.
Qed.

(** ** Show and list *)

Lemma showChain_present (id : option string) (z : Z) (q : quiz) (w : World) :
  validateId id w = (Resolved (Num z), w) -> recordOf z w = Some q ->
  nextFault w = None ->
  showChain id w = (Resolved tt, saying (afterStorageCall w) [shown q]).
Proof.
  intros Hv Hq Hf. unfold showChain, then_.
  rewrite Hv, (findById_present z q w Hf Hq). reflexivity.
Qed.

(** X5.  Show on an id with a record, on a storage that answers: the command
    prints the one line of the quiz and re-prompts; nothing else
    changes. *)
Theorem show_existing (id : option string) (z : Z) (q : quiz) (w : World) :
  validateId id w = (Resolved (Num z), w) -> recordOf z w = Some q ->
  nextFault w = None ->
  showCmd id w = (Resolved tt, saying (afterStorageCall w) [shown q; RlPrompt]).
Proof.
  intros Hv Hq Hf. unfold showCmd.
  rewrite (caught_resolved _ _ _ (showChain_present id z q w Hv Hq Hf)).
  rewrite saying_saying. reflexivity.
Qed.

Lemma forEach_listed (l : list quiz) (w : World) :
  forEach l
    (fun quiz =>
       log ("[" +:+ colorize (ofZ (quiz_id quiz)) "magenta" +:+ "]: "
            +:+ question quiz +:+ " ")) w
  = (Resolved tt, saying w (map listed l)).
Proof.
  revert w. induction l as [|q l IH]; intros w.
  - unfold saying. simpl. rewrite app_nil_r. destruct w; reflexivity.
  - cbn [forEach map].
    rewrite (then_resolved _ _ w tt (saying w [listed q])) by reflexivity.
    rewrite IH, saying_saying. reflexivity.
Qed.

Lemma listChain_ok (w : World) :
  nextFault w = None ->
  listChain w
  = (Resolved (rows w), saying (afterStorageCall w) (map listed (rows w))).
Proof.
  intros Hf. unfold listChain, each.
  rewrite (then_resolved _ _ _ _ _ (findAll_ok w Hf)).
  rewrite (then_resolved _ _ _ _ _ (forEach_listed _ _)). reflexivity.
Qed.

(** X6.  List on a storage that answers: one line per stored quiz, in the
    order of the storage, then the re-prompt; nothing else changes. *)
Theorem list_prints_rows (w : World) :
  nextFault w = None ->
  listCmd w
  = (Resolved tt,
     saying (afterStorageCall w) (map listed (rows w) ++ [RlPrompt])).
Proof.
  intros Hf. unfold listCmd.
  rewrite (caught_resolved _ w (saying (afterStorageCall w)
                                  (map listed (rows w)))).
  - rewrite saying_saying. reflexivity.
  - rewrite (then_resolved _ _ _ _ _ (listChain_ok w Hf)). reflexivity.
Qed.

(** ** Delete *)

Lemma find_filter_same (z : Z) (l : list quiz) :
  List.find (fun r => quiz_id r =? z)
    (List.filter (fun r => negb (quiz_id r =? z)) l) = None.
Proof.
  induction l as [|r l IH]; simpl; [reflexivity|].
  destruct (quiz_id r =? z) eqn:E; simpl; [exact IH|].
  rewrite E. exact IH.
Qed.

Lemma find_filter_other (z z' : Z) (l : list quiz) :
  z' <> z ->
  List.find (fun r => quiz_id r =? z')
    (List.filter (fun r => negb (quiz_id r =? z)) l)
  = List.find (fun r => quiz_id r =? z') l.
Proof.
  intros Hne. induction l as [|r l IH]; simpl; [reflexivity|].
  destruct (quiz_id r =? z) eqn:E; simpl.
  - apply Z.eqb_eq in E.
    destruct (quiz_id r =? z') eqn:E'; [apply Z.eqb_eq in E'; congruence|].
    exact IH.
  - destruct (quiz_id r =? z'); [reflexivity | exact IH].
Qed.

Lemma deleteChain_ok (id : option string) (z : Z) (w : World) :
  validateId id w = (Resolved (Num z), w) -> nextFault w = None ->
  deleteChain id w
  = (Resolved (length (rows w) - length (without z (rows w)))%nat,
     with_rows (afterStorageCall w) (without z (rows w))).
Proof.
  intros Hv Hf. unfold deleteChain. rewrite (then_resolved _ _ _ _ _ Hv).
  unfold destroy. rewrite (then_resolved _ _ _ _ _ (storageCall_ok w Hf)).
  reflexivity.
Qed.

(** X7.  Delete on an id that validates, on a storage that answers: the
    records with that id are removed and no other; the command logs
    nothing and re-prompts; and a show of the same id after it reports
    that the quiz does not exist. *)
Theorem delete_removes (id : option string) (z : Z) (w : World) :
  validateId id w = (Resolved (Num z), w) -> nextFault w = None ->
  deleteCmd id w
  = (Resolved tt,
     saying (with_rows (afterStorageCall w) (without z (rows w))) [RlPrompt])
  /\ recordOf z (snd (deleteCmd id w)) = None
  /\ (forall z', z' <> z ->
        recordOf z' (snd (deleteCmd id w)) = recordOf z' w)
  /\ nextId (snd (deleteCmd id w)) = nextId w
  /\ (nextFault (snd (deleteCmd id w)) = None ->
      showCmd id (snd (deleteCmd id w))
      = (Resolved tt, notFoundReported id (snd (deleteCmd id w)))).
Proof.
  intros Hv Hf.
  assert (Hd : deleteCmd id w
               = (Resolved tt,
                  saying (with_rows (afterStorageCall w) (without z (rows w)))
                    [RlPrompt])).
  { unfold deleteCmd. apply caught_resolved.
    rewrite (then_resolved _ _ _ _ _ (deleteChain_ok id z w Hv Hf)).
    reflexivity. }
  split; [exact Hd|]. rewrite Hd. cbn [snd].
  split; [apply find_filter_same|].
  split; [intros z' Hz; apply (find_filter_other z z' (rows w) Hz)|].
  split; [reflexivity|].
  intros Hf'.
  assert (Hn : noRecord (Num z)
                 (saying (with_rows (afterStorageCall w) (without z (rows w)))
                    [RlPrompt])).
  { intros r Hr. simpl in Hr. apply List.filter_In in Hr as [_ Hr].
    apply negb_true_iff, Z.eqb_neq in Hr. congruence. }
  unfold showCmd.
  rewrite (caught_rejected _ _ _ _
             (showChain_absent id (Num z) _
                (validateId_world id (Num z) w w Hv _) Hn Hf')).
  unfold notFoundReported. reflexivity.
Qed.

(** ** Add *)

Lemma validate_not_nil (q a : string) :
  q = "" \/ a = "" -> validate q a <> [].
Proof.
  intros H Hnil. apply validate_nil in Hnil as [Hq Ha]. tauto.
Qed.

(** X8.  Add with an empty question or an empty answer (a line of white space
    only counts as empty): nothing is stored and the storage is not even
    called (the world the questions left, [prompted w], only gains
    events); the command logs the heading and one message per empty
    field, the question's first, and re-prompts. *)
Theorem add_rejected_by_validation (w : World) (l1 l2 : string)
    (rest : list string) :
  input w = l1 :: l2 :: rest ->
  trim l1 = "" \/ trim l2 = "" ->
  addCmd w
  = (Resolved tt,
     saying (prompted w)
       (ErrorLog "El quiz es erroneo:"
        :: map ErrorLog
             ((if strictEq (trim l1) "" then [emptyQuestionMsg] else [])
              ++ (if strictEq (trim l2) "" then [emptyAnswerMsg] else []))
        ++ [RlPrompt]))
  /\ rows (prompted w) = rows w
  /\ nextId (prompted w) = nextId w
  /\ faults (prompted w) = faults w
  /\ input (prompted w) = rest.
Proof.
  intros Hi He.
  assert (Hc : addChain w
               = (Rejected (validationError (validate (trim l1) (trim l2))),
                  prompted w)).
  { rewrite (addChain_asks w l1 l2 rest Hi). unfold then_.
    rewrite create_outcome.
    pose proof (validate_not_nil _ _ He) as Hne.
    destruct (validate (trim l1) (trim l2)); [congruence | reflexivity]. }
  split; [|split; [|split; [|split]]]; try reflexivity.
  - unfold addCmd. fold (validate (trim l1) (trim l2)).
    apply (handled_rejected _ _ _ _ Hc).
  - unfold prompted. autorewrite with world. rewrite Hi. reflexivity.
Qed.

(** ** Edit *)

Lemma reportAndPrompt_ext (p1 p2 : Promise unit) (w1 w2 : World) :
  p1 w1 = p2 w2 -> reportAndPrompt p1 w1 = reportAndPrompt p2 w2.
Proof.
  intros H. unfold reportAndPrompt, catchIf, then_, catch. cbn beta.
  rewrite H. reflexivity.
Qed.

Lemma edited_second_line (q0 : quiz) (w : World) (l1 l2 l2' : string)
    (rest : list string) :
  input w = l1 :: l2 :: rest ->
  edited q0 w = edited q0 (with_input w (l1 :: l2' :: rest)).
Proof.
  destruct w as [r n f i rnd d tty tm tr]. simpl. intros ->.
  destruct tty; reflexivity.
Qed.

(** X9.  The answer the user submits to edit has no effect at all: on an
    existing quiz, the outcome of the command and the whole world after
    it are the same whatever the second line is. *)
Theorem edit_ignores_answer (s : string) (z : Z) (q0 : quiz) (w : World)
    (l1 l2 l2' : string) (rest : list string) :
  validateId (Some s) w = (Resolved (Num z), w) ->
  recordOf z w = Some q0 -> nextFault w = None ->
  input w = l1 :: l2 :: rest ->
  editCmd (Some s) w = editCmd (Some s) (with_input w (l1 :: l2' :: rest)).
Proof.
  intros Hv Hq Hf Hi. unfold editCmd. apply reportAndPrompt_ext.
  assert (He : editChain (Some s) w
               = editChain (Some s) (with_input w (l1 :: l2' :: rest))).
  { rewrite (editChain_asks s z q0 w l1 l2 rest Hv Hq Hf Hi).
    rewrite (editChain_asks s z q0 (with_input w (l1 :: l2' :: rest))
               l1 l2' rest
               (validateId_world _ _ _ _ Hv _) Hq Hf eq_refl).
    f_equal. apply (edited_second_line q0 w l1 l2 l2' rest Hi). }
  exact He.
Qed.

(** X10.  Edit with an empty question (a line of white space only counts as
    empty), whatever the answer submitted: the validation fails for both
    fields, since the answer is set to the question; the command logs the
    heading and the two messages and re-prompts, and the records are as
    they were. *)
Theorem edit_empty_question (s : string) (z : Z) (q0 : quiz) (w : World)
    (l1 l2 : string) (rest : list string) :
  validateId (Some s) w = (Resolved (Num z), w) ->
  recordOf z w = Some q0 -> nextFault w = None ->
  input w = l1 :: l2 :: rest ->
  trim l1 = "" ->
  editCmd (Some s) w
  = (Resolved tt,
     saying (edited q0 w)
       [ErrorLog "El quiz es erroneo:"; ErrorLog emptyQuestionMsg;
        ErrorLog emptyAnswerMsg; RlPrompt])
  /\ rows (edited q0 w) = rows w
  /\ faults (edited q0 w) = tail (faults w).
Proof.
  intros Hv Hq Hf Hi He. split; [|split].
  - unfold editCmd.
    rewrite (handled_rejected _ w (edited q0 w)
               (validationError [emptyQuestionMsg; emptyAnswerMsg]));
      [reflexivity|].
    rewrite (editChain_asks s z q0 w l1 l2 rest Hv Hq Hf Hi).
    apply then_rejected. rewrite save_outcome. cbn [question answer].
    rewrite He. reflexivity.
  - apply rows_edited.
  - unfold edited. autorewrite with world. reflexivity.
Qed.

(** ** The play session in any world *)

Lemma emitted_heard_timers (q : quiz) (w : World) :
  emitted w (heard q w) (asks q :: map RlWrite (timers w)).
Proof.
  unfold emitted, heard, answered, asks. simpl.
  rewrite <- app_assoc. reflexivity.
Qed.

Lemma prompts_gameOver (n : nat) : prompts (gameOver n) = 1%nat.
Proof. reflexivity. Qed.

(** What a session leaves alone and how often it re-prompts, whatever
    [Math.random] returns. *)
Lemma playOne_frame (fuel : nat) (s : Session) (w : World)
    (r : outcome unit) (s' : Session) (w' : World) :
  playOne fuel s w = Some (r, s', w') ->
  sameRecords w w' /\ sameSchedule w w'
  /\ exists l,
       emitted w w' l
       /\ prompts l = match r with Resolved _ => 1%nat | _ => 0%nat end.
Proof.
  revert s w. induction fuel as [|fuel IH]; intros s w H.
  - destruct (toBeResolved s) as [|q0 l0] eqn:He.
    + rewrite (playOne_empty 0 s w He) in H.
      apply Some_inj, pair_equal_spec in H as [H <-].
      apply pair_equal_spec in H as [<- _].
      split; [split; reflexivity|]. split; [reflexivity|].
      exists (nothingLeft :: gameOver (score s)). split; reflexivity.
    + simpl in H. rewrite He in H. discriminate H.
  - assert (Hcase : toBeResolved s = [] \/ toBeResolved s <> []).
    { destruct (toBeResolved s); [left; reflexivity | right; discriminate]. }
    destruct Hcase as [He | Hne].
    { rewrite (playOne_empty _ s w He) in H.
      apply Some_inj, pair_equal_spec in H as [H <-].
      apply pair_equal_spec in H as [<- _].
      split; [split; reflexivity|]. split; [reflexivity|].
      exists (nothingLeft :: gameOver (score s)). split; reflexivity. }
    destruct (toBeResolved s !! picked s w) as [q|] eqn:Hq.
    + rewrite (playOne_step fuel s w q Hq) in H.
      destruct (input w) as [|line rest] eqn:Hi.
      * apply Some_inj, pair_equal_spec in H as [H <-].
        apply pair_equal_spec in H as [<- _].
        split; [split; reflexivity|]. split; [reflexivity|].
        exists (asks q :: map RlWrite (timers w)). split.
        -- unfold emitted. simpl. rewrite <- app_assoc. reflexivity.
        -- apply (prompts_writes (timers w)).
      * destruct (strictEq _ _).
        -- apply IH in H as ([Hr1 Hr2] & Hs & l & Hl & Hp).
           split; [split; [exact Hr1 | exact Hr2]|]. split; [exact Hs|].
           exists ((asks q :: map RlWrite (timers w))
                   ++ [correctLine (S (score s))] ++ l).
           split.
           ++ apply (emitted_trans w (heard q w) w');
                [apply emitted_heard_timers|].
              apply (emitted_trans (heard q w)
                       (saying (heard q w) [correctLine (S (score s))]) w');
                [apply emitted_saying | exact Hl].
           ++ rewrite !prompts_app, Hp.
              change (prompts (asks q :: map RlWrite (timers w)))
                with (prompts (map RlWrite (timers w))).
              rewrite prompts_writes. reflexivity.
        -- apply Some_inj, pair_equal_spec in H as [H <-].
           apply pair_equal_spec in H as [<- _].
           split; [split; reflexivity|]. split; [reflexivity|].
           exists ((asks q :: map RlWrite (timers w))
                   ++ Log "INCORRECTO" :: gameOver (score s)).
           split.
           ++ apply (emitted_trans w (heard q w));
                [apply emitted_heard_timers | apply emitted_saying].
           ++ rewrite prompts_app.
              change (prompts (asks q :: map RlWrite (timers w)))
                with (prompts (map RlWrite (timers w))).
              rewrite prompts_writes. reflexivity.
    + rewrite (playOne_out_of_range fuel s w Hne Hq) in H.
      apply Some_inj, pair_equal_spec in H as [H <-].
      apply pair_equal_spec in H as [<- _].
      split; [split; reflexivity|]. split; [reflexivity|].
      exists []. split; [|reflexivity].
      unfold emitted. simpl. rewrite app_nil_r. reflexivity.
Qed.

(** X11.  Play in any world, whatever the storage, the user and [Math.random]
    do: the promise of the command is fulfilled (the failure of the load
    is caught, and the session runs on its own), the records are as they
    were, and at most one re-prompt is issued. *)
Theorem play_settles (w : World) :
  fst (playCmd w) = Resolved tt
  /\ sameRecords w (snd (playCmd w))
  /\ exists l, emitted w (snd (playCmd w)) l /\ (prompts l <= 1)%nat.
Proof.
  unfold playCmd. destruct (nextFault w) as [e|] eqn:Hf.
  - rewrite (catch_rejected _ _ _ e (afterStorageCall w)).
    + split; [reflexivity|]. split; [split; reflexivity|].
      exists (map RlWrite (timers w)
              ++ [ConsoleLog ("Error: " +:+ toString e)]).
      split.
      * unfold emitted. simpl. rewrite <- app_assoc. reflexivity.
      * rewrite prompts_app, prompts_writes. unfold prompts. simpl. lia.
    + apply then_rejected, findAll_fault, Hf.
  - assert (Hplay : is_Some (playOne (length (rows w)) (mkSession 0 (rows w))
                               (afterStorageCall w)))
      by (apply playOne_total; reflexivity).
    destruct Hplay as [[[r s'] w'] Hplay].
    destruct (playOne_frame _ _ _ _ _ _ Hplay) as ([Hr1 Hr2] & _ & l & Hl & Hp).
    assert (Hrun : forall res,
               detached (Some (r, s', w')) (afterStorageCall w) = res ->
               fst res = Resolved tt /\ sameRecords w (snd res)
               /\ exists l', emitted w (snd res) l' /\ (prompts l' <= 1)%nat).
    { intros res <-. destruct r as [[]|e|]; simpl.
      - split; [reflexivity|]. split; [split; assumption|].
        exists (map RlWrite (timers w) ++ l). split.
        + apply (emitted_trans w (afterStorageCall w) w'); [reflexivity | exact Hl].
        + rewrite prompts_app, prompts_writes, Hp. lia.
      - split; [reflexivity|]. split; [split; assumption|].
        exists (map RlWrite (timers w) ++ l ++ [UnhandledRejection e]). split.
        + apply (emitted_trans w (afterStorageCall w)); [reflexivity|].
          apply (emitted_trans (afterStorageCall w) w'); [exact Hl|].
          reflexivity.
        + rewrite !prompts_app, prompts_writes, Hp. unfold prompts. simpl. lia.
      - split; [reflexivity|]. split; [split; assumption|].
        exists (map RlWrite (timers w) ++ l). split.
        + apply (emitted_trans w (afterStorageCall w) w'); [reflexivity | exact Hl].
        + rewrite prompts_app, prompts_writes, Hp. lia. }
    specialize (Hrun _ eq_refl).
    assert (Hcmd : catch
                     (let* quizzes := findAll in
                      fun w0 =>
                        detached
                          (playOne (length (toBeResolved (mkSession 0 quizzes)))
                             (mkSession 0 quizzes) w0) w0)
                     (fun e => console_log ("Error: " +:+ toString e)) w
                   = detached (Some (r, s', w')) (afterStorageCall w)).
    { destruct Hrun as [Hfst _].
      destruct (detached (Some (r, s', w')) (afterStorageCall w))
        as [o wd] eqn:Hd.
      simpl in Hfst. subst o. apply catch_resolved.
      rewrite (then_resolved _ _ _ _ _ (findAll_ok w Hf)).
      cbn [toBeResolved]. rewrite Hplay. exact Hd. }
    rewrite Hcmd. exact Hrun.
Qed.


(** X12.  The commands that only read: in any world, show, test and list
    leave the stored records and the next id as they were (and so does
    play, see [play_settles]). *)
Theorem read_only_commands (id : option string) (w : World) :
  sameRecords w (snd (showCmd id w))
  /\ sameRecords w (snd (testCmd id w))
  /\ sameRecords w (snd (listCmd w)).
Proof.
  split; [|split].
  - assert (H : keeps sameRecords (showCmd id))
      by (unfold showCmd, showChain; frame).
    apply H.
  - assert (H : keeps sameRecords (testCmd id)).
    { unfold testCmd, reportAndPrompt, testChain.
      frame; first [apply makeQuestion_sameRecords | idtac]. all: frame. }
    apply H.
  - assert (H : keeps sameRecords listCmd)
      by (unfold listCmd, listChain; frame).
    apply H.
Qed.
(** ** The play session: questions, lines and draws *)


(** ** The ids of the records *)

Instance staysUnique_frame : Frame staysUnique.
Proof.
  split.
  - intros w H. exact H.
  - intros a b c H1 H2 H. apply H2, H1, H.
Qed.

Lemma unique_of_same {A} (p : Promise A) :
  keeps sameRecords p -> keeps staysUnique p.
Proof.
  intros Hp w [H1 H2]. destruct (Hp w) as [Hr Hn].
  unfold uniqueIds. rewrite Hr, Hn. split; assumption.
Qed.

Lemma create_unique (q a : string) : keeps staysUnique (create q a).
Proof.
  intros w [Hd Hb]. rewrite create_outcome.
  destruct (validate q a); [|split; assumption].
  destruct (nextFault w); [split; assumption|].
  unfold uniqueIds. cbn [snd rows nextId with_nextId with_rows].
  change (rows (afterStorageCall w)) with (rows w). split.
  - rewrite map_app. cbn [map quiz_id].
    apply NoDup_app. split; [exact Hd|]. split; [|apply NoDup_singleton].
    intros x Hx Hx'. apply list_elem_of_singleton in Hx'. subst x.
    apply list_elem_of_fmap in Hx as [r [Hr Hin]].
    rewrite Forall_forall in Hb. specialize (Hb r Hin). lia.
  - apply Forall_app. split.
    + eapply Forall_impl; [exact Hb|]. intros r Hr. simpl in Hr. lia.
    + apply Forall_singleton. simpl. lia.
Qed.

Lemma map_id_replaced (q : quiz) (l : list quiz) :
  map quiz_id (replaced q l) = map quiz_id l.
Proof.
  induction l as [|r l IH]; simpl; [reflexivity|].
  rewrite IH. destruct (quiz_id r =? quiz_id q) eqn:E; [|reflexivity].
  apply Z.eqb_eq in E. rewrite E. reflexivity.
Qed.

Lemma save_unique (q : quiz) : keeps staysUnique (save q).
Proof.
  intros w [Hd Hb]. rewrite save_outcome.
  destruct (validate _ _); [|split; assumption].
  destruct (nextFault w); [split; assumption|].
  unfold uniqueIds. cbn [snd rows nextId with_rows].
  change (nextId (afterStorageCall w)) with (nextId w).
  split; [rewrite map_id_replaced; exact Hd|].
  rewrite Forall_forall in *. intros r Hr.
  unfold replaced in Hr. apply list_elem_of_fmap in Hr as [r0 [-> Hin]].
  specialize (Hb r0 Hin).
  destruct (quiz_id r0 =? quiz_id q) eqn:E; [|exact Hb].
  apply Z.eqb_eq in E. rewrite <- E. exact Hb.
Qed.

Lemma NoDup_ids_filter (f : quiz -> bool) (l : list quiz) :
  NoDup (map quiz_id l) -> NoDup (map quiz_id (List.filter f l)).
Proof.
  induction l as [|r l IH]; simpl; intros H; [constructor|].
  apply NoDup_cons in H as [Hnotin H].
  destruct (f r); [|apply IH, H].
  simpl. apply NoDup_cons. split; [|apply IH, H].
  intros Hin. apply Hnotin.
  apply list_elem_of_fmap in Hin as [x [Hx Hin]].
  apply list_elem_of_fmap. exists x. split; [exact Hx|].
  apply list_elem_of_In. apply list_elem_of_In in Hin.
  apply List.filter_In in Hin as [Hin _]. exact Hin.
Qed.

Lemma destroy_unique (id : number) : keeps staysUnique (destroy id).
Proof.
  intros w [Hd Hb]. unfold destroy, then_.
  destruct (storageCall w) as [[[]|e|] w1] eqn:Hs;
    pose proof (storageCall_sameRecords w) as [Hr Hn];
    rewrite Hs in Hr, Hn; cbn [snd] in *.
  - unfold uniqueIds. cbn [rows nextId with_rows]. rewrite Hr, Hn.
    destruct id as [|z| |]; try (split; assumption).
    split; [apply NoDup_ids_filter, Hd|].
    rewrite List.Forall_forall in *. intros r Hr'.
    apply List.filter_In in Hr' as [Hr' _]. apply Hb, Hr'.
  - unfold uniqueIds. rewrite Hr, Hn. split; assumption.
  - unfold uniqueIds. rewrite Hr, Hn. split; assumption.
Qed.

Instance sameIds_frame : Frame sameIds.
Proof.
  split.
  - intros w. split; reflexivity.
  - intros a b c [H1 H2] [H3 H4]. split; congruence.
Qed.

Lemma ids_of_same {A} (p : Promise A) :
  keeps sameRecords p -> keeps sameIds p.
Proof. intros Hp w. destruct (Hp w) as [Hr Hn]. split; congruence. Qed.

Lemma save_sameIds (q : quiz) : keeps sameIds (save q).
Proof.
  intros w. rewrite save_outcome.
  destruct (validate _ _); [|split; reflexivity].
  destruct (nextFault w); [split; reflexivity|].
  split; [apply map_id_replaced | reflexivity].
Qed.

Lemma asking_sameRecords (q0 : quiz) :
  keeps sameRecords
    (setTimeout_write (question q0) ;;
     let* q := makeQuestion "Introduzca la pregunta: " in
     setTimeout_write (answer q0) ;;
     let* a := makeQuestion "Introduzca la respuesta " in
     let quiz := Quiz (quiz_id q0) q (answer q0) in
     let quiz := Quiz (quiz_id quiz) (question quiz) q in
     resolve quiz).
Proof.
  frame; first [apply makeQuestion_sameRecords | idtac].
  all: frame; first [apply makeQuestion_sameRecords | idtac].
  all: frame.
Qed.

Lemma fetch_sameRecords (id : option string) :
  keeps sameRecords (let* id' := validateId id in findById id').
Proof. frame. Qed.

Lemma reportAndPrompt_keeps R `{!Frame R} (p : Promise unit) :
  (forall e, keeps R (emit e)) -> keeps R p -> keeps R (reportAndPrompt p).
Proof.
  intros He Hp. unfold reportAndPrompt, errorlog, rl_prompt.
  apply keeps_then; [exact _ | | intros _; apply He].
  apply keeps_catch; [exact _ | | intros e; apply He].
  apply keeps_catchIf; [exact _ | exact Hp|].
  intros e. apply keeps_then; [exact _ | apply He|].
  intros _. apply keeps_forEach; [exact _|]. intros m. apply He.
Qed.

Lemma editChain_keeps R `{!Frame R} (id : option string) :
  (forall A (p : Promise A), keeps sameRecords p -> keeps R p) ->
  (forall q, keeps R (save q)) ->
  keeps R (editChain id).
Proof.
  intros Hsame Hsave. unfold editChain.
  apply keeps_then; [exact _ | | intros quiz; apply Hsame; frame].
  apply keeps_then; [exact _ | | intros quiz; apply Hsave].
  apply keeps_then; [exact _ | apply Hsame, fetch_sameRecords|].
  intros [q0|]; [apply Hsame, asking_sameRecords | apply keeps_reject; exact _].
Qed.

Lemma addChain_staysUnique : keeps staysUnique addChain.
Proof.
  unfold addChain.
  apply keeps_then; [exact _ | | intros quiz; apply unique_of_same; frame].
  apply keeps_then; [exact _ | | intros qa; apply create_unique].
  apply unique_of_same.
  frame; first [apply makeQuestion_sameRecords | idtac].
  all: frame.
Qed.

Lemma deleteChain_staysUnique (id : option string) :
  keeps staysUnique (deleteChain id).
Proof.
  unfold deleteChain.
  apply keeps_then; [exact _ | apply unique_of_same; frame|].
  intros n. apply destroy_unique.
Qed.

(** X14.  The ids of the records: in any world, when they are pairwise
    distinct and below the next id before add, edit or delete, they are
    so after it; and edit changes neither the ids of the records nor
    their order nor the next id. *)
Theorem ids_stay_unique (id : option string) (w : World) :
  (uniqueIds w -> uniqueIds (snd (addCmd w)))
  /\ (uniqueIds w -> uniqueIds (snd (editCmd id w)))
  /\ (uniqueIds w -> uniqueIds (snd (deleteCmd id w)))
  /\ sameIds w (snd (editCmd id w)).
Proof.
  split; [|split; [|split]].
  - apply (reportAndPrompt_keeps staysUnique addChain).
    + intros e. apply unique_of_same, emit_sameRecords.
    + apply addChain_staysUnique.
  - apply (reportAndPrompt_keeps staysUnique (editChain id)).
    + intros e. apply unique_of_same, emit_sameRecords.
    + apply editChain_keeps; [exact _ | apply @unique_of_same | apply save_unique].
  - assert (H : keeps staysUnique (deleteCmd id)).
    { unfold deleteCmd, errorlog, rl_prompt.
      apply keeps_then; [exact _ | | intros _; apply unique_of_same, emit_sameRecords].
      apply keeps_catch; [exact _ | | intros e; apply unique_of_same, emit_sameRecords].
      apply keeps_then; [exact _ | apply deleteChain_staysUnique|].
      intros n. apply keeps_resolve. exact _. }
    apply H.
  - apply (reportAndPrompt_keeps sameIds (editChain id)).
    + intros e. apply ids_of_same, emit_sameRecords.
    + apply editChain_keeps; [exact _ | apply @ids_of_same | apply save_sameIds].
Qed.

(** ** The questions of edit and add *)

Lemma trace_edited (q0 : quiz) (w : World) :
  trace (edited q0 w)
  = trace w ++ map RlWrite (timers w)
    ++ RlQuestion (colorize "Introduzca la pregunta: " "red")
    :: (if isTTY w then [RlWrite (question q0)] else [])
    ++ RlQuestion (colorize "Introduzca la respuesta " "red")
    :: (if isTTY w then [RlWrite (answer q0)] else []).
Proof.
  destruct w as [r n f i rnd d tty tm tr]. destruct tty; simpl;
    rewrite <- ?app_assoc; simpl; rewrite ?app_nil_r; reflexivity.
Qed.

Lemma input_edited (q0 : quiz) (w : World) :
  input (edited q0 w) = tail (tail (input w)).
Proof.
  destruct w as [r n f i rnd d tty tm tr]. destruct tty; reflexivity.
Qed.

Lemma timers_edited (q0 : quiz) (w : World) : timers (edited q0 w) = [].
Proof.
  destruct w as [r n f i rnd d tty tm tr]. destruct tty; reflexivity.
Qed.

Lemma trace_saying (w : World) (l : list event) :
  trace (saying w l) = trace w ++ l.
Proof. reflexivity. Qed.

Lemma rows_saying (w : World) (l : list event) : rows (saying w l) = rows w.
Proof. reflexivity. Qed.

Lemma input_saying (w : World) (l : list event) :
  input (saying w l) = input w.
Proof. reflexivity. Qed.

Lemma trace_with_rows (w : World) (r : list quiz) :
  trace (with_rows w r) = trace w.
Proof. reflexivity. Qed.

Lemma rows_with_rows (w : World) (r : list quiz) : rows (with_rows w r) = r.
Proof. reflexivity. Qed.

Lemma input_with_rows (w : World) (r : list quiz) :
  input (with_rows w r) = input w.
Proof. reflexivity. Qed.

Lemma trace_afterStorageCall (w : World) :
  trace (afterStorageCall w) = trace w ++ map RlWrite (timers w).
Proof. reflexivity. Qed.

(** X15.  A successful edit, event by event: after each of the two questions,
    the text the quiz had is written into the input line when the
    terminal is a TTY, and nothing is when it is not; then come the
    confirmation and the re-prompt.  What is stored does not depend on
    the terminal. *)
Theorem edit_prefills (s : string) (z : Z) (q0 : quiz) (w : World)
    (l1 l2 : string) (rest : list string) :
  validateId (Some s) w = (Resolved (Num z), w) ->
  recordOf z w = Some q0 -> faults w = [] ->
  input w = l1 :: l2 :: rest -> trim l1 <> "" ->
  exists w',
    editCmd (Some s) w = (Resolved tt, w')
    /\ emitted w w'
         (map RlWrite (timers w) ++ editEvents (isTTY w) q0 (trim l1))
    /\ rows w' = replaced (Quiz z (trim l1) (trim l1)) (rows w)
    /\ input w' = rest.
Proof.
  intros Hv Hq Hfaults Hi Hne.
  assert (Hf : nextFault w = None)
    by (unfold nextFault; rewrite Hfaults; reflexivity).
  assert (Hf' : nextFault (edited q0 w) = None).
  { rewrite nextFault_edited. unfold nextFault. autorewrite with world.
    rewrite Hfaults. reflexivity. }
  set (line := Log (" Se ha cambiado el quiz " +:+ colorize (ofZ z) "magenta"
                    +:+ " por: " +:+ trim l1 +:+ " "
                    +:+ colorize "=>" "magenta" +:+ " " +:+ trim l1)).
  set (w1 := with_rows (afterStorageCall (edited q0 w))
               (replaced (Quiz z (trim l1) (trim l1)) (rows (edited q0 w)))).
  assert (Hc : editChain (Some s) w = (Resolved tt, saying w1 [line])).
  { rewrite (editChain_asks s z q0 w l1 l2 rest Hv Hq Hf Hi).
    unfold then_. rewrite save_outcome. cbn [question answer].
    rewrite (proj2 (validate_nil (trim l1) (trim l1)) (conj Hne Hne)).
    rewrite Hf'. reflexivity. }
  exists (saying (saying w1 [line]) [RlPrompt]).
  split; [unfold editCmd; apply reportAndPrompt_resolved, Hc|].
  split; [|split].
  - unfold emitted. rewrite !trace_saying. unfold w1.
    rewrite trace_with_rows, trace_afterStorageCall, timers_edited.
    rewrite trace_edited. unfold editEvents, line.
    rewrite (recordOf_id z w q0 Hq).
    cbn [map]. rewrite app_nil_r. rewrite <- !app_assoc. cbn [app].
    rewrite <- !app_assoc. reflexivity.
  - rewrite !rows_saying. unfold w1. rewrite rows_with_rows, rows_edited.
    reflexivity.
  - rewrite !input_saying. unfold w1.
    rewrite input_with_rows, input_afterStorageCall, input_edited, Hi.
    reflexivity.
Qed.

(** X16.  What [makeQuestion] delivers: with a line to read, the promise is
    fulfilled with that line less the white space at its two ends and
    nothing else (trimming the text again changes nothing), the query is
    shown in red and one line is used up; with no line it stays pending.
    It is never rejected. *)
Theorem makeQuestion_text (text : string) (w : World) :
  (forall e, fst (makeQuestion text w) <> Rejected e)
  /\ (input w = [] -> fst (makeQuestion text w) = Pending)
  /\ (forall line rest,
        input w = line :: rest ->
        makeQuestion text w = (Resolved (trim line), answered text w)
        /\ input (answered text w) = rest
        /\ emitted w (answered text w)
             (RlQuestion (colorize text "red") :: map RlWrite (timers w))
        /\ trim (trim line) = trim line
        /\ exists a b,
             allWhiteSpace a = true /\ allWhiteSpace b = true
             /\ line = a +:+ trim line +:+ b).
Proof.
  split; [|split].
  - intros e. destruct (input w) as [|line rest] eqn:Hi.
    + rewrite (makeQuestion_silent text w Hi). discriminate.
    + rewrite (makeQuestion_line text w line rest Hi). discriminate.
  - intros Hi. rewrite (makeQuestion_silent text w Hi). reflexivity.
  - intros line rest Hi.
    split; [apply (makeQuestion_line text w line rest Hi)|].
    split; [autorewrite with world; rewrite Hi; reflexivity|].
    split.
    { unfold emitted, answered. simpl. rewrite <- app_assoc. reflexivity. }
    split; [apply trim_trim|].
    destruct (trim_split line) as (a & b & Ha & Hb & Hl).
    exists a, b. repeat split; assumption.
Qed.

(** X17.  Add with fewer than two lines to read: the command asks, waits for
    the line that does not come and never re-prompts; nothing is stored
    and the storage is not called. *)
Theorem add_unanswered (w : World) :
  (length (input w) < 2)%nat ->
  waiting w (addCmd w)
  /\ sameRecords w (snd (addCmd w))
  /\ faults (snd (addCmd w)) = faults w
  /\ input (snd (addCmd w)) = [].
Proof.
  intros Hlen.
  assert (Hc : exists w1,
             addChain w = (Pending, w1) /\ sameRecords w w1
             /\ faults w1 = faults w /\ input w1 = []).
  { unfold addChain. destruct (input w) as [|l1 [|l2 rest]] eqn:Hi.
    - eexists. split.
      + apply then_pending, then_pending, then_pending.
        apply (makeQuestion_silent _ w Hi).
      + split; [split; reflexivity|]. split; [reflexivity | exact Hi].
    - eexists. split.
      + apply then_pending, then_pending.
        rewrite (then_resolved _ _ _ _ _ (makeQuestion_line _ w l1 [] Hi)).
        apply then_pending. apply makeQuestion_silent.
        autorewrite with world. rewrite Hi. reflexivity.
      + split; [split; reflexivity|]. split; [reflexivity|].
        simpl. rewrite Hi. reflexivity.
    - simpl in Hlen. lia. }
  destruct Hc as (w1 & Hc & Hsame & Hfaults & Hin).
  assert (Ha : addCmd w = (Pending, w1))
    by (unfold addCmd; apply reportAndPrompt_pending, Hc).
  rewrite Ha. cbn [snd].
  split; [|split; [exact Hsame | split; [exact Hfaults | exact Hin]]].
  split; [reflexivity|].
  pose proof (addChain_noPrompt w) as Hq. rewrite Hc in Hq. exact Hq.
Qed.

(** ** Ids as they are printed and as they are typed *)

Lemma digit_char (m : nat) :
  (m < 10)%nat ->
  isDecimalDigit (ascii_of_nat (48 + m)) = true
  /\ Z.of_N (code (ascii_of_nat (48 + m))) - 48 = Z.of_nat m.
Proof.
  intros H. do 10 (destruct m as [|m]; [split; reflexivity|]). lia.
Qed.

Lemma decimalValue_app (ds es : string) (v : Z) :
  decimalValue (ds +:+ es) v = decimalValue es (decimalValue ds v).
Proof.
  revert v. induction ds as [|c ds IH]; intros v; [reflexivity|].
  change (String c ds +:+ es) with (String c (ds +:+ es)).
  cbn [decimalValue]. apply IH.
Qed.

Lemma allDigits_app (ds es : string) :
  allDigits (ds +:+ es) = allDigits ds && allDigits es.
Proof.
  induction ds as [|c ds IH]; [reflexivity|].
  change (String c ds +:+ es) with (String c (ds +:+ es)).
  cbn [allDigits]. rewrite IH, andb_assoc. reflexivity.
Qed.

Lemma append_assoc (a b c : string) : (a +:+ b) +:+ c = a +:+ b +:+ c.
Proof.
  induction a as [|x a IH]; [reflexivity|].
  change ((String x a +:+ b) +:+ c) with (String x ((a +:+ b) +:+ c)).
  rewrite IH. reflexivity.
Qed.

Lemma append_empty (a : string) : a +:+ "" = a.
Proof.
  induction a as [|x a IH]; [reflexivity|].
  change (String x a +:+ "") with (String x (a +:+ "")).
  rewrite IH. reflexivity.
Qed.

(** The numeral [digitsOf] writes in front of [acc]. *)
Lemma digitsOf_numeral (fuel n : nat) (acc : string) :
  (n < fuel)%nat ->
  exists ds,
    digitsOf fuel n acc = ds +:+ acc
    /\ allDigits ds = true /\ ds <> ""
    /\ forall v, exists k, decimalValue ds v = v * 10 ^ k + Z.of_nat n
                           /\ 0 <= k.
Proof.
  revert n acc. induction fuel as [|fuel IH]; intros n acc Hn; [lia|].
  cbn [digitsOf].
  destruct (digit_char (n mod 10)) as [Hd Hv];
    [apply Nat.mod_upper_bound; lia|].
  pose proof (Nat.div_mod_eq n 10) as Hdiv.
  set (c := ascii_of_nat (48 + n mod 10)) in *. clearbody c.
  destruct (n / 10)%nat as [|q] eqn:Hq.
  - exists (String c "").
    split; [reflexivity|].
    split; [cbn [allDigits]; rewrite Hd; reflexivity|].
    split; [discriminate|]. intros v. exists 1. split; [|lia].
    cbn [decimalValue]. rewrite Hv. lia.
  - assert (Hlt : (S q < fuel)%nat) by lia.
    destruct (IH (S q) (String c acc) Hlt) as (ds & Heq & Hall & Hne & Hval).
    exists (ds +:+ String c "").
    split; [rewrite Heq, append_assoc; reflexivity|].
    split; [rewrite allDigits_app, Hall; cbn [allDigits]; rewrite Hd;
            reflexivity|].
    split; [destruct ds; [congruence | discriminate]|].
    intros v. destruct (Hval v) as (k & Hk & Hk0). exists (k + 1).
    split; [|lia].
    rewrite decimalValue_app. cbn [decimalValue]. rewrite Hk, Hv.
    rewrite Z.pow_add_r by lia. lia.
Qed.

Lemma parseInt_ofNat (negative : bool) (n : nat) :
  parseInt ((if negative then "-" else "") +:+ ofNat n)
  = toNumber negative (Z.of_nat n).
Proof.
  unfold ofNat.
  destruct (digitsOf_numeral (S n) n "" (Nat.lt_succ_diag_r n))
    as (ds & Heq & Hall & Hne & Hval).
  rewrite Heq, append_empty.
  destruct (Hval 0) as (k & Hk & _). rewrite Z.mul_0_l, Z.add_0_l in Hk.
  rewrite <- Hk.
  pose proof (parseInt_decimal "" (if negative then "-" else "") ds ""
                eq_refl) as H.
  rewrite append_empty in H.
  change ("" +:+ (if negative then "-" else "") +:+ ds)
    with ((if negative then "-" else "") +:+ ds) in H.
  rewrite H; try assumption; try reflexivity.
  - destruct negative; reflexivity.
  - destruct negative; [right; right | left]; reflexivity.
  - right. reflexivity.
Qed.

Lemma parseInt_ofZ (z : Z) :
  - 2 ^ 53 < z < 2 ^ 53 -> parseInt (ofZ z) = Num z.
Proof.
  intros Hz. unfold ofZ. destruct (z <? 0) eqn:Hneg.
  - apply Z.ltb_lt in Hneg.
    rewrite (parseInt_ofNat true (Z.abs_nat z)).
    rewrite toNumber_exact by lia. f_equal. lia.
  - apply Z.ltb_ge in Hneg.
    pose proof (parseInt_ofNat false (Z.abs_nat z)) as H.
    change (parseInt (ofNat (Z.abs_nat z))
            = toNumber false (Z.of_nat (Z.abs_nat z))) in H.
    rewrite H, toNumber_exact by lia. f_equal. lia.
Qed.

(** X18.  The decimal numeral of an id, typed back, validates to that very id,
    for every id a double holds exactly (below 2^53 in absolute value):
    what show, list and edit print between the brackets is what the
    commands accept. *)
Theorem printed_id_validates (z : Z) (w : World) :
  - 2 ^ 53 < z < 2 ^ 53 ->
  validateId (Some (ofZ z)) w = (Resolved (Num z), w).
Proof.
  intros Hz. unfold validateId. rewrite (parseInt_ofZ z Hz). reflexivity.
Qed.


(** ** Add, then show and list *)

Lemma find_app_fresh (z : Z) (l : list quiz) (q : quiz) :
  Forall (fun r => quiz_id r < z) l -> quiz_id q = z ->
  List.find (fun r => quiz_id r =? z) (l ++ [q]) = Some q.
Proof.
  intros Hl Hq. induction l as [|r l IH]; simpl.
  - rewrite Hq, Z.eqb_refl. reflexivity.
  - apply Forall_cons in Hl as [Hr Hl].
    destruct (quiz_id r =? z) eqn:E; [apply Z.eqb_eq in E; lia|].
    apply IH, Hl.
Qed.

Lemma addCmd_stored (w : World) (l1 l2 : string) (rest : list string) :
  input w = l1 :: l2 :: rest -> trim l1 <> "" -> trim l2 <> "" ->
  nextFault w = None ->
  exists w',
    addCmd w = (Resolved tt, w')
    /\ rows w' = rows w ++ [Quiz (nextId w) (trim l1) (trim l2)]
    /\ faults w' = tail (faults w).
Proof.
  intros Hi H1 H2 Hf.
  pose proof (addChain_asks w l1 l2 rest Hi) as Hc.
  unfold then_ in Hc. rewrite create_outcome in Hc.
  rewrite (proj2 (validate_nil _ _) (conj H1 H2)) in Hc.
  rewrite nextFault_prompted, Hf in Hc.
  eexists. split.
  - unfold addCmd. apply reportAndPrompt_resolved, Hc.
  - split; reflexivity.
Qed.

(** X19.  Add, then show and list: after an add that succeeded, on ids that
    are unique, show of the id the new quiz received (typed as the
    commands print it) prints the new quiz with the trimmed texts, and
    list prints the lines it printed before followed by the line of the
    new quiz. *)
Theorem add_then_show_and_list (w : World) (l1 l2 : string)
    (rest : list string) :
  input w = l1 :: l2 :: rest -> trim l1 <> "" -> trim l2 <> "" ->
  faults w = [] -> uniqueIds w -> 0 <= nextId w < 2 ^ 53 ->
  showCmd (Some (ofZ (nextId w))) (snd (addCmd w))
  = (Resolved tt,
     saying (afterStorageCall (snd (addCmd w)))
       [shown (Quiz (nextId w) (trim l1) (trim l2)); RlPrompt])
  /\ listCmd (snd (addCmd w))
     = (Resolved tt,
        saying (afterStorageCall (snd (addCmd w)))
          (map listed (rows w)
           ++ [listed (Quiz (nextId w) (trim l1) (trim l2)); RlPrompt])).
Proof.
  intros Hi H1 H2 Hfaults [_ Hbelow] Hid.
  assert (Hf : nextFault w = None)
    by (unfold nextFault; rewrite Hfaults; reflexivity).
  destruct (addCmd_stored w l1 l2 rest Hi H1 H2 Hf) as (w' & Ha & Hr & Hfs).
  rewrite Ha. cbn [snd].
  assert (Hf' : nextFault w' = None)
    by (unfold nextFault; rewrite Hfs, Hfaults; reflexivity).
  assert (Hv : validateId (Some (ofZ (nextId w))) w'
               = (Resolved (Num (nextId w)), w')).
  { unfold validateId. rewrite parseInt_ofZ by lia. reflexivity. }
  assert (Hq : recordOf (nextId w) w'
               = Some (Quiz (nextId w) (trim l1) (trim l2))).
  { unfold recordOf. rewrite Hr.
    apply find_app_fresh; [exact Hbelow | reflexivity]. }
  split.
  - unfold showCmd.
    rewrite (caught_resolved _ _ _ (showChain_present _ _ _ w' Hv Hq Hf')).
    rewrite saying_saying. reflexivity.
  - unfold listCmd.
    rewrite (caught_resolved _ w' (saying (afterStorageCall w')
                                     (map listed (rows w')))).
    + rewrite saying_saying, Hr, map_app, <- app_assoc. reflexivity.
    + rewrite (then_resolved _ _ _ _ _ (listChain_ok w' Hf')). reflexivity.
Qed.
End Cmds.

(** ** The theorems at work on the sample worlds *)

Lemma edit_persists_witness :
  exists w',
    editChain plain "no question" "no answer" (Some "7") arithmetic
    = (Resolved tt, w')
    /\ recordOf 7 w' = Some (Quiz 7 "3+3?" "3+3?").
Proof.
  destruct (edit_persists plain "no question" "no answer" "7" 7
              (Quiz 7 "2+2?" "4") arithmetic "3+3?" "6" [])
    as [Hstored Hsuccess]; [reflexivity..|].
  destruct Hsuccess as [w' [Hc _]]; [discriminate | reflexivity |].
  exists w'. split; [exact Hc|].
  exact (proj1 (Hstored w' Hc)).
Defined.

(** The claim C1 as it stands fails on a question submitted with white
    space around it: the stored question is the trimmed text. *)
Lemma edit_stores_trimmed_question :
  fst (editCmd plain "no question" "no answer" (Some "7") padded)
  = Resolved tt
  /\ rows (snd (editCmd plain "no question" "no answer" (Some "7") padded))
     = [Quiz 7 "3+3?" "3+3?"]
  /\ question (Quiz 7 "3+3?" "3+3?") <> " 3+3? ".
Proof. split; [reflexivity|]. split; [reflexivity | discriminate]. Qed.

Lemma validateId_outcome_witness :
  validateId (Some "") blank = (Rejected InvalidParameterError, blank)
  /\ validateId (Some "0x1f") blank = (Resolved (Num 31), blank)
  /\ validateId (Some " -3abc") blank = (Resolved (Num (-3)), blank).
Proof.
  destruct (validateId_outcome blank) as (_ & Hnan & Hint & Hdec & _).
  split; [apply (Hnan ""); reflexivity|].
  split; [apply (Hint "0x1f"); discriminate|].
  apply (Hdec " " "-" "3" "abc");
    first [reflexivity | discriminate | right; right; reflexivity
          | left; discriminate].
Defined.

(** The claim C2 as it stands fails on the empty string: it is present,
    and the validation fails with InvalidParameterError. *)
Lemma validateId_empty_string :
  validateId (Some "") blank = (Rejected InvalidParameterError, blank)
  /\ InvalidParameterError <> MissingParameterError.
Proof. split; [reflexivity | discriminate]. Qed.

Lemma absent_id_commands_witness :
  showCmd plain (Some "9") arithmetic
  = (Resolved tt, notFoundReported (Some "9") arithmetic)
  /\ editChain plain "no question" "no answer" (Some "9") arithmetic
     = (Rejected (NotFoundError (Some "9")), afterStorageCall arithmetic)
  /\ deleteChain (Some "9") arithmetic
     = (Resolved 0%nat, afterStorageCall arithmetic).
Proof.
  destruct (absent_id_commands plain "no question" "no answer" (Some "9")
              (Num 9) arithmetic)
    as ((_ & Hshow) & _ & (Hedit & _) & Hdelete & _).
  - reflexivity.
  - intros r [<- | []]. discriminate.
  - reflexivity.
  - split; [exact Hshow|]. split; [exact Hedit | exact Hdelete].
Defined.

(** The claim C3 as it stands fails for delete: on an id with no record
    its promise is fulfilled, and the command logs no error. *)
Lemma delete_absent_not_an_error :
  deleteChain (Some "9") arithmetic
  = (Resolved 0%nat, afterStorageCall arithmetic)
  /\ trace (snd (deleteCmd (Some "9") arithmetic)) = [RlPrompt].
Proof. split; reflexivity. Qed.

Lemma delete_absent_id_witness :
  exists w',
    deleteCmd (Some "9") arithmetic = (Resolved tt, w')
    /\ emitted arithmetic w' [RlPrompt]
    /\ rows w' = rows arithmetic.
Proof.
  destruct (delete_absent_id (Some "9") (Num 9) arithmetic)
    as (_ & w' & Hcmd & Hem & _ & Hrows & _).
  - reflexivity.
  - intros r [<- | []]. discriminate.
  - reflexivity.
  - exists w'. split; [exact Hcmd|]. split; [exact Hem | exact Hrows].
Defined.

Lemma play_two_quizzes_witness :
  (exists w',
     playCmd plain capitals = (Resolved tt, w')
     /\ emitted capitals w'
          [RlQuestion "Capital of France: "; Log "CORRECTO - Lleva 1 aciertos";
           RlQuestion "Capital of Spain: "; Log "CORRECTO - Lleva 2 aciertos";
           nothingLeft; Log "Fin del juego. Aciertos: 2"; BigLog "2" "magenta";
           RlPrompt])
  /\ (exists w',
        playCmd plain (with_input capitals ["Lyon"; "Madrid"])
        = (Resolved tt, w')
        /\ emitted (with_input capitals ["Lyon"; "Madrid"]) w'
             [RlQuestion "Capital of France: "; Log "INCORRECTO";
              Log "Fin del juego. Aciertos: 0"; BigLog "0" "magenta";
              RlPrompt]
        /\ input w' = ["Madrid"]).
Proof.
  split.
  - destruct (play_two_quizzes plain capitals
                (Quiz 1 "Capital of Spain" "Madrid")
                (Quiz 2 "Capital of France" "Paris")
                (Quiz 2 "Capital of France" "Paris")
                (Quiz 1 "Capital of Spain" "Madrid"))
      as [Hboth _]; [reflexivity | reflexivity | intros k; reflexivity
                    | reflexivity | reflexivity |].
    destruct (Hboth " paris " "MADRID" []) as (w' & _ & Hcmd & Hem & _);
      [reflexivity | apply compare_agree; reflexivity
      | apply compare_agree; reflexivity |].
    exists w'. split; [exact Hcmd | exact Hem].
  - destruct (play_two_quizzes plain (with_input capitals ["Lyon"; "Madrid"])
                (Quiz 1 "Capital of Spain" "Madrid")
                (Quiz 2 "Capital of France" "Paris")
                (Quiz 2 "Capital of France" "Paris")
                (Quiz 1 "Capital of Spain" "Madrid"))
      as [_ Hwrong]; [reflexivity | reflexivity | intros k; reflexivity
                     | reflexivity | reflexivity |].
    destruct (Hwrong "Lyon" ["Madrid"]) as (w' & _ & Hcmd & Hem & Hin);
      [reflexivity | apply compare_agree_false; reflexivity |].
    exists w'. split; [exact Hcmd|]. split; [exact Hem | exact Hin].
Defined.

Lemma answers_compared_witness :
  testCmd plain (Some "1") capitals
  = (Resolved tt,
     saying (with_input (afterStorageCall capitals) ["MADRID"])
       (tested plain (Quiz 1 "Capital of Spain" "Madrid") false))
  /\ testCmd plain (Some "2") capitals
     = (Resolved tt,
        saying (with_input (afterStorageCall capitals) ["MADRID"])
          (tested plain (Quiz 2 "Capital of France" "Paris") true)).
Proof.
  destruct (answers_compared plain) as [Htest _].
  split.
  - apply (Htest "1" 1 (Quiz 1 "Capital of Spain" "Madrid") capitals
             " paris " ["MADRID"]);
      first [reflexivity | apply compare_agree_false; reflexivity].
  - apply (Htest "2" 2 (Quiz 2 "Capital of France" "Paris") capitals
             " paris " ["MADRID"]);
      first [reflexivity | apply compare_agree; reflexivity].
Defined.

Lemma add_outcome_witness :
  (exists w',
     addChain plain "no question" "no answer" arithmetic = (Resolved tt, w')
     /\ rows w' = [Quiz 7 "2+2?" "4"; Quiz 8 "3+3?" "6"])
  /\ (exists w' l,
        addCmd plain "no question" "no answer" arithmetic = (Resolved tt, w')
        /\ emitted arithmetic w' (l ++ [RlPrompt]) /\ prompts l = 0%nat).
Proof.
  destruct (add_outcome plain "no question" "no answer" arithmetic
              "3+3?" "6" [])
    as (Hrows & Hsuccess & w2 & l & Hcmd & Hem & Hp & _); [reflexivity|].
  split.
  - destruct Hsuccess as [w' Hc]; [discriminate | discriminate | reflexivity|].
    exists w'. split; [exact Hc | exact (Hrows w' Hc)].
  - exists w2, l. split; [exact Hcmd|]. split; [exact Hem | exact Hp].
Defined.

(** The claim C7 as it stands fails on texts submitted with white space
    around them: the new record holds the trimmed texts. *)
Lemma add_stores_trimmed_texts :
  fst (addCmd plain "no question" "no answer" padded) = Resolved tt
  /\ rows (snd (addCmd plain "no question" "no answer" padded))
     = [Quiz 7 "2+2?" "4"; Quiz 8 "3+3?" "6"]
  /\ Quiz 8 "3+3?" "6" <> Quiz 8 " 3+3? " " 6 ".
Proof. split; [reflexivity|]. split; [reflexivity | discriminate]. Qed.

Lemma play_load_failure_witness :
  exists w',
    playCmd plain unreachable = (Resolved tt, w')
    /\ emitted unreachable w'
         [ConsoleLog "Error: SequelizeConnectionError: connect ECONNREFUSED"].
Proof.
  destruct (play_load_failure plain unreachable
              (Error "SequelizeConnectionError" "connect ECONNREFUSED"))
    as (w' & Hcmd & Hem & _); [reflexivity|].
  exists w'. split; [exact Hcmd | exact Hem].
Defined.

Lemma play_no_quizzes_witness :
  exists w',
    playCmd plain blank = (Resolved tt, w')
    /\ emitted blank w'
         [nothingLeft; Log "Fin del juego. Aciertos: 0"; BigLog "0" "magenta";
          RlPrompt].
Proof.
  destruct (play_no_quizzes plain blank) as (w' & Hcmd & Hem & _);
    [reflexivity | reflexivity |].
  exists w'. split; [exact Hcmd | exact Hem].
Defined.

Lemma play_session_witness :
  (rows thirds <> [] ->
   exists q,
     (picked (mkSession 0 (rows thirds)) thirds < 3)%nat
     /\ rows thirds !! picked (mkSession 0 (rows thirds)) thirds = Some q
     /\ Permutation
          (q :: toBeResolved (dropped (mkSession 0 (rows thirds)) thirds))
          (rows thirds)
     /\ (input thirds = [] ->
         playOne plain 3 (mkSession 0 (rows thirds)) thirds
         = Some (Pending, dropped (mkSession 0 (rows thirds)) thirds,
                 runTimers (saying (drawn thirds) [asks plain q])))
     /\ (forall line rest,
           input thirds = line :: rest ->
           (agree line (answer q) ->
            playOne plain 3 (mkSession 0 (rows thirds)) thirds
            = playOne plain 2
                (mkSession 1
                   (toBeResolved (dropped (mkSession 0 (rows thirds)) thirds)))
                (saying (heard plain q thirds) [correctLine 1]))
           /\ (~ agree line (answer q) ->
               playOne plain 3 (mkSession 0 (rows thirds)) thirds
               = Some (Resolved tt, dropped (mkSession 0 (rows thirds)) thirds,
                       saying (heard plain q thirds)
                         (Log "INCORRECTO" :: gameOver 0)))))
  /\ exists r s' w' right last tail lines,
       playOne plain 3 (mkSession 0 (rows thirds)) thirds = Some (r, s', w')
       /\ ending plain (score s') r last (toBeResolved s') tail
       /\ emitted thirds w' (rounds plain 0 right ++ tail)
       /\ Permutation (right ++ last ++ toBeResolved s') (rows thirds)
       /\ input thirds = lines ++ input w'
       /\ linesRead r right last lines
       /\ (r = Pending -> input w' = [])
       /\ score s' = (0 + length right)%nat
       /\ (score s' <= 0 + 3)%nat.
Proof.
  apply (play_session plain 3 (mkSession 0 (rows thirds)) thirds).
  - intros k. reflexivity.
  - unfold isArrayLength. simpl. lia.
  - reflexivity.
  - simpl. lia.
Defined.

(** ** The further theorems at work on the sample worlds *)

Lemma arithmetic_uniqueIds : uniqueIds arithmetic.
Proof.
  split.
  - apply NoDup_singleton.
  - apply Forall_singleton. reflexivity.
Defined.

Lemma invalid_id_reported_witness :
  showCmd plain None blank
  = (Resolved tt, saying blank [ErrorLog "Falta el parametro <id>."; RlPrompt])
  /\ deleteCmd (Some "seven") blank
     = (Resolved tt,
        saying blank [ErrorLog (message InvalidParameterError); RlPrompt]).
Proof.
  split.
  - destruct (invalid_id_reported plain "no question" "no answer" None blank
                MissingParameterError eq_refl) as (_ & H & _).
    exact H.
  - destruct (invalid_id_reported plain "no question" "no answer"
                (Some "seven") blank InvalidParameterError eq_refl)
      as (_ & _ & _ & _ & H).
    exact H.
Defined.

Lemma storage_failure_reported_witness :
  showCmd plain (Some "1") unreachable
  = (Resolved tt,
     saying (afterStorageCall unreachable)
       [ErrorLog "connect ECONNREFUSED"; RlPrompt]).
Proof.
  destruct (storage_failure_reported plain "no question" "no answer"
              (Some "1") (Num 1) unreachable
              (Error "SequelizeConnectionError" "connect ECONNREFUSED")
              eq_refl eq_refl) as (H & _).
  exact H.
Defined.

Lemma show_existing_witness :
  showCmd plain (Some "7") arithmetic
  = (Resolved tt,
     saying (afterStorageCall arithmetic) [Log "[7]: 2+2? => 4"; RlPrompt]).
Proof.
  exact (show_existing plain (Some "7") 7 (Quiz 7 "2+2?" "4") arithmetic
           eq_refl eq_refl eq_refl).
Defined.

Lemma list_prints_rows_witness :
  listCmd plain capitals
  = (Resolved tt,
     saying (afterStorageCall capitals)
       [Log "[1]: Capital of Spain "; Log "[2]: Capital of France ";
        RlPrompt]).
Proof. exact (list_prints_rows plain capitals eq_refl). Defined.

Lemma delete_removes_witness :
  recordOf 7 (snd (deleteCmd (Some "7") arithmetic)) = None
  /\ nextId (snd (deleteCmd (Some "7") arithmetic)) = 8.
Proof.
  destruct (delete_removes plain (Some "7") 7 arithmetic eq_refl eq_refl)
    as (_ & H1 & _ & H2 & _).
  split; [exact H1 | exact H2].
Defined.

Lemma add_rejected_by_validation_witness :
  addCmd plain "no question" "no answer" (with_input arithmetic ["  "; "x"])
  = (Resolved tt,
     saying (prompted plain (with_input arithmetic ["  "; "x"]))
       [ErrorLog "El quiz es erroneo:"; ErrorLog "no question"; RlPrompt]).
Proof.
  destruct (add_rejected_by_validation plain "no question" "no answer"
              (with_input arithmetic ["  "; "x"]) "  " "x" [] eq_refl
              (or_introl eq_refl)) as (H & _).
  exact H.
Defined.

Lemma edit_ignores_answer_witness :
  editCmd plain "no question" "no answer" (Some "7") arithmetic
  = editCmd plain "no question" "no answer" (Some "7")
      (with_input arithmetic ["3+3?"; "anything else"]).
Proof.
  exact (edit_ignores_answer plain "no question" "no answer" "7" 7
           (Quiz 7 "2+2?" "4") arithmetic "3+3?" "6" "anything else" []
           eq_refl eq_refl eq_refl eq_refl).
Defined.

Lemma edit_empty_question_witness :
  editCmd plain "no question" "no answer" (Some "7")
    (with_input arithmetic [" "; "6"])
  = (Resolved tt,
     saying (edited plain (Quiz 7 "2+2?" "4") (with_input arithmetic [" "; "6"]))
       [ErrorLog "El quiz es erroneo:"; ErrorLog "no question";
        ErrorLog "no answer"; RlPrompt]).
Proof.
  destruct (edit_empty_question plain "no question" "no answer" "7" 7
              (Quiz 7 "2+2?" "4") (with_input arithmetic [" "; "6"])
              " " "6" [] eq_refl eq_refl eq_refl eq_refl eq_refl) as (H & _).
  exact H.
Defined.


Lemma ids_stay_unique_witness :
  uniqueIds (snd (addCmd plain "no question" "no answer" arithmetic))
  /\ uniqueIds (snd (deleteCmd (Some "7") arithmetic)).
Proof.
  destruct (ids_stay_unique plain "no question" "no answer" (Some "7")
              arithmetic) as (Hadd & _ & Hdelete & _).
  split; [apply Hadd | apply Hdelete]; exact arithmetic_uniqueIds.
Defined.

Lemma edit_prefills_witness :
  exists w',
    editCmd plain "no question" "no answer" (Some "7") arithmetic
    = (Resolved tt, w')
    /\ emitted arithmetic w'
         [RlQuestion "Introduzca la pregunta: "; RlWrite "2+2?";
          RlQuestion "Introduzca la respuesta "; RlWrite "4";
          Log " Se ha cambiado el quiz 7 por: 3+3? => 3+3?"; RlPrompt].
Proof.
  destruct (edit_prefills plain "no question" "no answer" "7" 7
              (Quiz 7 "2+2?" "4") arithmetic "3+3?" "6" [])
    as (w' & Hcmd & Hem & _);
    [reflexivity | reflexivity | reflexivity | reflexivity | discriminate |].
  exists w'. split; [exact Hcmd | exact Hem].
Defined.

Lemma makeQuestion_text_witness :
  makeQuestion plain "Introduzca una pregunta: " padded
  = (Resolved "3+3?", answered plain "Introduzca una pregunta: " padded)
  /\ fst (makeQuestion plain "Introduzca una pregunta: " blank) = Pending.
Proof.
  split.
  - destruct (makeQuestion_text plain "Introduzca una pregunta: " padded)
      as (_ & _ & H).
    destruct (H " 3+3? " [" 6 "] eq_refl) as (Hq & _). exact Hq.
  - destruct (makeQuestion_text plain "Introduzca una pregunta: " blank)
      as (_ & H & _).
    exact (H eq_refl).
Defined.

Lemma add_unanswered_witness :
  waiting blank (addCmd plain "no question" "no answer" blank)
  /\ rows (snd (addCmd plain "no question" "no answer" blank)) = [].
Proof.
  destruct (add_unanswered plain "no question" "no answer" blank)
    as (Hw & [Hr _] & _); [simpl; lia|].
  split; [exact Hw | exact Hr].
Defined.

Lemma printed_id_validates_witness :
  validateId (Some (ofZ 42)) blank = (Resolved (Num 42), blank)
  /\ validateId (Some (ofZ (-7))) blank = (Resolved (Num (-7)), blank).
Proof.
  split.
  - apply (printed_id_validates 42 blank). split; reflexivity.
  - apply (printed_id_validates (-7) blank). split; reflexivity.
Defined.

Lemma add_then_show_and_list_witness :
  showCmd plain (Some "8")
    (snd (addCmd plain "no question" "no answer" arithmetic))
  = (Resolved tt,
     saying
       (afterStorageCall
          (snd (addCmd plain "no question" "no answer" arithmetic)))
       [Log "[8]: 3+3? => 6"; RlPrompt]).
Proof.
  destruct (add_then_show_and_list plain "no question" "no answer" arithmetic
              "3+3?" "6" []) as (H & _);
    [reflexivity | discriminate | discriminate | reflexivity
    | exact arithmetic_uniqueIds | split; [discriminate | reflexivity] |].
  exact H.
Defined.
